(** * The unified-diff patch engine of nexa-ai-assistant

    A shallow embedding of the class [DiffTester] of
    [src/tests/diff-application.test.ts] (methods [applyUnifiedDiff],
    [parseUnifiedDiffHunks], [validateHunk] and [applyHunk]) and proofs about
    it.

    Conventions of the embedding.
    - A JavaScript string is the list of its UTF-16 code units ([char := N]).
    - A JavaScript number that only ever holds an integer is a [Z]; the
      embedding is exact as long as the header numbers stay below [2^53].
    - An array whose cells can be read out of range holds [option str]:
      [None] is [undefined]. An array is the list of its cells; the
      embedding is exact as long as no array is asked to hold more than
      [2^32 - 1] cells ([maxArrayLength]), where [push] throws a
      [RangeError].
    - A [throw] is the [Throw] constructor of [outcome]; the [TypeError] that
      reading [.trim] of [undefined] raises is an error value of its own. *)

From Stdlib Require Import String Ascii.
From Stdlib Require Import List ZArith NArith Lia Bool.
Import ListNotations.
Local Open Scope string_scope.
Local Open Scope list_scope.


(** ** Strings *)

Definition char := N.
Definition str := list char.

(** Literals: the code units of an ASCII literal. *)
Definition js (s : string) : str := map N_of_ascii (list_ascii_of_string s).

Definition CR : char := 13%N.
Definition LF : char := 10%N.

(** [a === b] on two strings. *)
Fixpoint str_eqb (a b : str) : bool :=
  match a, b with
  | [], [] => true
  | x :: a', y :: b' => N.eqb x y && str_eqb a' b'
  | _, _ => false
  end.

(** [s.replace(/\r\n/g, '\n')]: every match, left to right, not overlapping. *)
Fixpoint normalizeLineEndings (s : str) : str :=
  match s with
  | [] => []
  | c :: rest =>
      match rest with
      | d :: rest' =>
          if N.eqb c CR && N.eqb d LF then LF :: normalizeLineEndings rest'
          else c :: normalizeLineEndings rest
      | [] => [c]
      end
  end.

(** [s.split(sep)] for a one-character separator: never the empty array. *)
Fixpoint split (sep : char) (s : str) : list str :=
  match s with
  | [] => [[]]
  | c :: rest =>
      if N.eqb c sep then [] :: split sep rest
      else match split sep rest with
           | l :: ls => (c :: l) :: ls
           | [] => [[c]]
           end
  end.

(** The text [Array.prototype.join] writes for a cell: nothing for
    [undefined]. *)
Definition cellText (x : option str) : str :=
  match x with Some s => s | None => [] end.

(** [a.join(sep)]. *)
Fixpoint join (sep : str) (a : list (option str)) : str :=
  match a with
  | [] => []
  | x :: rest =>
      match rest with
      | [] => cellText x
      | _ :: _ => cellText x ++ sep ++ join sep rest
      end
  end.

(** [s.startsWith(p)]. *)
Fixpoint startsWith (s p : str) {struct p} : bool :=
  match p with
  | [] => true
  | y :: p' =>
      match s with
      | x :: s' => N.eqb x y && startsWith s' p'
      | [] => false
      end
  end.

(** [s.substring(1)]. *)
Definition substring1 (s : str) : str := tl s.

(** White space and line terminators, the code units [trim] strips. *)
Definition isWhiteSpace (c : char) : bool :=
  existsb (N.eqb c)
    [9; 10; 11; 12; 13; 32; 160; 5760; 8232; 8233; 8239; 8287; 12288; 65279]%N
  || (N.leb 8192 c && N.leb c 8202).

Fixpoint trimStart (s : str) : str :=
  match s with
  | c :: rest => if isWhiteSpace c then trimStart rest else s
  | [] => []
  end.

(** [s.trim()]. *)
Definition trim (s : str) : str := rev (trimStart (rev (trimStart s))).

(** ** The header pattern

    [/@@ -(\d+)(?:,(\d+))? \+(\d+)(?:,(\d+))? @@/] has no anchor: [match]
    searches the line for the leftmost position where the pattern matches.
    At one position the match is forced: each [\d+] is followed in the
    pattern by a character that is no digit, so it takes the whole run of
    digits, and an optional group that starts with a comma cannot be skipped
    when the pattern goes on with a space. *)

Definition isDigit (c : char) : bool := N.leb 48 c && N.leb c 57.

(** The longest run of digits at the head of [s], and what follows. *)
Fixpoint spanDigits (s : str) : str * str :=
  match s with
  | c :: rest =>
      if isDigit c then let (d, r) := spanDigits rest in (c :: d, r)
      else ([], s)
  | [] => ([], [])
  end.

(** [(\d+)]. *)
Definition digits1 (s : str) : option (str * str) :=
  match spanDigits s with
  | ([], _) => None
  | (d, r) => Some (d, r)
  end.

(** A literal piece of the pattern. *)
Fixpoint literal (p s : str) : option str :=
  match p, s with
  | [], _ => Some s
  | y :: p', x :: s' => if N.eqb x y then literal p' s' else None
  | _ :: _, [] => None
  end.

(** [(?:,(\d+))?]: the group's capture is [None] ([undefined]) when the
    group does not take part in the match. *)
Definition optCount (s : str) : option str * str :=
  match literal (js ",") s with
  | Some r =>
      match digits1 r with
      | Some (d, r') => (Some d, r')
      | None => (None, s)
      end
  | None => (None, s)
  end.

(** The captures [match[1..4]]. *)
Record headerMatch := {
  group1 : str;
  group2 : option str;
  group3 : str;
  group4 : option str
}.

(** The pattern matched at the head of [s]. *)
Definition matchHeaderAt (s : str) : option headerMatch :=
  match literal (js "@@ -") s with
  | None => None
  | Some r1 =>
      match digits1 r1 with
      | None => None
      | Some (g1, r2) =>
          let (g2, r3) := optCount r2 in
          match literal (js " +") r3 with
          | None => None
          | Some r4 =>
              match digits1 r4 with
              | None => None
              | Some (g3, r5) =>
                  let (g4, r6) := optCount r5 in
                  match literal (js " @@") r6 with
                  | None => None
                  | Some _ =>
                      Some {| group1 := g1; group2 := g2;
                              group3 := g3; group4 := g4 |}
                  end
              end
          end
      end
  end.

(** [line.match(/@@ -(\d+)(?:,(\d+))? \+(\d+)(?:,(\d+))? @@/)]: the leftmost
    position that matches, [None] for [null]. *)
Fixpoint matchHeader (line : str) : option headerMatch :=
  match matchHeaderAt line with
  | Some m => Some m
  | None =>
      match line with
      | [] => None
      | _ :: rest => matchHeader rest
      end
  end.

(** [parseInt(d)] on a string of decimal digits. *)
Definition parseInt (d : str) : Z :=
  fold_left (fun acc c => (acc * 10 + (Z.of_N c - 48))%Z) d 0%Z.

(** ** Data model *)

(** ['context' | 'delete' | 'add']. *)
Inductive lineType := context | delete | add.

Record diffLine := { type : lineType; content : str }.

(** [oldStart] and [newStart] are stored zero-based: the header's number
    minus one, so [-1] for a header that says line [0]. *)
Record hunk := {
  oldStart : Z;
  oldCount : Z;
  newStart : Z;
  newCount : Z;
  lines : list diffLine
}.

(** The second argument of [validateHunk]: ['strict'] or ['normalized']. *)
Inductive validationMode := strict | normalized.

(** What a call can throw.
    - [MalformedHunkHeader line]: [new Error(`Invalid hunk header: ${line}`)];
    - [HunkValidationFailed n]:
      [new Error(`Hunk validation failed: context mismatch at line ${n}`)];
    - [TypeError]: [originalLine.trim()] on an [undefined] line. *)
Inductive error :=
| MalformedHunkHeader (line : str)
| HunkValidationFailed (oneBasedLine : Z)
| TypeError.

Inductive outcome (A : Type) :=
| Ret (a : A)
| Throw (e : error).
Arguments Ret {A} a.
Arguments Throw {A} e.

Definition bind {A B} (m : outcome A) (k : A -> outcome B) : outcome B :=
  match m with
  | Ret a => k a
  | Throw e => Throw e
  end.

Declare Scope outcome_scope.
Delimit Scope outcome_scope with outcome.
Notation "x <- m ;; k" := (bind m (fun x => k))
  (at level 61, m at next level, right associativity) : outcome_scope.
Local Open Scope outcome_scope.

(** [a[i]] for a number [i] that holds an integer: [undefined] out of
    range, on either side. *)
Definition index {A} (a : list A) (i : Z) : option A :=
  if (i <? 0)%Z then None else nth_error a (Z.to_nat i).

(** ** parseUnifiedDiffHunks *)

(** The hunk a header opens. *)
Definition openHunk (m : headerMatch) : hunk :=
  {| oldStart := (parseInt (group1 m) - 1)%Z;
     oldCount := parseInt (match group2 m with Some d => d | None => js "1" end);
     newStart := (parseInt (group3 m) - 1)%Z;
     newCount := parseInt (match group4 m with Some d => d | None => js "1" end);
     lines := [] |}.

(** [currentHunk.lines.push({ type, content })]. *)
Definition pushLine (h : hunk) (l : diffLine) : hunk :=
  {| oldStart := oldStart h; oldCount := oldCount h;
     newStart := newStart h; newCount := newCount h;
     lines := lines h ++ [l] |}.

(** The content line that [line] stands for. *)
Definition contentLine (line : str) : diffLine :=
  {| type := if startsWith line (js " ") then context
             else if startsWith line (js "-") then delete else add;
     content := substring1 line |}.

(** [if (currentHunk) hunks.push(currentHunk)]. *)
Definition flush (hunks : list hunk) (currentHunk : option hunk) : list hunk :=
  match currentHunk with
  | Some h => hunks ++ [h]
  | None => hunks
  end.

(** The loop over [diffLines], from the state [(hunks, currentHunk)]. *)
Fixpoint parseFrom (diffLines : list str) (hunks : list hunk)
    (currentHunk : option hunk) : outcome (list hunk) :=
  match diffLines with
  | [] => Ret (flush hunks currentHunk)
  | line :: rest =>
      if startsWith line (js "@@") then
        match matchHeader line with
        | None => Throw (MalformedHunkHeader line)
        | Some m => parseFrom rest (flush hunks currentHunk) (Some (openHunk m))
        end
      else
        match currentHunk with
        | Some h =>
            if startsWith line (js " ") || startsWith line (js "-")
               || startsWith line (js "+")
            then parseFrom rest hunks (Some (pushLine h (contentLine line)))
            else parseFrom rest hunks currentHunk
        | None => parseFrom rest hunks currentHunk
        end
  end.

Definition parseUnifiedDiffHunks (diffLines : list str) : outcome (list hunk) :=
  parseFrom diffLines [] None.

(** ** validateHunk *)

(** The loop over [hunk.lines] from the cursor [originalIndex]. *)
Fixpoint validateFrom (originalLines : list str) (mode : validationMode)
    (ls : list diffLine) (originalIndex : Z) : outcome bool :=
  match ls with
  | [] => Ret true
  | line :: rest =>
      match type line with
      | add => validateFrom originalLines mode rest originalIndex
      | _ =>
          if (originalIndex >=? Z.of_nat (length originalLines))%Z then Ret false
          else
            let originalLine := index originalLines originalIndex in
            let hunkLine := content line in
            matches <-
              match mode with
              | strict =>
                  Ret (match originalLine with
                       | Some o => str_eqb o hunkLine
                       | None => false
                       end)
              | normalized =>
                  match originalLine with
                  | Some o => Ret (str_eqb (trim o) (trim hunkLine))
                  | None => Throw TypeError
                  end
              end ;;
            if matches
            then validateFrom originalLines mode rest (originalIndex + 1)%Z
            else Ret false
      end
  end.

Definition validateHunk (originalLines : list str) (h : hunk)
    (mode : validationMode) : outcome bool :=
  validateFrom originalLines mode (lines h) (oldStart h).

(** ** applyHunk *)

(** [lines[originalIndex]] for a cursor that only counts up from [0]:
    [undefined] past the end. *)
Definition cell (a : list (option str)) (originalIndex : nat) : option str :=
  match nth_error a originalIndex with
  | Some x => x
  | None => None
  end.

(** [while (originalIndex < bound) result.push(lines[originalIndex++])], as
    the cells pushed: [n] of them from [originalIndex] on. *)
Fixpoint copyCells (a : list (option str)) (originalIndex n : nat)
    : list (option str) :=
  match n with
  | O => []
  | S n' => cell a originalIndex :: copyCells a (S originalIndex) n'
  end.

(** The loop over [hunk.lines]: the cells pushed and the cursor reached. *)
Fixpoint walkHunk (a : list (option str)) (ls : list diffLine)
    (originalIndex : nat) : list (option str) * nat :=
  match ls with
  | [] => ([], originalIndex)
  | hunkLine :: rest =>
      match type hunkLine with
      | context =>
          let (out, k) := walkHunk a rest (S originalIndex) in
          (cell a originalIndex :: out, k)
      | delete => walkHunk a rest (S originalIndex)
      | add =>
          let (out, k) := walkHunk a rest originalIndex in
          (Some (content hunkLine) :: out, k)
      end
  end.

(** The most cells an array holds: [2^32 - 1]. The [push] that would go
    past it throws a [RangeError]. *)
Definition maxArrayLength : Z := 4294967295.

(** The cursor starts at [0] and the first loop runs while it is below
    [hunk.oldStart]: it stops at [max 0 oldStart]. The result is the list of
    the cells the three loops push, which is the array the source returns as
    long as they are [maxArrayLength] at most. *)
Definition applyHunk (a : list (option str)) (h : hunk) : list (option str) :=
  let start := Z.to_nat (oldStart h) in
  let before := copyCells a 0 start in
  let (middle, originalIndex) := walkHunk a (lines h) start in
  before ++ middle ++ copyCells a originalIndex (length a - originalIndex).

(** ** applyUnifiedDiff *)

(** The validation loop, from the mode reached so far. *)
Fixpoint validateAll (originalLines : list str) (hunks : list hunk)
    (validationMode : validationMode) : outcome unit :=
  match hunks with
  | [] => Ret tt
  | h :: rest =>
      ok <- validateHunk originalLines h validationMode ;;
      if ok then validateAll originalLines rest validationMode
      else
        ok' <- validateHunk originalLines h normalized ;;
        if ok' then validateAll originalLines rest normalized
        else Throw (HunkValidationFailed (oldStart h + 1))
  end.

(** [for (i = hunks.length - 1; i >= 0; i--) result = applyHunk(result, hunks[i])]. *)
Definition applyAll (result : list (option str)) (hunks : list hunk)
    : list (option str) :=
  fold_left applyHunk (rev hunks) result.

Definition originalLinesOf (normalizedOriginal : str) : list str :=
  if str_eqb normalizedOriginal [] then [] else split LF normalizedOriginal.

Definition applyUnifiedDiff (originalContent unifiedDiff : str) : outcome str :=
  let normalizedOriginal := normalizeLineEndings originalContent in
  let normalizedDiff := normalizeLineEndings unifiedDiff in
  let originalLines := originalLinesOf normalizedOriginal in
  let diffLines := split LF normalizedDiff in
  hunks <- parseUnifiedDiffHunks diffLines ;;
  _ <- validateAll originalLines hunks strict ;;
  Ret (join [LF] (applyAll (map Some originalLines) hunks)).

(** * Notions the statements use *)

(** ** Line endings and lines *)

(** [s'] is [s] with a CR put before some of its LFs (none, some or all). *)
Inductive crlfVariant : str -> str -> Prop :=
| crlf_nil : crlfVariant [] []
| crlf_same c s s' : crlfVariant s s' -> crlfVariant (c :: s) (c :: s')
| crlf_put s s' : crlfVariant s s' -> crlfVariant (LF :: s) (CR :: LF :: s').

(** A text whose line endings are all plain LF: no CR is followed by LF. *)
Fixpoint lfOnly (s : str) : bool :=
  match s with
  | [] => true
  | c :: rest =>
      match rest with
      | d :: _ => negb (N.eqb c CR && N.eqb d LF) && lfOnly rest
      | [] => true
      end
  end.

(** A line of text: neither CR nor LF in it. *)
Definition plain (s : str) : bool :=
  forallb (fun c => negb (N.eqb c CR) && negb (N.eqb c LF)) s.

(** No line of [ls] begins with the hunk marker. *)
Definition noMarker (ls : list str) : Prop :=
  Forall (fun line => startsWith line (js "@@") = false) ls.

(** ** The header pattern as a language *)

(** The header pattern, read as a language.  [digitString d]: [d] is one or
    more decimal digits. *)
Definition digitString (d : str) : Prop := d <> [] /\ forallb isDigit d = true.

(** The text of [(?:,(\d+))?] for a capture. *)
Definition countText (c : option str) : str :=
  match c with
  | Some d => js "," ++ d
  | None => []
  end.

Definition countOk (c : option str) : Prop :=
  match c with
  | Some d => digitString d
  | None => True
  end.

(** [s] begins with [@@ -<g1>[,<g2>] +<g3>[,<g4>] @@]. *)
Definition headerAt (m : headerMatch) (s : str) : Prop :=
  digitString (group1 m) /\ countOk (group2 m)
  /\ digitString (group3 m) /\ countOk (group4 m)
  /\ exists post,
      s = js "@@ -" ++ group1 m ++ countText (group2 m)
          ++ js " +" ++ group3 m ++ countText (group4 m) ++ js " @@" ++ post.

(** Some part of [line] has the shape of a header. *)
Definition matchesHeaderPattern (line : str) : Prop :=
  exists pre s m, line = pre ++ s /\ headerAt m s.

(** A line that begins with the hunk marker and has no header in it. *)
Definition malformedHeader (line : str) : Prop :=
  startsWith line (js "@@") = true /\ ~ matchesHeaderPattern line.

(** The hunk [h] has the numbers of the header that [match] finds in
    [line]: the starts of the hunk that the header opens, a count as the
    header writes it, and [1] where the header leaves it out. *)
Definition headerOf (line : str) (h : hunk) : Prop :=
  exists m,
    matchHeader line = Some m
    /\ oldStart h = oldStart (openHunk m)
    /\ newStart h = newStart (openHunk m)
    /\ oldCount h = match group2 m with Some d => parseInt d | None => 1%Z end
    /\ newCount h = match group4 m with Some d => parseInt d | None => 1%Z end.

(** What follows a run of digits is no digit. *)
Definition digitFree (r : str) : Prop :=
  match r with
  | c :: _ => isDigit c = false
  | [] => True
  end.

(** ** The validation phase *)

(** [h] passes validation against [originalLines] in [mode]. *)
Definition passes (originalLines : list str) (mode : validationMode) (h : hunk)
    : Prop :=
  validateHunk originalLines h mode = Ret true.

(** The validation phase as the specification words it (4.5, step 3):
    validate every hunk in one mode and stop at the first that fails. *)
Fixpoint firstFailing (originalLines : list str) (mode : validationMode)
    (hunks : list hunk) : outcome (option hunk) :=
  match hunks with
  | [] => Ret None
  | h :: rest =>
      ok <- validateHunk originalLines h mode ;;
      if ok then firstFailing originalLines mode rest else Ret (Some h)
  end.

(** "Validate every hunk in strict mode. If any hunk fails, re-validate every
    hunk in normalized mode instead. If any hunk still fails, abort with
    HunkValidationFailed, reporting [oldStart + 1] of the first failing
    hunk." *)
Definition validateBatchSpec (originalLines : list str) (hunks : list hunk)
    : outcome unit :=
  failing <- firstFailing originalLines strict hunks ;;
  match failing with
  | None => Ret tt
  | Some _ =>
      failing' <- firstFailing originalLines normalized hunks ;;
      match failing' with
      | None => Ret tt
      | Some h => Throw (HunkValidationFailed (oldStart h + 1))
      end
  end.

(** [line] is checked against the original: it is a context or a delete
    line. *)
Definition consumes (line : diffLine) : bool :=
  match type line with
  | add => false
  | _ => true
  end.

(** A hunk that reads the original does so from an index that exists: its
    [oldStart] is not negative. (A header that says line [0] gives
    [oldStart = -1].) *)
Definition wellPlaced (h : hunk) : Prop :=
  (0 <= oldStart h)%Z \/ forallb (fun l => negb (consumes l)) (lines h) = true.

(** ** Hunks in order

    [applyHunk] starts its cursor at [0] and copies while the cursor is below
    [oldStart]: the hunk's lines are walked from [max 0 oldStart]. *)
Definition startOf (h : hunk) : nat := Z.to_nat (oldStart h).

(** [line] puts a line into the result: it is a context or an add line. *)
Definition emits (line : diffLine) : bool :=
  match type line with
  | delete => false
  | _ => true
  end.

(** How many original lines the lines [ls] of a hunk read, and how many
    lines they write. *)
Definition consumed (ls : list diffLine) : nat := length (filter consumes ls).
Definition emitted (ls : list diffLine) : nat := length (filter emits ls).

(** One past the last original line that [h] reads. *)
Definition endOf (h : hunk) : nat := startOf h + consumed (lines h).

(** The hunks do not overlap and are listed by non-decreasing [oldStart]:
    none starts before [from], and each ends where the next starts or
    before. *)
Fixpoint ordered (from : nat) (hunks : list hunk) : Prop :=
  match hunks with
  | [] => True
  | h :: rest => from <= startOf h /\ ordered (endOf h) rest
  end.

(** The original line [j] lies outside the hunks: after the first [k] of
    them and before the others. *)
Definition betweenHunks (hunks : list hunk) (k j : nat) : Prop :=
  Forall (fun h => endOf h <= j) (firstn k hunks)
  /\ Forall (fun h => j < startOf h) (skipn k hunks).

(** What [h] writes over the array [a]: the cells its context lines copy
    and the texts of its add lines. *)
Definition edit (a : list (option str)) (h : hunk) : list (option str) :=
  fst (walkHunk a (lines h) (startOf h)).

(** The content with every edit in place, in one pass over the original
    from the line [from] on: the lines between two hunks are the original's,
    each hunk writes its edit where it starts, and the rest follows. *)
Fixpoint patchedFrom (a : list (option str)) (from : nat) (hunks : list hunk)
    : list (option str) :=
  match hunks with
  | [] => skipn from a
  | h :: rest =>
      copyCells a from (startOf h - from) ++ edit a h
        ++ patchedFrom a (endOf h) rest
  end.

(** By how much a hunk changes the line count: lines added minus lines
    deleted. *)
Definition delta (h : hunk) : Z :=
  (Z.of_nat (emitted (lines h)) - Z.of_nat (consumed (lines h)))%Z.

(** The change the first [k] hunks make. *)
Fixpoint shiftBefore (hunks : list hunk) (k : nat) : Z :=
  match k, hunks with
  | S k', h :: rest => (delta h + shiftBefore rest k')%Z
  | _, _ => 0%Z
  end.

(** Where the edit of the hunk [h], the [k]-th of [hunks], begins in the
    new content: at its own offset, moved by what the hunks before it add
    and delete. *)
Definition newOffset (hunks : list hunk) (k : nat) (h : hunk) : nat :=
  Z.to_nat (Z.of_nat (startOf h) + shiftBefore hunks k).

(** Every line that [h] checks stands against an original line from which
    it differs by leading and trailing white space at most. The [i]-th line
    of the hunk is checked against the original line at the hunk's start
    plus the number of lines checked before it. *)
Definition agreesUpToTrim (originalLines : list str) (h : hunk) : Prop :=
  wellPlaced h
  /\ forall i line,
      nth_error (lines h) i = Some line ->
      consumes line = true ->
      exists o,
        nth_error originalLines (startOf h + consumed (firstn i (lines h)))
        = Some o
        /\ trim o = trim (content line).

(** ** Inputs of the examples *)

(** The hunk of the diff [@@ -0,1 +1 @@] followed by the context line [a]. *)
Definition hunkAtLineZero : hunk :=
  {| oldStart := -1; oldCount := 1; newStart := 0; newCount := 1;
     lines := [{| type := context; content := js "a" |}] |}.

(** Two hunks that change the line count by different amounts: the first
    replaces line 1 by two lines, the second deletes line 5. *)
Definition growThenShrink : list hunk :=
  [ {| oldStart := 0; oldCount := 2; newStart := 0; newCount := 3;
       lines := [ {| type := delete; content := js "line1" |};
                  {| type := add; content := js "one" |};
                  {| type := add; content := js "uno" |};
                  {| type := context; content := js "line2" |} ] |};
    {| oldStart := 3; oldCount := 2; newStart := 4; newCount := 1;
       lines := [ {| type := context; content := js "line4" |};
                  {| type := delete; content := js "line5" |} ] |} ].

Definition fiveLines : list str :=
  [js "line1"; js "line2"; js "line3"; js "line4"; js "line5"].

(** The hunk of the scenario with trailing white space in the original. *)
Definition whitespaceHunk : hunk :=
  {| oldStart := 0; oldCount := 3; newStart := 0; newCount := 3;
     lines := [ {| type := context; content := js "  function test() {" |};
                {| type := delete; content := js "    return true;" |};
                {| type := add; content := js "    return false;" |};
                {| type := context; content := js "  }" |} ] |}.

Definition whitespaceLines : list str :=
  [js "  function test() {  "; js "    return true;"; js "  }"].

(** The diff [@@ -0,0 +1,3 @@] followed by the add lines [+a], [+b], [+c]. *)
Definition addThree (a b c : str) : str :=
  js "@@ -0,0 +1,3 @@" ++ LF :: js "+" ++ a ++ LF :: js "+" ++ b
    ++ LF :: js "+" ++ c.

(** The delete line for the text [t]. *)
Definition deleteLine (t : str) : diffLine := {| type := delete; content := t |}.

(** [applyUnifiedDiff] from the lines of its two inputs on. *)
Definition applyLines (originalLines diffLines : list str) : outcome str :=
  hunks <- parseUnifiedDiffHunks diffLines ;;
  _ <- validateAll originalLines hunks strict ;;
  Ret (join [LF] (applyAll (map Some originalLines) hunks)).

(** ** Notions for the properties beyond the claims *)

(** [s.includes(p)]. *)
Fixpoint includes (s p : str) : bool :=
  startsWith s p
  || match s with
     | [] => false
     | _ :: rest => includes rest p
     end.

(** A line of the diff that opens a hunk, and one that goes into the
    current hunk. *)
Definition isMarker (line : str) : bool := startsWith line (js "@@").

Definition isContentLine (line : str) : bool :=
  startsWith line (js " ") || startsWith line (js "-")
  || startsWith line (js "+").

(** The texts a hunk expects in the original (context and delete lines) and
    those it leaves in the result (context and add lines), in order. *)
Definition oldTexts (ls : list diffLine) : list str :=
  map content (filter consumes ls).

Definition newTexts (ls : list diffLine) : list str :=
  map content (filter emits ls).

(** The add line for the text [t]. *)
Definition addLine (t : str) : diffLine := {| type := add; content := t |}.

(** The hunk that undoes [h] where [h] wrote: deletes become adds and adds
    become deletes. *)
Definition flipLine (line : diffLine) : diffLine :=
  {| type := match type line with
             | context => context
             | delete => add
             | add => delete
             end;
     content := content line |}.

Definition inverseHunk (h : hunk) : hunk :=
  {| oldStart := Z.of_nat (startOf h); oldCount := newCount h;
     newStart := Z.of_nat (startOf h); newCount := oldCount h;
     lines := map flipLine (lines h) |}.

(** No LF in a line. *)
Definition noLF (s : str) : bool := forallb (fun c => negb (N.eqb c LF)) s.

(** The first hunk of [growThenShrink]. *)
Definition growHunk : hunk :=
  {| oldStart := 0; oldCount := 2; newStart := 0; newCount := 3;
     lines := [ {| type := delete; content := js "line1" |};
                {| type := add; content := js "one" |};
                {| type := add; content := js "uno" |};
                {| type := context; content := js "line2" |} ] |}.

(** A hunk of two context lines, at line 2. *)
Definition contextHunk : hunk :=
  {| oldStart := 1; oldCount := 2; newStart := 1; newCount := 2;
     lines := [ {| type := context; content := js "anything" |};
                {| type := context; content := js "at all" |} ] |}.

(** A hunk that adds one line, placed three lines past the end of
    [fiveLines]. *)
Definition farHunk : hunk :=
  {| oldStart := 8; oldCount := 0; newStart := 8; newCount := 1;
     lines := [addLine (js "far")] |}.

(** [h] with the lines [ls] pushed onto it, one after the other. *)
Definition pushLines (h : hunk) (ls : list diffLine) : hunk :=
  {| oldStart := oldStart h; oldCount := oldCount h;
     newStart := newStart h; newCount := newCount h;
     lines := lines h ++ ls |}.

(** The numbers of a hunk are those of a header: a start is a header number
    minus one, a count is a header number. *)
Definition headerNumbers (h : hunk) : Prop :=
  (-1 <= oldStart h)%Z /\ (0 <= oldCount h)%Z
  /\ (-1 <= newStart h)%Z /\ (0 <= newCount h)%Z.

(** * The agent state machine

    [src/app/lib/services/templateLoader.ts], from [AgentState] on: the
    store, [canTransition], [processEvent], [updatePlanStep],
    [updateSettings] and the two computed stores. The store is passed
    explicitly. What the machine stores and never reads is of a type that is
    left open: the complexity ([Number]), the [Error] of a failed execution,
    the [Date] of a history entry, the fields of a plan besides its steps
    ([PlanInfo]: id, title, description, estimatedComplexity, createdAt,
    metadata) and the fields of a step besides id, description and status
    ([StepInfo]). [new Date()] is the argument [now]. The copy that
    [saveStateToStorage] writes to [localStorage], inside [try]/[catch], is
    read by none of these functions and is not part of the model. *)

Module AgentState.

Local Set Implicit Arguments.
Local Set Contextual Implicit.

Inductive AgentState :=
| IDLE | ANALYZING | PLANNING | AWAITING_APPROVAL | EXECUTING | DEBUGGING
| COMPLETED.

Definition AgentState_eqb (a b : AgentState) : bool :=
  match a, b with
  | IDLE, IDLE | ANALYZING, ANALYZING | PLANNING, PLANNING
  | AWAITING_APPROVAL, AWAITING_APPROVAL | EXECUTING, EXECUTING
  | DEBUGGING, DEBUGGING | COMPLETED, COMPLETED => true
  | _, _ => false
  end.

(** ['pending' | 'in_progress' | 'completed' | 'failed']. *)
Inductive StepStatus := pending | in_progress | completed | failed.

Definition isCompleted (s : StepStatus) : bool :=
  match s with completed => true | _ => false end.

Section Store.

Variables Number JsError JsDate PlanInfo StepInfo : Type.

Record PlanStep := {
  id : str;
  description : str;
  status : StepStatus;
  stepInfo : StepInfo
}.

Record ExecutionPlan := {
  steps : list PlanStep;
  planInfo : PlanInfo
}.

Inductive StateTransitionEvent :=
| USER_MESSAGE (complexity : option Number)
| COMPLEXITY_ANALYZED (complexity : Number) (requiresPlanning : bool)
| PLAN_GENERATED (plan : ExecutionPlan)
| PLAN_APPROVED
| PLAN_REJECTED
| EXECUTION_STARTED
| EXECUTION_ERROR (error : JsError)
| EXECUTION_COMPLETED
| RESET.

Record Progress := {
  currentStepIndex : Z;
  completedSteps : Z;
  totalSteps : Z;
  percentComplete : Z
}.

Record HistoryEntry := {
  state : AgentState;
  timestamp : JsDate;
  event : option StateTransitionEvent
}.

Record Settings := {
  autoPlanning : bool;
  complexityThreshold : Number;
  debugMode : bool
}.

Record AgentStateStore := {
  currentState : AgentState;
  previousState : option AgentState;
  currentPlan : option ExecutionPlan;
  executionProgress : Progress;
  messageComplexity : option Number;
  error : option JsError;
  stateHistory : list HistoryEntry;
  settings : Settings
}.

(** [DEFAULT_STATE.executionProgress]. *)
Definition defaultProgress : Progress :=
  {| currentStepIndex := 0; completedSteps := 0; totalSteps := 0;
     percentComplete := 0 |}.

(** [DEFAULT_STATE], given its [complexityThreshold], the number [5]. *)
Definition DEFAULT_STATE (five : Number) : AgentStateStore :=
  {| currentState := IDLE; previousState := None; currentPlan := None;
     executionProgress := defaultProgress; messageComplexity := None;
     error := None; stateHistory := [];
     settings := {| autoPlanning := true; complexityThreshold := five;
                    debugMode := false |} |}.

(** [isAgentBusy] and [needsPlanApproval]. *)
Definition isAgentBusy (s : AgentStateStore) : bool :=
  existsb (AgentState_eqb (currentState s))
    [ANALYZING; PLANNING; EXECUTING; DEBUGGING].

Definition needsPlanApproval (s : AgentStateStore) : bool :=
  AgentState_eqb (currentState s) AWAITING_APPROVAL
  && match currentPlan s with Some _ => true | None => false end.

(** [validTransitions[from]?.includes(to) ?? false]. *)
Definition validTransitions (from : AgentState) : list AgentState :=
  match from with
  | IDLE => [ANALYZING]
  | ANALYZING => [PLANNING; EXECUTING; IDLE]
  | PLANNING => [AWAITING_APPROVAL; EXECUTING; IDLE]
  | AWAITING_APPROVAL => [EXECUTING; PLANNING; IDLE]
  | EXECUTING => [COMPLETED; DEBUGGING; IDLE]
  | DEBUGGING => [PLANNING; EXECUTING; IDLE]
  | COMPLETED => [IDLE]
  end.

Definition canTransition (from to : AgentState) : bool :=
  existsb (AgentState_eqb to) (validTransitions from).

(** [updates: Partial<AgentStateStore>]: the keys [processEvent] sets, each
    absent ([None]) or set to a value. *)
Record Updates := {
  uMessageComplexity : option (option Number);
  uError : option (option JsError);
  uCurrentPlan : option (option ExecutionPlan);
  uExecutionProgress : option Progress
}.

Definition noUpdates : Updates :=
  {| uMessageComplexity := None; uError := None; uCurrentPlan := None;
     uExecutionProgress := None |}.

(** [Object.keys(updates).length > 0]. *)
Definition hasKeys (u : Updates) : bool :=
  match uMessageComplexity u, uError u, uCurrentPlan u, uExecutionProgress u with
  | None, None, None, None => false
  | _, _, _, _ => true
  end.

Definition orKeep {A} (u : option A) (old : A) : A :=
  match u with Some v => v | None => old end.

(** [{ ...state, ...updates }]. *)
Definition withUpdates (s : AgentStateStore) (u : Updates) : AgentStateStore :=
  {| currentState := currentState s;
     previousState := previousState s;
     currentPlan := orKeep (uCurrentPlan u) (currentPlan s);
     executionProgress := orKeep (uExecutionProgress u) (executionProgress s);
     messageComplexity := orKeep (uMessageComplexity u) (messageComplexity s);
     error := orKeep (uError u) (error s);
     stateHistory := stateHistory s;
     settings := settings s |}.

(** The [switch] of [processEvent]: the new state and the updates, or
    [None] where the function returns at once. *)
Definition eventEffect (ev : StateTransitionEvent) (s : AgentStateStore)
    : option (AgentState * Updates) :=
  match ev with
  | USER_MESSAGE _ =>
      match currentState s with
      | IDLE =>
          Some (ANALYZING,
                {| uMessageComplexity := Some None; uError := Some None;
                   uCurrentPlan := None; uExecutionProgress := None |})
      | _ => Some (currentState s, noUpdates)
      end
  | COMPLEXITY_ANALYZED complexity requiresPlanning =>
      match currentState s with
      | ANALYZING | IDLE =>
          Some (if requiresPlanning && autoPlanning (settings s)
                then PLANNING else EXECUTING,
                {| uMessageComplexity := Some (Some complexity);
                   uError := None; uCurrentPlan := None;
                   uExecutionProgress := None |})
      | _ => None
      end
  | PLAN_GENERATED plan =>
      match currentState s with
      | PLANNING =>
          Some (AWAITING_APPROVAL,
                {| uMessageComplexity := None; uError := None;
                   uCurrentPlan := Some (Some plan);
                   uExecutionProgress :=
                     Some {| currentStepIndex := 0; completedSteps := 0;
                             totalSteps := Z.of_nat (length (steps plan));
                             percentComplete := 0 |} |})
      | _ => Some (currentState s, noUpdates)
      end
  | PLAN_APPROVED =>
      match currentState s with
      | AWAITING_APPROVAL => Some (EXECUTING, noUpdates)
      | _ => Some (currentState s, noUpdates)
      end
  | PLAN_REJECTED =>
      match currentState s with
      | AWAITING_APPROVAL =>
          Some (IDLE,
                {| uMessageComplexity := None; uError := None;
                   uCurrentPlan := Some None; uExecutionProgress := None |})
      | _ => Some (currentState s, noUpdates)
      end
  | EXECUTION_STARTED =>
      match currentState s with
      | PLANNING | ANALYZING => Some (EXECUTING, noUpdates)
      | _ => Some (currentState s, noUpdates)
      end
  | EXECUTION_ERROR err =>
      match currentState s with
      | EXECUTING =>
          Some (DEBUGGING,
                {| uMessageComplexity := None; uError := Some (Some err);
                   uCurrentPlan := None; uExecutionProgress := None |})
      | _ => Some (currentState s, noUpdates)
      end
  | EXECUTION_COMPLETED =>
      match currentState s with
      | EXECUTING =>
          Some (COMPLETED,
                {| uMessageComplexity := None; uError := None;
                   uCurrentPlan := None;
                   uExecutionProgress :=
                     Some {| currentStepIndex :=
                               currentStepIndex (executionProgress s);
                             completedSteps := totalSteps (executionProgress s);
                             totalSteps := totalSteps (executionProgress s);
                             percentComplete := 100 |} |})
      | _ => Some (currentState s, noUpdates)
      end
  | RESET =>
      Some (IDLE,
            {| uMessageComplexity := Some None; uError := Some None;
               uCurrentPlan := Some None;
               uExecutionProgress := Some defaultProgress |})
  end.

(** [processEvent(event)], on the store [s], at the time [now]. *)
Definition processEvent (now : JsDate) (ev : StateTransitionEvent)
    (s : AgentStateStore) : AgentStateStore :=
  match eventEffect ev s with
  | None => s
  | Some (newState, updates) =>
      if negb (AgentState_eqb newState (currentState s)) then
        if canTransition (currentState s) newState then
          let u := withUpdates s updates in
          {| currentState := newState;
             previousState := Some (currentState s);
             currentPlan := currentPlan u;
             executionProgress := executionProgress u;
             messageComplexity := messageComplexity u;
             error := error u;
             stateHistory :=
               stateHistory s
                 ++ [{| state := newState; timestamp := now; event := Some ev |}];
             settings := settings s |}
        else s
      else if hasKeys updates then withUpdates s updates
      else s
  end.

(** [resetAgentState()]. *)
Definition resetAgentState (now : JsDate) (s : AgentStateStore)
    : AgentStateStore :=
  processEvent now RESET s.

(** [updates: Partial<PlanStep>]: the keys that are set; [uStepInfo] is what
    the spread does to the other fields of the step. *)
Record StepUpdates := {
  uId : option str;
  uDescription : option str;
  uStatus : option StepStatus;
  uStepInfo : StepInfo -> StepInfo
}.

(** [{ ...step, ...updates }]. *)
Definition withStepUpdates (st : PlanStep) (u : StepUpdates) : PlanStep :=
  {| id := orKeep (uId u) (id st);
     description := orKeep (uDescription u) (description st);
     status := orKeep (uStatus u) (status st);
     stepInfo := uStepInfo u (stepInfo st) |}.

(** [steps.findIndex((s) => s.id === stepId)], [None] for [-1]. *)
Fixpoint findIndex (stepId : str) (l : list PlanStep) : option nat :=
  match l with
  | [] => None
  | st :: rest =>
      if str_eqb (id st) stepId then Some 0
      else match findIndex stepId rest with
           | Some i => Some (S i)
           | None => None
           end
  end.

(** [updatedSteps[stepIndex] = v] on a copy, for an index within the array. *)
Fixpoint setAt {A} (l : list A) (i : nat) (v : A) : list A :=
  match l, i with
  | [], _ => []
  | _ :: rest, O => v :: rest
  | x :: rest, S i' => x :: setAt rest i' v
  end.

(** [updatePlanStep(stepId, updates)]; [roundPercent c n] is
    [Math.round((c / n) * 100)]. *)
Definition updatePlanStep (roundPercent : nat -> nat -> Z) (stepId : str)
    (u : StepUpdates) (s : AgentStateStore) : AgentStateStore :=
  match currentPlan s with
  | None => s
  | Some plan =>
      match findIndex stepId (steps plan) with
      | None => s
      | Some stepIndex =>
          match nth_error (steps plan) stepIndex with
          | None => s
          | Some old =>
              let updatedSteps :=
                setAt (steps plan) stepIndex (withStepUpdates old u) in
              let completed :=
                length (filter (fun st => isCompleted (status st)) updatedSteps) in
              {| currentState := currentState s;
                 previousState := previousState s;
                 currentPlan :=
                   Some {| steps := updatedSteps; planInfo := planInfo plan |};
                 executionProgress :=
                   {| currentStepIndex := Z.of_nat stepIndex;
                      completedSteps := Z.of_nat completed;
                      totalSteps := totalSteps (executionProgress s);
                      percentComplete :=
                        roundPercent completed (length updatedSteps) |};
                 messageComplexity := messageComplexity s;
                 error := error s;
                 stateHistory := stateHistory s;
                 settings := settings s |}
          end
      end
  end.

(** [settings: Partial<AgentStateStore['settings']>]. *)
Record SettingsUpdates := {
  uAutoPlanning : option bool;
  uComplexityThreshold : option Number;
  uDebugMode : option bool
}.

(** [updateSettings(settings)]. *)
Definition updateSettings (u : SettingsUpdates) (s : AgentStateStore)
    : AgentStateStore :=
  {| currentState := currentState s;
     previousState := previousState s;
     currentPlan := currentPlan s;
     executionProgress := executionProgress s;
     messageComplexity := messageComplexity s;
     error := error s;
     stateHistory := stateHistory s;
     settings :=
       {| autoPlanning := orKeep (uAutoPlanning u) (autoPlanning (settings s));
          complexityThreshold :=
            orKeep (uComplexityThreshold u) (complexityThreshold (settings s));
          debugMode := orKeep (uDebugMode u) (debugMode (settings s)) |} |}.

(** What the exported functions do to the store. *)
Inductive Operation :=
| OpEvent (now : JsDate) (ev : StateTransitionEvent)
| OpUpdatePlanStep (roundPercent : nat -> nat -> Z) (stepId : str)
    (u : StepUpdates)
| OpUpdateSettings (u : SettingsUpdates).

Definition run (op : Operation) (s : AgentStateStore) : AgentStateStore :=
  match op with
  | OpEvent now ev => processEvent now ev s
  | OpUpdatePlanStep roundPercent stepId u =>
      updatePlanStep roundPercent stepId u s
  | OpUpdateSettings u => updateSettings u s
  end.

(** The stores a session reaches from [DEFAULT_STATE]. *)
Definition runAll (ops : list Operation) (s : AgentStateStore)
    : AgentStateStore :=
  fold_left (fun acc op => run op acc) ops s.

(** Two invariants of the stores a session reaches: while the machine
    awaits approval there is a plan; and the last entry of the history names
    the current state (without any entry the machine is [IDLE] and has no
    previous state). *)
Definition planWhenAwaiting (s : AgentStateStore) : Prop :=
  currentState s = AWAITING_APPROVAL -> currentPlan s <> None.

Definition historyEndsHere (s : AgentStateStore) : Prop :=
  match rev (stateHistory s) with
  | [] => currentState s = IDLE /\ previousState s = None
  | last :: _ => state last = currentState s
  end.

End Store.

End AgentState.

(** A store of the agent state machine in the state [COMPLETED], with every
    open type taken as [unit]. *)
Definition completedStore : AgentState.AgentStateStore unit unit unit unit unit :=
  AgentState.Build_AgentStateStore AgentState.COMPLETED
    (Some AgentState.EXECUTING) None AgentState.defaultProgress None None []
    (AgentState.Build_Settings true tt false).

(** * The onboarding store

    [src/app/lib/stores/onboarding.ts]: the state and the functions that
    only touch the store ([startOnboarding], [nextStep], [previousStep],
    [saveResponse], [generateProjectContext]). The store is passed
    explicitly and [new Date()] is the argument [now]. [progress] is a
    floating-point number: its type is left open, [zero] is the number [0]
    and [stepProgress newStep totalSteps] is
    [((newStep - 1) / totalSteps) * 100]. *)

Module Onboarding.

Local Set Implicit Arguments.
Local Set Contextual Implicit.

Section Store.

Variables Number JsDate : Type.
Variable zero : Number.
Variable stepProgress : Z -> Z -> Number.

Record OnboardingResponse := {
  stepId : str;
  question : str;
  answer : str;
  timestamp : JsDate
}.

Record OnboardingState := {
  isActive : bool;
  currentStep : Z;
  totalSteps : Z;
  responses : list OnboardingResponse;
  progress : Number;
  isComplete : bool
}.

Definition initialState : OnboardingState :=
  {| isActive := false; currentStep := 0; totalSteps := 8; responses := [];
     progress := zero; isComplete := false |}.

(** [startOnboarding()]: the store is set, whatever it held. *)
Definition startOnboarding (_ : OnboardingState) : OnboardingState :=
  {| isActive := true; currentStep := 1; totalSteps := totalSteps initialState;
     responses := responses initialState; progress := progress initialState;
     isComplete := isComplete initialState |}.

(** The store with another step and the progress that goes with it. *)
Definition atStep (state : OnboardingState) (newStep : Z) : OnboardingState :=
  {| isActive := isActive state; currentStep := newStep;
     totalSteps := totalSteps state; responses := responses state;
     progress := stepProgress newStep (totalSteps state);
     isComplete := isComplete state |}.

Definition nextStep (state : OnboardingState) : OnboardingState :=
  if (currentStep state <? totalSteps state)%Z
  then atStep state (currentStep state + 1)
  else state.

Definition previousStep (state : OnboardingState) : OnboardingState :=
  if (currentStep state >? 1)%Z
  then atStep state (currentStep state - 1)
  else state.

(** [responses.findIndex((r) => r.stepId === stepId)], [None] for [-1]. *)
Fixpoint findIndex (id : str) (l : list OnboardingResponse) : option nat :=
  match l with
  | [] => None
  | r :: rest =>
      if str_eqb (stepId r) id then Some 0
      else match findIndex id rest with
           | Some i => Some (S i)
           | None => None
           end
  end.

(** [a[i] = v] on a copy, for an index within the array. *)
Fixpoint setAt {A} (l : list A) (i : nat) (v : A) : list A :=
  match l, i with
  | [], _ => []
  | _ :: rest, O => v :: rest
  | x :: rest, S i' => x :: setAt rest i' v
  end.

Definition saveResponse (now : JsDate) (id q a : str) (state : OnboardingState)
    : OnboardingState :=
  let newResponse :=
    {| stepId := id; question := q; answer := a; timestamp := now |} in
  let updatedResponses :=
    match findIndex id (responses state) with
    | Some existingResponseIndex =>
        setAt (responses state) existingResponseIndex newResponse
    | None => responses state ++ [newResponse]
    end in
  {| isActive := isActive state; currentStep := currentStep state;
     totalSteps := totalSteps state; responses := updatedResponses;
     progress := progress state; isComplete := isComplete state |}.

(** The first response of a step in the array (what [find] with the test of
    [saveResponse] gives): a notion for the statements. *)
Definition findResponse (id : str) (l : list OnboardingResponse)
    : option OnboardingResponse :=
  find (fun r => str_eqb (stepId r) id) l.

(** [`${r.question}\n${r.answer}`]. *)
Definition responseText (r : OnboardingResponse) : str :=
  question r ++ [LF] ++ answer r.

Definition generateProjectContext (state : OnboardingState) : str :=
  match responses state with
  | [] => []
  | _ :: _ =>
      js "Project Context from Onboarding:" ++ [LF; LF]
        ++ join [LF; LF] (map (fun r => Some (responseText r)) (responses state))
  end.

End Store.

End Onboarding.

(** * The message interceptor

    The class [MessageInterceptorService] of
    [src/app/lib/services/messageInterceptor.ts]. The rule table
    [this._rules] is passed explicitly. A regular expression is taken by what
    the service uses of it: its text ([toString]) and the result of
    [message.match]; a match array is the list of its entries.
    [toLowerCase], which follows the Unicode tables, is left open. The id
    that [addRule] builds from [Date.now()] and [Math.random()] is
    ["custom-"] followed by the argument [stamp]. *)

Module Interceptor.

Local Set Implicit Arguments.
Local Set Contextual Implicit.

(** ['bypass' | 'transform' | 'route']. *)
Inductive Action := bypass | transform | route.

(** The values the service puts into [metadata]. *)
Inductive MetaValue := MStr (s : str) | MBool (b : bool).

Definition Matches := list (option str).

Record RegExp := {
  reToString : str;
  reMatch : str -> option Matches
}.

Inductive Pattern := PRegExp (re : RegExp) | PString (s : str).

Record InterceptResult := {
  intercepted : bool;
  response : option str;
  shouldBypassAI : option bool;
  transformedMessage : option str;
  metadata : option (list (str * MetaValue))
}.

(** [InterceptRule]; its field [response] is [ruleResponse] here. *)
Record InterceptRule := {
  id : str;
  pattern : Pattern;
  action : Action;
  ruleResponse : option str;
  handler : option (str -> option Matches -> InterceptResult);
  enabled : bool;
  description : str
}.

(** [{ intercepted: false }]. *)
Definition notIntercepted : InterceptResult :=
  {| intercepted := false; response := None; shouldBypassAI := None;
     transformedMessage := None; metadata := None |}.

(** [x || d] for an optional string: the empty string is falsy. *)
Definition orDefault (x : option str) (d : str) : str :=
  match x with
  | Some (c :: s) => c :: s
  | _ => d
  end.

Definition patternToString (p : Pattern) : str :=
  match p with
  | PRegExp re => reToString re
  | PString s => s
  end.

Section Service.

Variable toLowerCase : str -> str.

(** [matches] and [isMatch] of the loop of [intercept]. *)
Definition matchRule (rule : InterceptRule) (trimmedMessage : str)
    : option Matches * bool :=
  match pattern rule with
  | PRegExp re =>
      let matches := reMatch re trimmedMessage in
      (matches, match matches with Some _ => true | None => false end)
  | PString p =>
      (None, includes (toLowerCase trimmedMessage) (toLowerCase p))
  end.

(** What a rule that matches returns. *)
Definition answer (rule : InterceptRule) (trimmedMessage : str)
    (matches : option Matches) : InterceptResult :=
  match handler rule with
  | Some h => h trimmedMessage matches
  | None =>
      match action rule with
      | bypass =>
          {| intercepted := true; shouldBypassAI := Some true;
             response := Some (orDefault (ruleResponse rule) (js "Command executed."));
             transformedMessage := None;
             metadata :=
               Some [(js "ruleId", MStr (id rule));
                     (js "pattern", MStr (patternToString (pattern rule)))] |}
      | transform =>
          {| intercepted := true; shouldBypassAI := Some false;
             response := None;
             transformedMessage :=
               Some (orDefault (ruleResponse rule) trimmedMessage);
             metadata :=
               Some [(js "ruleId", MStr (id rule));
                     (js "originalMessage", MStr trimmedMessage)] |}
      | route =>
          {| intercepted := true; shouldBypassAI := Some true;
             response := Some (orDefault (ruleResponse rule) (js "Routing command..."));
             transformedMessage := None;
             metadata :=
               Some [(js "ruleId", MStr (id rule));
                     (js "action", MStr (js "route"))] |}
      end
  end.

(** The loop over [this._rules]. *)
Fixpoint interceptLoop (rules : list InterceptRule) (trimmedMessage : str)
    : InterceptResult :=
  match rules with
  | [] => notIntercepted
  | rule :: rest =>
      if negb (enabled rule) then interceptLoop rest trimmedMessage
      else
        let (matches, isMatch) := matchRule rule trimmedMessage in
        if isMatch then answer rule trimmedMessage matches
        else interceptLoop rest trimmedMessage
  end.

(** [intercept(message)]: the empty string is falsy. *)
Definition intercept (rules : list InterceptRule) (message : str)
    : InterceptResult :=
  match message with
  | [] => notIntercepted
  | _ :: _ => interceptLoop rules (trim message)
  end.

End Service.

(** [addRule(rule)]: the new table and the id. *)
Definition withId (rule : InterceptRule) (newId : str) : InterceptRule :=
  {| id := newId; pattern := pattern rule; action := action rule;
     ruleResponse := ruleResponse rule; handler := handler rule;
     enabled := enabled rule; description := description rule |}.

Definition addRule (stamp : str) (rule : InterceptRule)
    (rules : list InterceptRule) : list InterceptRule * str :=
  let newId := js "custom-" ++ stamp in
  (rules ++ [withId rule newId], newId).

(** [removeRule(id)]: the new table and whether a rule went. *)
Definition removeRule (ruleId : str) (rules : list InterceptRule)
    : list InterceptRule * bool :=
  let kept := filter (fun rule => negb (str_eqb (id rule) ruleId)) rules in
  (kept, Nat.ltb (length kept) (length rules)).

Definition withEnabled (rule : InterceptRule) (b : bool) : InterceptRule :=
  {| id := id rule; pattern := pattern rule; action := action rule;
     ruleResponse := ruleResponse rule; handler := handler rule;
     enabled := b; description := description rule |}.

(** [toggleRule(id, enabled?)]: [find] gives the first rule with the id,
    which is changed in place. *)
Fixpoint toggleRule (ruleId : str) (newEnabled : option bool)
    (rules : list InterceptRule) : list InterceptRule * bool :=
  match rules with
  | [] => ([], false)
  | rule :: rest =>
      if str_eqb (id rule) ruleId then
        (withEnabled rule
           (match newEnabled with
            | Some b => b
            | None => negb (enabled rule)
            end) :: rest, true)
      else
        let (rest', found) := toggleRule ruleId newEnabled rest in
        (rule :: rest', found)
  end.

(** [getEnabledRules()]. *)
Definition getEnabledRules (rules : list InterceptRule) : list InterceptRule :=
  filter enabled rules.

(** [updates: Partial<InterceptRule>]: the keys that are set. *)
Record RuleUpdates := {
  uId : option str;
  uPattern : option Pattern;
  uAction : option Action;
  uRuleResponse : option (option str);
  uHandler : option (option (str -> option Matches -> InterceptResult));
  uEnabled : option bool;
  uDescription : option str
}.

Definition orKeep {A} (u : option A) (old : A) : A :=
  match u with Some v => v | None => old end.

(** [{ ...rule, ...updates, id }]. *)
Definition withUpdates (rule : InterceptRule) (u : RuleUpdates) (ruleId : str)
    : InterceptRule :=
  {| id := ruleId;
     pattern := orKeep (uPattern u) (pattern rule);
     action := orKeep (uAction u) (action rule);
     ruleResponse := orKeep (uRuleResponse u) (ruleResponse rule);
     handler := orKeep (uHandler u) (handler rule);
     enabled := orKeep (uEnabled u) (enabled rule);
     description := orKeep (uDescription u) (description rule) |}.

(** [updateRule(id, updates)]: [findIndex] gives the first rule with the
    id. *)
Fixpoint updateRule (ruleId : str) (u : RuleUpdates)
    (rules : list InterceptRule) : list InterceptRule * bool :=
  match rules with
  | [] => ([], false)
  | rule :: rest =>
      if str_eqb (id rule) ruleId then (withUpdates rule u ruleId :: rest, true)
      else
        let (rest', found) := updateRule ruleId u rest in
        (rule :: rest', found)
  end.

(** [clearCustomRules()]. *)
Definition clearCustomRules (rules : list InterceptRule) : list InterceptRule :=
  filter (fun rule => negb (startsWith (id rule) (js "custom-"))) rules.

(** ** The default rules

    Each pattern is [/^\/<name>$/i]. Without the [u] flag a character of the
    message matches a letter of the pattern when its upper case is that of
    the letter, and a character outside ASCII never stands for an ASCII
    one; [^] and [$] are the two ends of the message. So the pattern matches
    the messages that are the command up to the case of ASCII letters. *)

Definition asciiUpper (c : char) : char :=
  if N.leb 97 c && N.leb c 122 then (c - 32)%N else c.

Definition sameCommand (s cmd : str) : bool :=
  str_eqb (map asciiUpper s) (map asciiUpper cmd).

Definition commandPattern (cmd : str) : Pattern :=
  PRegExp
    {| reToString := js "/^\" ++ cmd ++ js "$/i";
       reMatch := fun s => if sameCommand s cmd then Some [Some s] else None |}.

Definition helpText : str :=
  js (String.concat (String (ascii_of_nat 10) EmptyString)
        ["# Nexa Help"; "";
         "Available commands:";
         "- `/help` - Show this help message";
         "- `/status` - Show system status";
         "- `/clear` - Clear chat history";
         "- `/version` - Show version information"; "";
         "You can also chat normally with AI or use build mode to create applications."]).

Definition versionText : str :=
  js (String.concat (String (ascii_of_nat 10) EmptyString)
        ["# Nexa Version Information"; "";
         "**Platform:** Nexa AI Development Environment";
         "**Base:** WebContainer Runtime";
         "**Features:**";
         "- AI-powered development";
         "- Real-time collaboration";
         "- Multi-provider AI support";
         "- Supabase integration"; "";
         "For more information, visit the documentation."]).

(** The four rules of [_initializeDefaultRules]; [statusText] is the text the
    status handler builds from the clock and the memory counters when it is
    called. *)
Definition defaultRules (statusText : str) : list InterceptRule :=
  [ {| id := js "help-command"; pattern := commandPattern (js "/help");
       action := bypass; ruleResponse := Some helpText; handler := None;
       enabled := true; description := js "Show help information" |};
    {| id := js "status-command"; pattern := commandPattern (js "/status");
       action := bypass; ruleResponse := None;
       handler :=
         Some (fun _ _ =>
                 {| intercepted := true; shouldBypassAI := Some true;
                    response := Some statusText; transformedMessage := None;
                    metadata := None |});
       enabled := true; description := js "Show system status" |};
    {| id := js "clear-command"; pattern := commandPattern (js "/clear");
       action := bypass;
       ruleResponse :=
         Some (js "Chat history cleared. You can start a fresh conversation.");
       handler :=
         Some (fun _ _ =>
                 {| intercepted := true; shouldBypassAI := Some true;
                    response := Some (js "Chat history will be cleared.");
                    transformedMessage := None;
                    metadata := Some [(js "clearHistory", MBool true)] |});
       enabled := true; description := js "Clear chat history" |};
    {| id := js "version-command"; pattern := commandPattern (js "/version");
       action := bypass; ruleResponse := Some versionText; handler := None;
       enabled := true; description := js "Show version information" |} ].

(** [resetToDefaults()]. *)
Definition resetToDefaults (statusText : str) (_ : list InterceptRule)
    : list InterceptRule :=
  defaultRules statusText.

End Interceptor.

(** ** The scenarios of the test suite *)

Definition nl : string := String (ascii_of_nat 10) EmptyString.
Definition cr : string := String (ascii_of_nat 13) EmptyString.
Definition tab : string := String (ascii_of_nat 9) EmptyString.

(** The lines of a text, joined by LF. *)
Definition text (ls : list string) : str := js (String.concat nl ls).
(** The same lines, joined by CRLF. *)
Definition textCRLF (ls : list string) : str := js (String.concat (String.append cr nl) ls).

(** The double quotes of the first scenario are single quotes here; no
    step of the engine looks at them. *)
Example test_single_line_change :
  applyUnifiedDiff
    (text ["function hello() {"; "  console.log('hello');"; "  return true;"; "}"])
    (text ["@@ -1,4 +1,4 @@"; " function hello() {"; "-  console.log('hello');";
           "+  console.log('world');"; "   return true;"; " }"])
  = Ret (text ["function hello() {"; "  console.log('world');"; "  return true;"; "}"]).
Proof. vm_compute. reflexivity. Qed.

Example test_multiple_hunks :
  applyUnifiedDiff
    (text ["line1"; "line2"; "line3"; "line4"; "line5"])
    (text ["@@ -1,2 +1,2 @@"; "-line1"; "+modified1"; " line2";
           "@@ -4,2 +4,2 @@"; " line4"; "-line5"; "+modified5"])
  = Ret (text ["modified1"; "line2"; "line3"; "line4"; "modified5"]).
Proof. vm_compute. reflexivity. Qed.

Example test_crlf_original :
  applyUnifiedDiff
    (textCRLF ["line1"; "line2"; "line3"])
    (text ["@@ -1,3 +1,3 @@"; " line1"; "-line2"; "+modified2"; " line3"])
  = Ret (text ["line1"; "modified2"; "line3"]).
Proof. vm_compute. reflexivity. Qed.

Example test_crlf_diff :
  applyUnifiedDiff
    (text ["line1"; "line2"; "line3"])
    (textCRLF ["@@ -1,3 +1,3 @@"; " line1"; "-line2"; "+modified2"; " line3"])
  = Ret (text ["line1"; "modified2"; "line3"]).
Proof. vm_compute. reflexivity. Qed.

Example test_trailing_whitespace :
  applyUnifiedDiff
    (text ["  function test() {  "; "    return true;"; "  }"])
    (text ["@@ -1,3 +1,3 @@"; "   function test() {"; "-    return true;";
           "+    return false;"; "   }"])
  = Ret (text ["  function test() {  "; "    return false;"; "  }"]).
Proof. vm_compute. reflexivity. Qed.

Example test_adding_at_end :
  applyUnifiedDiff
    (text ["line1"; "line2"])
    (text ["@@ -1,2 +1,4 @@"; " line1"; " line2"; "+line3"; "+line4"])
  = Ret (text ["line1"; "line2"; "line3"; "line4"]).
Proof. vm_compute. reflexivity. Qed.

Example test_adding_at_beginning :
  applyUnifiedDiff
    (text ["line2"; "line3"])
    (text ["@@ -1,2 +1,4 @@"; "+line0"; "+line1"; " line2"; " line3"])
  = Ret (text ["line0"; "line1"; "line2"; "line3"]).
Proof. vm_compute. reflexivity. Qed.

Example test_invalid_header :
  applyUnifiedDiff (text ["line1"]) (text ["@@ invalid header @@"; "-line1"; "+line2"])
  = Throw (MalformedHunkHeader (js "@@ invalid header @@")).
Proof. vm_compute. reflexivity. Qed.

Example test_context_mismatch :
  applyUnifiedDiff
    (text ["line1"; "line2"; "line3"])
    (text ["@@ -1,3 +1,3 @@"; " line1"; "-wrong_line"; "+modified"; " line3"])
  = Throw (HunkValidationFailed 1).
Proof. vm_compute. reflexivity. Qed.

Example test_normalized_validation :
  applyUnifiedDiff
    (text ["  line1  "; "line2"; "  line3"])
    (text ["@@ -1,3 +1,3 @@"; " line1"; "-line2"; "+modified"; " line3"])
  = Ret (text ["  line1  "; "modified"; "  line3"]).
Proof. vm_compute. reflexivity. Qed.

(** * Strings: equality, split and join *)

Lemma str_eqb_eq (a b : str) : str_eqb a b = true <-> a = b.
Proof.
  revert b; induction a as [|x a IH]; intros [|y b]; simpl; split;
    try congruence; try reflexivity.
  - intros H. apply andb_true_iff in H as [Hx Hab].
    apply N.eqb_eq in Hx. apply IH in Hab. congruence.
  - intros H. injection H as -> ->. rewrite N.eqb_refl. simpl. now apply IH.
Qed.

Lemma str_eqb_refl (a : str) : str_eqb a a = true.
Proof. now apply str_eqb_eq. Qed.

Lemma split_not_nil (sep : char) (s : str) : split sep s <> [].
Proof.
  destruct s as [|c rest]; simpl; [discriminate|].
  destruct (N.eqb c sep); [discriminate|].
  destruct (split sep rest); discriminate.
Qed.

(** [s.split(sep).join(sep)] gives [s] back. *)
Lemma join_split (sep : char) (s : str) :
  join [sep] (map Some (split sep s)) = s.
Proof.
  induction s as [|c rest IH]; [reflexivity|].
  simpl. destruct (N.eqb c sep) eqn:E.
  - apply N.eqb_eq in E. subst c.
    pose proof (split_not_nil sep rest) as Hne.
    destruct (split sep rest) as [|l ls] eqn:Es; [contradiction|].
    change (map Some ([] :: l :: ls)) with (Some [] :: map Some (l :: ls)).
    simpl join. simpl in IH. now rewrite IH.
  - pose proof (split_not_nil sep rest) as Hne.
    destruct (split sep rest) as [|l ls] eqn:Es; [contradiction|].
    simpl in IH. simpl. destruct ls as [|l' ls'].
    + simpl in *. now rewrite IH.
    + simpl in *. now rewrite IH.
Qed.

(** An empty original has no line; any other has the lines that [split]
    gives, and joining them gives the content back. *)
Lemma originalLinesOf_nil : originalLinesOf [] = [].
Proof. reflexivity. Qed.

Lemma join_originalLinesOf (s : str) :
  join [LF] (map Some (originalLinesOf s)) = s.
Proof.
  unfold originalLinesOf. destruct (str_eqb s []) eqn:E.
  - apply str_eqb_eq in E. now subst.
  - apply join_split.
Qed.

(** * The parser *)

(** Before the first header there is no current hunk, and every line that
    is no header leaves the state as it is. *)
Lemma parseFrom_skip (pre rest : list str) (hunks : list hunk) :
  noMarker pre -> parseFrom (pre ++ rest) hunks None = parseFrom rest hunks None.
Proof.
  induction 1 as [|line pre Hline _ IH]; [reflexivity|].
  cbn [app parseFrom]. now rewrite Hline.
Qed.

Lemma parse_noMarker (diffLines : list str) :
  noMarker diffLines -> parseUnifiedDiffHunks diffLines = Ret [].
Proof.
  intros H. unfold parseUnifiedDiffHunks.
  rewrite <- (app_nil_r diffLines). now rewrite parseFrom_skip.
Qed.

Lemma applyAll_nil (a : list (option str)) : applyAll a [] = a.
Proof. reflexivity. Qed.

(** A diff without a header line leaves the content as it is, up to the
    line endings. *)
Lemma apply_noMarker (originalContent unifiedDiff : str) :
  noMarker (split LF (normalizeLineEndings unifiedDiff)) ->
  applyUnifiedDiff originalContent unifiedDiff
  = Ret (normalizeLineEndings originalContent).
Proof.
  intros H. unfold applyUnifiedDiff. rewrite (parse_noMarker _ H).
  cbn [bind validateAll]. now rewrite applyAll_nil, join_originalLinesOf.
Qed.

(** * Line endings *)

Lemma normalize_cons (c : char) (s : str) :
  (c = CR -> forall r, s <> LF :: r) ->
  normalizeLineEndings (c :: s) = c :: normalizeLineEndings s.
Proof.
  intros H. destruct s as [|d r]; [reflexivity|].
  cbn [normalizeLineEndings]. fold (normalizeLineEndings (d :: r)).
  destruct (N.eqb c CR && N.eqb d LF) eqn:E; [|reflexivity].
  apply andb_true_iff in E as [Ec Ed].
  apply N.eqb_eq in Ec, Ed. subst. now destruct (H eq_refl r).
Qed.

Lemma lfOnly_tail (c : char) (s : str) : lfOnly (c :: s) = true -> lfOnly s = true.
Proof.
  destruct s as [|d r]; [reflexivity|]. cbn [lfOnly].
  intros H. now apply andb_true_iff in H as [_ H].
Qed.

Lemma lfOnly_head (s : str) : lfOnly (CR :: LF :: s) = false.
Proof. reflexivity. Qed.

Lemma normalize_lfOnly (s : str) : lfOnly s = true -> normalizeLineEndings s = s.
Proof.
  induction s as [|c s IH]; [reflexivity|]. intros H.
  rewrite normalize_cons.
  - now rewrite IH by exact (lfOnly_tail _ _ H).
  - intros -> r ->. now rewrite lfOnly_head in H.
Qed.

Lemma crlfVariant_refl (s : str) : crlfVariant s s.
Proof. induction s; constructor; assumption. Qed.

(** Normalizing takes out exactly the CRs that were put in. *)
Lemma normalize_crlfVariant (s s' : str) :
  crlfVariant s s' -> lfOnly s = true -> normalizeLineEndings s' = s.
Proof.
  induction 1 as [|c s s' Hv IH|s s' Hv IH]; intros Hlf.
  - reflexivity.
  - rewrite normalize_cons.
    + now rewrite IH by exact (lfOnly_tail _ _ Hlf).
    + intros -> r ->. inversion Hv; subst. now rewrite lfOnly_head in Hlf.
  - cbn [normalizeLineEndings]. rewrite !N.eqb_refl. cbn [andb].
    now rewrite IH by exact (lfOnly_tail _ _ Hlf).
Qed.

(** The outcome depends on the inputs through their normal forms only. *)
Lemma apply_congr (o o' d d' : str) :
  normalizeLineEndings o' = normalizeLineEndings o ->
  normalizeLineEndings d' = normalizeLineEndings d ->
  applyUnifiedDiff o' d' = applyUnifiedDiff o d.
Proof. intros Ho Hd. unfold applyUnifiedDiff. now rewrite Ho, Hd. Qed.

(** C5. Take an original content and a diff text whose line endings are all
    LF, and put a CR before any of the LFs of either text, or of both: the
    outcome of [applyUnifiedDiff] is the same, the content on success and the
    error on failure. *)
Theorem crlf_inputs_same_outcome (o d o' d' : str) :
  lfOnly o = true -> lfOnly d = true ->
  crlfVariant o o' -> crlfVariant d d' ->
  applyUnifiedDiff o' d' = applyUnifiedDiff o d.
Proof.
  intros Ho Hd Vo Vd. apply apply_congr.
  - now rewrite (normalize_crlfVariant _ _ Vo Ho), normalize_lfOnly.
  - now rewrite (normalize_crlfVariant _ _ Vd Hd), normalize_lfOnly.
Qed.

Lemma crlf_inputs_same_outcome_witness :
  applyUnifiedDiff
    (textCRLF ["line1"; "line2"; "line3"])
    (textCRLF ["@@ -1,3 +1,3 @@"; " line1"; "-line2"; "+modified2"; " line3"])
  = applyUnifiedDiff
      (text ["line1"; "line2"; "line3"])
      (text ["@@ -1,3 +1,3 @@"; " line1"; "-line2"; "+modified2"; " line3"]).
Proof.
  apply crlf_inputs_same_outcome.
  - vm_compute. reflexivity.
  - vm_compute. reflexivity.
  - vm_compute. repeat constructor.
  - vm_compute. repeat constructor.
Defined.

(** * A diff without hunks *)

(** Every header line ends in one more hunk. *)
Lemma parseFrom_length (diffLines : list str) :
  forall hunks currentHunk hs,
    parseFrom diffLines hunks currentHunk = Ret hs ->
    length (flush hunks currentHunk) <= length hs.
Proof.
  induction diffLines as [|line rest IH]; intros hunks cur hs; cbn [parseFrom].
  - intros H; injection H as <-. lia.
  - destruct (startsWith line (js "@@")).
    + destruct (matchHeader line) as [m|]; [|discriminate].
      intros H. apply IH in H. cbn [flush] in H. rewrite length_app in H. lia.
    + destruct cur as [h|]; [|apply IH].
      destruct (startsWith line (js " ") || startsWith line (js "-")
                || startsWith line (js "+")); [|apply IH].
      intros H. apply IH in H. cbn [flush] in *. rewrite length_app in *.
      exact H.
Qed.

Lemma parseFrom_no_new_hunk (diffLines : list str) :
  forall hunks hs,
    parseFrom diffLines hunks None = Ret hs ->
    length hs <= length hunks ->
    noMarker diffLines.
Proof.
  induction diffLines as [|line rest IH]; intros hunks hs; cbn [parseFrom].
  - constructor.
  - destruct (startsWith line (js "@@")) eqn:Em.
    + destruct (matchHeader line) as [m|]; [|discriminate].
      intros H Hlen. apply parseFrom_length in H. cbn [flush] in H.
      rewrite length_app in H. cbn [length] in H. lia.
    + intros H Hlen. constructor; [exact Em|]. now apply (IH hunks hs).
Qed.

(** Zero hunks: the diffs without a header line, and these only. *)
Lemma parse_nil_iff (diffLines : list str) :
  parseUnifiedDiffHunks diffLines = Ret [] <-> noMarker diffLines.
Proof.
  split; [|apply parse_noMarker].
  intros H. apply (parseFrom_no_new_hunk diffLines [] [] H). reflexivity.
Qed.

(** C7. A diff text has zero hunks exactly when none of its lines begins
    with the hunk marker. Applying such a diff succeeds with the original
    content, its CRLFs turned into LFs: the lines of the content joined by LF
    again. *)
Theorem zero_hunks_is_noop (originalContent unifiedDiff : str) :
  parseUnifiedDiffHunks (split LF (normalizeLineEndings unifiedDiff)) = Ret [] ->
  noMarker (split LF (normalizeLineEndings unifiedDiff))
  /\ applyUnifiedDiff originalContent unifiedDiff
     = Ret (join [LF] (map Some (originalLinesOf (normalizeLineEndings originalContent))))
  /\ applyUnifiedDiff originalContent unifiedDiff
     = Ret (normalizeLineEndings originalContent).
Proof.
  intros H. apply parse_nil_iff in H. split; [exact H|].
  rewrite join_originalLinesOf. split; now apply apply_noMarker.
Qed.

Lemma zero_hunks_is_noop_witness :
  applyUnifiedDiff (textCRLF ["line1"; "line2"]) (text ["-old line"; "+new line"])
  = Ret (text ["line1"; "line2"]).
Proof.
  apply (zero_hunks_is_noop (textCRLF ["line1"; "line2"])
           (text ["-old line"; "+new line"])).
  vm_compute. reflexivity.
Defined.

(** C10. Lines before the first header, whatever they begin with (a space,
    [-] and [+] too), are dropped by the parser: they are attached to no hunk
    and raise no error, the rest of the diff parses as it does without them.
    So a diff that is made of such lines only parses to zero hunks, and
    applying it gives the original content back. *)
Theorem lines_before_first_header_ignored (pre rest : list str) :
  noMarker pre ->
  parseUnifiedDiffHunks (pre ++ rest) = parseUnifiedDiffHunks rest
  /\ parseUnifiedDiffHunks pre = Ret []
  /\ (forall originalContent unifiedDiff : str,
        split LF (normalizeLineEndings unifiedDiff) = pre ->
        applyUnifiedDiff originalContent unifiedDiff
        = Ret (normalizeLineEndings originalContent)).
Proof.
  intros H. split; [|split].
  - now apply parseFrom_skip.
  - now apply parse_noMarker.
  - intros o d Hd. apply apply_noMarker. now rewrite Hd.
Qed.

Lemma lines_before_first_header_ignored_witness :
  parseUnifiedDiffHunks
    ([js " context"; js "-removed"; js "+added"]
       ++ [js "@@ -1 +1 @@"; js "-line1"; js "+line2"])
  = parseUnifiedDiffHunks [js "@@ -1 +1 @@"; js "-line1"; js "+line2"].
Proof.
  apply (lines_before_first_header_ignored
           [js " context"; js "-removed"; js "+added"]
           [js "@@ -1 +1 @@"; js "-line1"; js "+line2"]).
  vm_compute. repeat constructor.
Defined.

(** * The header pattern *)

Lemma literal_sound (p s r : str) : literal p s = Some r -> s = p ++ r.
Proof.
  revert s; induction p as [|y p IH]; intros [|x s]; simpl; try congruence.
  destruct (N.eqb x y) eqn:E; [|discriminate].
  apply N.eqb_eq in E. subst. intros H. now rewrite (IH _ H).
Qed.

Lemma literal_complete (p r : str) : literal p (p ++ r) = Some r.
Proof.
  induction p as [|y p IH]; simpl; [reflexivity|].
  destruct r; now rewrite N.eqb_refl.
Qed.

Lemma spanDigits_sound (s d r : str) :
  spanDigits s = (d, r) ->
  s = d ++ r /\ forallb isDigit d = true /\ digitFree r.
Proof.
  revert d r; induction s as [|c s IH]; cbn [spanDigits]; intros d r H.
  - injection H as <- <-. split; [reflexivity|]. split; [reflexivity|exact I].
  - destruct (isDigit c) eqn:E.
    + destruct (spanDigits s) as [d' r'] eqn:Es. injection H as <- <-.
      destruct (IH _ _ eq_refl) as (-> & Hd & Hr).
      split; [reflexivity|]. split; [|assumption]. cbn [forallb]. now rewrite E, Hd.
    + injection H as <- <-. split; [reflexivity|]. split; [reflexivity|exact E].
Qed.

Lemma spanDigits_complete (d r : str) :
  forallb isDigit d = true -> digitFree r -> spanDigits (d ++ r) = (d, r).
Proof.
  intros Hd Hr. induction d as [|c d IH]; cbn [app spanDigits].
  - destruct r as [|c r]; [reflexivity|]. unfold digitFree in Hr.
    cbn [spanDigits]. now rewrite Hr.
  - cbn [forallb] in Hd. apply andb_true_iff in Hd as [Hc Hd].
    now rewrite Hc, (IH Hd).
Qed.

Lemma digits1_sound (s d r : str) :
  digits1 s = Some (d, r) -> s = d ++ r /\ digitString d /\ digitFree r.
Proof.
  unfold digits1. destruct (spanDigits s) as [d' r'] eqn:E.
  destruct d' as [|c d']; [discriminate|]. intros H. injection H as <- <-.
  destruct (spanDigits_sound _ _ _ E) as (-> & Hd & Hr).
  repeat split; [discriminate|assumption|assumption].
Qed.

Lemma digits1_complete (d r : str) :
  digitString d -> digitFree r -> digits1 (d ++ r) = Some (d, r).
Proof.
  intros [Hne Hd] Hr. unfold digits1. rewrite (spanDigits_complete _ _ Hd Hr).
  now destruct d.
Qed.

Lemma optCount_sound (s r : str) (c : option str) :
  optCount s = (c, r) -> s = countText c ++ r /\ countOk c.
Proof.
  unfold optCount. destruct (literal (js ",") s) as [r1|] eqn:El.
  - destruct (digits1 r1) as [[d r']|] eqn:Ed; intros H; injection H as <- <-.
    + apply literal_sound in El. apply digits1_sound in Ed as (-> & Hd & _).
      split; [|exact Hd]. rewrite El. reflexivity.
    + now split.
  - intros H; injection H as <- <-. now split.
Qed.

(** After the optional group the pattern goes on with a space: what follows
    is neither a comma nor a digit. *)
Lemma optCount_complete (c : option str) (r : str) :
  countOk c -> digitFree r -> literal (js ",") r = None ->
  optCount (countText c ++ r) = (c, r).
Proof.
  intros Hc Hr Hl. unfold optCount. destruct c as [d|].
  - change (countText (Some d) ++ r) with (js "," ++ (d ++ r)).
    rewrite literal_complete. now rewrite (digits1_complete _ _ Hc Hr).
  - cbn [countText app]. now rewrite Hl.
Qed.

Lemma matchHeaderAt_sound (s : str) (m : headerMatch) :
  matchHeaderAt s = Some m -> headerAt m s.
Proof.
  unfold matchHeaderAt.
  destruct (literal (js "@@ -") s) as [r1|] eqn:E1; [|discriminate].
  destruct (digits1 r1) as [[g1 r2]|] eqn:E2; [|discriminate].
  destruct (optCount r2) as [g2 r3] eqn:E3.
  destruct (literal (js " +") r3) as [r4|] eqn:E4; [|discriminate].
  destruct (digits1 r4) as [[g3 r5]|] eqn:E5; [|discriminate].
  destruct (optCount r5) as [g4 r6] eqn:E6.
  destruct (literal (js " @@") r6) as [r7|] eqn:E7; [|discriminate].
  intros H; injection H as <-.
  apply literal_sound in E1, E4, E7.
  apply digits1_sound in E2 as (-> & D1 & _), E5 as (-> & D3 & _).
  apply optCount_sound in E3 as (-> & C2), E6 as (-> & C4).
  unfold headerAt; cbn [group1 group2 group3 group4].
  split; [assumption|]. split; [assumption|].
  split; [assumption|]. split; [assumption|].
  exists r7. subst. now rewrite <- ?app_assoc.
Qed.

Lemma matchHeaderAt_complete (s : str) (m : headerMatch) :
  headerAt m s -> matchHeaderAt s = Some m.
Proof.
  intros (D1 & C2 & D3 & C4 & post & ->). unfold matchHeaderAt.
  rewrite literal_complete.
  rewrite (digits1_complete _ _ D1) by (destruct (group2 m); reflexivity).
  rewrite (optCount_complete _ _ C2) by reflexivity.
  rewrite literal_complete.
  rewrite (digits1_complete _ _ D3) by (destruct (group4 m); reflexivity).
  rewrite (optCount_complete _ _ C4) by reflexivity.
  rewrite literal_complete. now destruct m.
Qed.

(** [match] finds a header exactly in the lines that hold one. *)
Lemma matchHeader_Some (line : str) :
  (exists m, matchHeader line = Some m) <-> matchesHeaderPattern line.
Proof.
  split.
  - intros [m H]. induction line as [|c line IH].
    + cbn [matchHeader] in H. destruct (matchHeaderAt []) eqn:E; [|discriminate].
      exists [], [], h. split; [reflexivity|now apply matchHeaderAt_sound].
    + cbn [matchHeader] in H. destruct (matchHeaderAt (c :: line)) eqn:E.
      * exists [], (c :: line), h. split; [reflexivity|now apply matchHeaderAt_sound].
      * destruct (IH H) as (pre & s & m' & -> & Hs).
        now exists (c :: pre), s, m'.
  - intros (pre & s & m & -> & Hs). apply matchHeaderAt_complete in Hs.
    induction pre as [|c pre IH].
    + exists m. destruct s; cbn [app matchHeader]; now rewrite Hs.
    + cbn [app matchHeader].
      destruct (matchHeaderAt (c :: pre ++ s)); [eauto|exact IH].
Qed.

Lemma matchHeader_None (line : str) :
  matchHeader line = None <-> ~ matchesHeaderPattern line.
Proof.
  rewrite <- matchHeader_Some. destruct (matchHeader line) as [m|].
  - split; [discriminate|]. intros H. destruct H. now exists m.
  - split; [|reflexivity]. intros _ [m H]. discriminate.
Qed.

(** The captures of a match are those of a header somewhere in the line. *)
Lemma matchHeader_sound (line : str) (m : headerMatch) :
  matchHeader line = Some m -> exists pre s, line = pre ++ s /\ headerAt m s.
Proof.
  induction line as [|c line IH]; cbn [matchHeader].
  - destruct (matchHeaderAt []) eqn:E; [|discriminate].
    intros H; injection H as ->. exists [], [].
    split; [reflexivity|now apply matchHeaderAt_sound].
  - destruct (matchHeaderAt (c :: line)) eqn:E.
    + intros H; injection H as ->. exists [], (c :: line).
      split; [reflexivity|now apply matchHeaderAt_sound].
    + intros H. destruct (IH H) as (pre & s & -> & Hs). now exists (c :: pre), s.
Qed.

(** * Malformed headers *)

Lemma malformedHeader_iff (line : str) :
  malformedHeader line
  <-> startsWith line (js "@@") = true /\ matchHeader line = None.
Proof. unfold malformedHeader. now rewrite matchHeader_None. Qed.

(** The parser throws at the first malformed header and nowhere else. *)
Lemma parseFrom_outcome (diffLines : list str) :
  forall hunks currentHunk,
    match parseFrom diffLines hunks currentHunk with
    | Throw e =>
        exists pre line post,
          diffLines = pre ++ line :: post
          /\ Forall (fun l => ~ malformedHeader l) pre
          /\ malformedHeader line
          /\ e = MalformedHunkHeader line
    | Ret _ => Forall (fun l => ~ malformedHeader l) diffLines
    end.
Proof.
  induction diffLines as [|line rest IH]; intros hunks cur; cbn [parseFrom].
  - constructor.
  - assert (Hstep : forall hunks' cur',
               ~ malformedHeader line ->
               match parseFrom rest hunks' cur' with
               | Throw e =>
                   exists pre l post,
                     line :: rest = pre ++ l :: post
                     /\ Forall (fun l => ~ malformedHeader l) pre
                     /\ malformedHeader l
                     /\ e = MalformedHunkHeader l
               | Ret _ => Forall (fun l => ~ malformedHeader l) (line :: rest)
               end).
    { intros hunks' cur' Hline. specialize (IH hunks' cur').
      destruct (parseFrom rest hunks' cur') as [hs|e].
      - now constructor.
      - destruct IH as (pre & l & post & -> & Hpre & Hl & ->).
        exists (line :: pre), l, post.
        split; [reflexivity|]. split; [now constructor|]. now split. }
    destruct (startsWith line (js "@@")) eqn:Em.
    + destruct (matchHeader line) as [m|] eqn:Eh.
      * apply Hstep. rewrite malformedHeader_iff. intros [_ H]. congruence.
      * exists [], line, rest.
        split; [reflexivity|]. split; [constructor|]. split; [|reflexivity].
        now apply malformedHeader_iff.
    + assert (Hline : ~ malformedHeader line)
        by (rewrite malformedHeader_iff; intros [H _]; congruence).
      destruct cur as [h|]; [|now apply Hstep].
      destruct (startsWith line (js " ") || startsWith line (js "-")
                || startsWith line (js "+")); now apply Hstep.
Qed.

(** A parse failure is the failure of the whole call. *)
Lemma apply_parse_throw (originalContent unifiedDiff : str) (e : error) :
  parseUnifiedDiffHunks (split LF (normalizeLineEndings unifiedDiff)) = Throw e ->
  applyUnifiedDiff originalContent unifiedDiff = Throw e.
Proof. intros H. unfold applyUnifiedDiff. now rewrite H. Qed.

(** The lines pushed onto a hunk leave its numbers as they are. *)
Lemma headerOf_pushLine (line : str) (h : hunk) (l : diffLine) :
  headerOf line h -> headerOf line (pushLine h l).
Proof. intros (m & H). now exists m. Qed.

Lemma headerOf_openHunk (line : str) (m : headerMatch) :
  matchHeader line = Some m -> headerOf line (openHunk m).
Proof.
  intros H. exists m. split; [exact H|]. unfold openHunk.
  cbn [oldStart oldCount newStart newCount].
  destruct (group2 m), (group4 m); repeat split; reflexivity.
Qed.

(** The hunks the loop returns, the one in progress last, stand one for one
    for the lines that begin with the hunk marker, in order. *)
Lemma parseFrom_headerOf (diffLines : list str) :
  forall seen hunks currentHunk hs,
    Forall2 headerOf seen (flush hunks currentHunk) ->
    parseFrom diffLines hunks currentHunk = Ret hs ->
    Forall2 headerOf (seen ++ filter isMarker diffLines) hs.
Proof.
  induction diffLines as [|line rest IH]; intros seen hunks cur hs Hseen;
    cbn [parseFrom filter].
  - intros H. injection H as <-. now rewrite app_nil_r.
  - unfold isMarker at 1. destruct (startsWith line (js "@@")) eqn:Em.
    + destruct (matchHeader line) as [m|] eqn:Eh; [|discriminate].
      intros H. replace (seen ++ line :: filter isMarker rest)
        with ((seen ++ [line]) ++ filter isMarker rest)
        by now rewrite <- app_assoc.
      eapply IH; [|exact H].
      cbn [flush]. apply Forall2_app; [exact Hseen|].
      constructor; [now apply headerOf_openHunk|constructor].
    + destruct cur as [h|]; [|now apply IH].
      destruct (startsWith line (js " ") || startsWith line (js "-")
                || startsWith line (js "+")); [|now apply IH].
      apply IH. cbn [flush] in *.
      apply Forall2_app_inv_r in Hseen as (s1 & s2 & H1 & H2 & ->).
      apply Forall2_app; [exact H1|].
      inversion H2 as [|x y s2' l' Hx Hnil]; subst. inversion Hnil; subst.
      constructor; [now apply headerOf_pushLine|constructor].
Qed.

(** C9. The parser throws exactly when some diff line begins with the hunk
    marker and has no header [@@ -<oldStart>[,<oldCount>] +<newStart>[,<newCount>] @@]
    in it (the source's pattern has no anchor: the header may stand anywhere
    in the line). The error is [MalformedHunkHeader] with the text of the
    first such line; the whole call then throws this error and returns no
    content. A line that begins with a header is accepted. When the parser
    returns, its hunks stand one for one, in order, for the lines that begin
    with the hunk marker, and each hunk has the numbers of its header: the
    starts of the hunk the header opens, the counts as they are written, and
    1 for a count that the header leaves out. *)
Theorem malformed_header_iff (diffLines : list str) :
  ((exists e, parseUnifiedDiffHunks diffLines = Throw e)
   <-> Exists malformedHeader diffLines)
  /\ (forall e, parseUnifiedDiffHunks diffLines = Throw e ->
        exists pre line post,
          diffLines = pre ++ line :: post
          /\ Forall (fun l => ~ malformedHeader l) pre
          /\ malformedHeader line
          /\ e = MalformedHunkHeader line)
  /\ (forall originalContent unifiedDiff e,
        split LF (normalizeLineEndings unifiedDiff) = diffLines ->
        parseUnifiedDiffHunks diffLines = Throw e ->
        applyUnifiedDiff originalContent unifiedDiff = Throw e)
  /\ (forall m line,
        headerAt m line ->
        matchHeader line = Some m
        /\ oldCount (openHunk m)
           = match group2 m with Some d => parseInt d | None => 1%Z end
        /\ newCount (openHunk m)
           = match group4 m with Some d => parseInt d | None => 1%Z end)
  /\ (forall hs,
        parseUnifiedDiffHunks diffLines = Ret hs ->
        Forall2 headerOf (filter isMarker diffLines) hs).
Proof.
  pose proof (parseFrom_outcome diffLines [] None) as Hout.
  fold (parseUnifiedDiffHunks diffLines) in Hout.
  split; [|split; [|split; [|split]]];
    [| | | |intros hs Hp;
            apply (parseFrom_headerOf diffLines [] [] None hs);
            [constructor|exact Hp]].
  - split.
    + intros [e He]. rewrite He in Hout.
      destruct Hout as (pre & line & post & -> & _ & Hl & _).
      apply Exists_app. right. now constructor.
    + intros Hex. destruct (parseUnifiedDiffHunks diffLines) as [hs|e]; [|eauto].
      apply Exists_exists in Hex as (l & Hin & Hl).
      rewrite Forall_forall in Hout. now destruct (Hout l Hin).
  - intros e He. now rewrite He in Hout.
  - intros o d e <- He. now apply apply_parse_throw.
  - intros m line Hm. split; [|split].
    + apply matchHeaderAt_complete in Hm.
      destruct line; cbn [matchHeader]; now rewrite Hm.
    + unfold openHunk; cbn [oldCount]. now destruct (group2 m).
    + unfold openHunk; cbn [newCount]. now destruct (group4 m).
Qed.

Example header_without_counts :
  parseUnifiedDiffHunks [js "@@ -3 +4 @@"; js "+x"]
  = Ret [{| oldStart := 2; oldCount := 1; newStart := 3; newCount := 1;
            lines := [{| type := add; content := js "x" |}] |}].
Proof. reflexivity. Qed.

Example header_with_counts :
  parseUnifiedDiffHunks [js "@@ -3,0 +4,12 @@ function f() {"; js "+x"]
  = Ret [{| oldStart := 2; oldCount := 0; newStart := 3; newCount := 12;
            lines := [{| type := add; content := js "x" |}] |}].
Proof. reflexivity. Qed.

(** The pattern is searched for, so text between the marker and the header
    is accepted. *)
Example header_after_text :
  parseUnifiedDiffHunks [js "@@ note @@ -3 +4 @@"]
  = Ret [{| oldStart := 2; oldCount := 1; newStart := 3; newCount := 1;
            lines := [] |}].
Proof. reflexivity. Qed.

(** * The validation phase *)

Section Validation.

Variable originalLines : list str.

(** Strict comparison never throws. *)
Lemma validateFrom_strict_total (ls : list diffLine) :
  forall i, exists b, validateFrom originalLines strict ls i = Ret b.
Proof.
  induction ls as [|line rest IH]; intros i; cbn [validateFrom]; [eauto|].
  destruct (type line); [| |apply IH];
    (destruct (i >=? Z.of_nat (length originalLines))%Z; [eauto|];
     cbn [bind];
     destruct (match index originalLines i with
               | Some o => str_eqb o (content line)
               | None => false
               end); [apply IH|eauto]).
Qed.

(** Lines that are equal are equal after trimming. *)
Lemma validateFrom_strict_normalized (ls : list diffLine) :
  forall i,
    validateFrom originalLines strict ls i = Ret true ->
    validateFrom originalLines normalized ls i = Ret true.
Proof.
  induction ls as [|line rest IH]; intros i; cbn [validateFrom]; [trivial|].
  destruct (type line); [| |apply IH];
    (destruct (i >=? Z.of_nat (length originalLines))%Z; [trivial|];
     cbn [bind];
     destruct (index originalLines i) as [o|]; [|discriminate];
     destruct (str_eqb o (content line)) eqn:E; [|discriminate];
     apply str_eqb_eq in E; subst o; cbn [bind];
     rewrite str_eqb_refl; apply IH).
Qed.

Lemma validateHunk_strict_total (h : hunk) :
  exists b, validateHunk originalLines h strict = Ret b.
Proof. apply validateFrom_strict_total. Qed.

Lemma passes_strict_normalized (h : hunk) :
  passes originalLines strict h -> passes originalLines normalized h.
Proof. apply validateFrom_strict_normalized. Qed.

(** Once the mode is [normalized], the loop is the search for the first
    hunk that fails in this mode. *)
Lemma validateAll_normalized (hunks : list hunk) :
  validateAll originalLines hunks normalized
  = (failing <- firstFailing originalLines normalized hunks ;;
     match failing with
     | None => Ret tt
     | Some h => Throw (HunkValidationFailed (oldStart h + 1))
     end).
Proof.
  induction hunks as [|h rest IH]; [reflexivity|].
  cbn [validateAll firstFailing].
  destruct (validateHunk originalLines h normalized) as [[|]|e]; cbn [bind].
  - exact IH.
  - reflexivity.
  - reflexivity.
Qed.

(** Hunks that pass do not stop the search. *)
Lemma firstFailing_skip (mode : validationMode) (pre rest : list hunk) :
  Forall (passes originalLines mode) pre ->
  firstFailing originalLines mode (pre ++ rest)
  = firstFailing originalLines mode rest.
Proof.
  induction 1 as [|h pre Hh _ IH]; [reflexivity|].
  cbn [app firstFailing]. unfold passes in Hh. now rewrite Hh.
Qed.

(** The loop of [applyUnifiedDiff], which switches the mode where the first
    hunk fails and goes on, does what the two passes of the specification
    do, errors included. *)
Lemma validateAll_refines_spec (hunks : list hunk) :
  validateAll originalLines hunks strict = validateBatchSpec originalLines hunks.
Proof.
  unfold validateBatchSpec.
  assert (G : forall pre rest,
             Forall (passes originalLines normalized) pre ->
             validateAll originalLines rest strict
             = (failing <- firstFailing originalLines strict rest ;;
                match failing with
                | None => Ret tt
                | Some _ =>
                    failing' <- firstFailing originalLines normalized (pre ++ rest) ;;
                    match failing' with
                    | None => Ret tt
                    | Some h => Throw (HunkValidationFailed (oldStart h + 1))
                    end
                end)).
  { intros pre rest. revert pre.
    induction rest as [|h rest IH]; intros pre Hpre; [reflexivity|].
    cbn [validateAll firstFailing].
    destruct (validateHunk_strict_total h) as [[|] Hs]; rewrite Hs; cbn [bind].
    - rewrite (IH (pre ++ [h])).
      + now rewrite <- app_assoc.
      + apply Forall_app. split; [assumption|].
        constructor; [|constructor]. now apply passes_strict_normalized.
    - rewrite (firstFailing_skip normalized _ _ Hpre). cbn [firstFailing].
      destruct (validateHunk originalLines h normalized) as [[|]|e]; cbn [bind].
      + apply validateAll_normalized.
      + reflexivity.
      + reflexivity. }
  exact (G [] hunks (Forall_nil _)).
Qed.

(** ** Which hunk stops the search *)

Lemma firstFailing_cases (mode : validationMode) (hunks : list hunk) :
  match firstFailing originalLines mode hunks with
  | Ret None => Forall (passes originalLines mode) hunks
  | Ret (Some h) =>
      exists pre post,
        hunks = pre ++ h :: post
        /\ Forall (passes originalLines mode) pre
        /\ validateHunk originalLines h mode = Ret false
  | Throw e =>
      exists pre h post,
        hunks = pre ++ h :: post
        /\ Forall (passes originalLines mode) pre
        /\ validateHunk originalLines h mode = Throw e
  end.
Proof.
  induction hunks as [|h rest IH]; cbn [firstFailing]; [constructor|].
  destruct (validateHunk originalLines h mode) as [[|]|e] eqn:Eh; cbn [bind].
  - destruct (firstFailing originalLines mode rest) as [[h'|]|e].
    + destruct IH as (pre & post & -> & Hpre & Hh').
      exists (h :: pre), post. split; [reflexivity|]. split; [|assumption].
      now constructor.
    + now constructor.
    + destruct IH as (pre & h' & post & -> & Hpre & Hh').
      exists (h :: pre), h', post. split; [reflexivity|]. split; [|assumption].
      now constructor.
  - exists [], rest. split; [reflexivity|]. split; [constructor|assumption].
  - exists [], h, rest. split; [reflexivity|]. split; [constructor|assumption].
Qed.

(** The outcome of the validation loop: it returns when every hunk passes
    in normalized mode; it throws at the first hunk that does not, the
    line of this hunk when the hunk fails, and what the hunk throws when it
    throws. *)
Lemma validateAll_cases (hunks : list hunk) :
  match validateAll originalLines hunks strict with
  | Ret _ => Forall (passes originalLines normalized) hunks
  | Throw e =>
      exists pre h post,
        hunks = pre ++ h :: post
        /\ Forall (passes originalLines normalized) pre
        /\ ((validateHunk originalLines h normalized = Ret false
             /\ e = HunkValidationFailed (oldStart h + 1))
            \/ validateHunk originalLines h normalized = Throw e)
  end.
Proof.
  rewrite validateAll_refines_spec. unfold validateBatchSpec.
  pose proof (firstFailing_cases strict hunks) as Hs.
  pose proof (firstFailing_cases normalized hunks) as Hn.
  destruct (firstFailing originalLines strict hunks) as [[hs|]|e]; cbn [bind].
  - destruct (firstFailing originalLines normalized hunks) as [[hn|]|e];
      cbn [bind].
    + destruct Hn as (pre & post & -> & Hpre & Hh).
      exists pre, hn, post. split; [reflexivity|]. split; [assumption|].
      left. now split.
    + assumption.
    + destruct Hn as (pre & h & post & -> & Hpre & Hh).
      exists pre, h, post. split; [reflexivity|]. split; [assumption|].
      now right.
  - eapply Forall_impl; [|exact Hs]. intros h. apply passes_strict_normalized.
  - destruct Hs as (pre & h & post & _ & _ & Hh).
    destruct (validateHunk_strict_total h) as [b Hb]. congruence.
Qed.

Lemma validateAll_Ret (hunks : list hunk) :
  validateAll originalLines hunks strict = Ret tt
  <-> Forall (passes originalLines normalized) hunks.
Proof.
  pose proof (validateAll_cases hunks) as H. split.
  - intros E. now rewrite E in H.
  - intros Hall. destruct (validateAll originalLines hunks strict) as [[]|e];
      [reflexivity|].
    destruct H as (pre & h & post & -> & _ & Hh).
    apply Forall_app in Hall as [_ Hall]. inversion Hall as [|? ? Hp _]; subst.
    unfold passes in Hp. rewrite Hp in Hh. destruct Hh as [[Hh _]|Hh]; discriminate.
Qed.

(** ** When [validateHunk] throws *)

Lemma validateFrom_adds (mode : validationMode) (ls : list diffLine) (i : Z) :
  forallb (fun l => negb (consumes l)) ls = true ->
  validateFrom originalLines mode ls i = Ret true.
Proof.
  induction ls as [|line rest IH]; [reflexivity|].
  cbn [forallb validateFrom]. unfold consumes at 1.
  destruct (type line); cbn [negb andb]; try discriminate. exact IH.
Qed.

Lemma index_nonneg (i : Z) :
  (0 <= i)%Z -> (i < Z.of_nat (length originalLines))%Z ->
  exists o, index originalLines i = Some o.
Proof.
  intros H0 H1. unfold index.
  destruct (Z.ltb_spec i 0); [lia|].
  destruct (nth_error originalLines (Z.to_nat i)) as [o|] eqn:E; [eauto|].
  apply nth_error_None in E. lia.
Qed.

(** From an index that is not negative nothing throws. *)
Lemma validateFrom_nonneg (mode : validationMode) (ls : list diffLine) :
  forall i, (0 <= i)%Z ->
    exists b, validateFrom originalLines mode ls i = Ret b.
Proof.
  induction ls as [|line rest IH]; intros i Hi; cbn [validateFrom]; [eauto|].
  assert (Hstep : exists b,
             (if (i >=? Z.of_nat (length originalLines))%Z then Ret false
              else
                matches <-
                  match mode with
                  | strict =>
                      Ret (match index originalLines i with
                           | Some o => str_eqb o (content line)
                           | None => false
                           end)
                  | normalized =>
                      match index originalLines i with
                      | Some o => Ret (str_eqb (trim o) (trim (content line)))
                      | None => Throw TypeError
                      end
                  end ;;
                if matches
                then validateFrom originalLines mode rest (i + 1)%Z
                else Ret false) = Ret b).
  { destruct (Z.geb_spec i (Z.of_nat (length originalLines))); [eauto|].
    destruct (index_nonneg i Hi) as [o Ho]; [lia|]. rewrite Ho.
    destruct mode; cbn [bind].
    - destruct (str_eqb o (content line)); [apply IH; lia|eauto].
    - destruct (str_eqb (trim o) (trim (content line))); [apply IH; lia|eauto]. }
  destruct (type line); [exact Hstep|exact Hstep|now apply IH].
Qed.

(** Below index [0] the first line that is checked throws in normalized
    mode, whatever the original is. *)
Lemma validateFrom_negative (ls : list diffLine) (i : Z) :
  (i < 0)%Z ->
  validateFrom originalLines normalized ls i
  = if forallb (fun l => negb (consumes l)) ls then Ret true else Throw TypeError.
Proof.
  intros Hi. induction ls as [|line rest IH]; [reflexivity|].
  cbn [forallb validateFrom]. unfold consumes at 1.
  assert (Hidx : index originalLines i = None).
  { unfold index. destruct (Z.ltb_spec i 0); [reflexivity|lia]. }
  destruct (type line); cbn [negb andb]; try exact IH;
    (destruct (Z.geb_spec i (Z.of_nat (length originalLines))); [lia|];
     now rewrite Hidx).
Qed.

(** [validateHunk] throws for the hunks that are not well placed, and for
    these only; it then throws [TypeError], in normalized mode. *)
Lemma validateHunk_wellPlaced (h : hunk) :
  wellPlaced h <-> exists b, validateHunk originalLines h normalized = Ret b.
Proof.
  unfold wellPlaced, validateHunk. split.
  - intros [H|H].
    + now apply validateFrom_nonneg.
    + exists true. now apply validateFrom_adds.
  - intros [b Hb]. destruct (Z.ltb_spec (oldStart h) 0) as [Hneg|]; [|now left].
    right. rewrite (validateFrom_negative _ _ Hneg) in Hb.
    now destruct (forallb _ (lines h)).
Qed.

Lemma validateHunk_throw (h : hunk) (e : error) :
  validateHunk originalLines h normalized = Throw e ->
  e = TypeError /\ ~ wellPlaced h.
Proof.
  intros He. assert (Hn : ~ wellPlaced h).
  { intros Hw. apply validateHunk_wellPlaced in Hw as [b Hb]. congruence. }
  split; [|exact Hn].
  destruct (Z.ltb_spec (oldStart h) 0) as [Hneg|Hpos].
  - unfold validateHunk in He. rewrite (validateFrom_negative _ _ Hneg) in He.
    destruct (forallb _ (lines h)); congruence.
  - destruct Hn. now left.
Qed.

End Validation.

(** Being well placed does not depend on the original: a hunk that passes
    against one content throws against no other. *)
Lemma passes_wellPlaced (originalLines : list str) (h : hunk) :
  passes originalLines normalized h -> wellPlaced h.
Proof. intros H. apply (validateHunk_wellPlaced originalLines). now exists true. Qed.

(** * The outcomes of a call *)

Lemma apply_Ret_inv (o d o' : str) :
  applyUnifiedDiff o d = Ret o' ->
  exists hunks,
    parseUnifiedDiffHunks (split LF (normalizeLineEndings d)) = Ret hunks
    /\ Forall (passes (originalLinesOf (normalizeLineEndings o)) normalized) hunks
    /\ o' = join [LF] (applyAll (map Some (originalLinesOf (normalizeLineEndings o)))
                          hunks).
Proof.
  unfold applyUnifiedDiff.
  destruct (parseUnifiedDiffHunks (split LF (normalizeLineEndings d)))
    as [hunks|e]; cbn [bind]; [|discriminate].
  pose proof (validateAll_cases (originalLinesOf (normalizeLineEndings o)) hunks) as Hv.
  destruct (validateAll (originalLinesOf (normalizeLineEndings o)) hunks strict)
    as [[]|e]; cbn [bind]; [|discriminate].
  intros H; injection H as <-. now exists hunks.
Qed.

(** A call returns, or throws one of three errors; the third needs a hunk
    that is not well placed. *)
Lemma apply_outcomes (o d : str) :
  (exists o', applyUnifiedDiff o d = Ret o')
  \/ (exists line, applyUnifiedDiff o d = Throw (MalformedHunkHeader line))
  \/ (exists n, applyUnifiedDiff o d = Throw (HunkValidationFailed n))
  \/ (applyUnifiedDiff o d = Throw TypeError
      /\ exists hunks,
          parseUnifiedDiffHunks (split LF (normalizeLineEndings d)) = Ret hunks
          /\ ~ Forall wellPlaced hunks).
Proof.
  unfold applyUnifiedDiff.
  pose proof (parseFrom_outcome (split LF (normalizeLineEndings d)) [] None) as Hp.
  fold (parseUnifiedDiffHunks (split LF (normalizeLineEndings d))) in Hp.
  destruct (parseUnifiedDiffHunks (split LF (normalizeLineEndings d)))
    as [hunks|e]; cbn [bind].
  - pose proof (validateAll_cases (originalLinesOf (normalizeLineEndings o)) hunks) as Hv.
    destruct (validateAll (originalLinesOf (normalizeLineEndings o)) hunks strict)
      as [[]|e]; cbn [bind]; [eauto|].
    destruct Hv as (pre & h & post & -> & _ & [[_ ->]|Hh]); [eauto|].
    apply validateHunk_throw in Hh as [-> Hn].
    right; right; right. split; [reflexivity|]. eexists. split; [reflexivity|].
    intros Hall. apply Forall_app in Hall as [_ Hall].
    inversion Hall; subst. contradiction.
  - destruct Hp as (_ & line & _ & _ & _ & _ & ->). eauto.
Qed.

(** C2. The original [a] and the diff [@@ -0,1 +1 @@] with the context line
    [a]: the header gives [oldStart = -1], [validateHunk] reads
    [originalLines[-1]], which is [undefined], strict comparison fails and
    the normalized one calls [trim] on it. The call throws a [TypeError],
    which is neither of the two errors of the engine. *)
Theorem apply_throws_TypeError :
  applyUnifiedDiff (js "a") (text ["@@ -0,1 +1 @@"; " a"]) = Throw TypeError.
Proof. vm_compute. reflexivity. Qed.

(** C4. The hunk that [@@ -0,1 +1 @@] and the context line [a] parse to,
    against the original line [a]: the hunk fails in strict mode, the loop
    switches to normalized mode, and there [validateHunk] throws. The
    validation phase fails with a [TypeError] and reports no line, where
    the first hunk that does not pass has [oldStart + 1 = 0]. The two
    passes of the specification throw the same. *)
Theorem validation_phase_TypeError :
  parseUnifiedDiffHunks [js "@@ -0,1 +1 @@"; js " a"] = Ret [hunkAtLineZero]
  /\ validateHunk [js "a"] hunkAtLineZero strict = Ret false
  /\ validateHunk [js "a"] hunkAtLineZero normalized = Throw TypeError
  /\ validateAll [js "a"] [hunkAtLineZero] strict = Throw TypeError
  /\ validateBatchSpec [js "a"] [hunkAtLineZero] = Throw TypeError.
Proof. repeat split. Qed.

(** What holds of the validation phase for every batch: it succeeds when
    all hunks pass in strict mode or all pass in normalized mode, and a line
    it reports is that of the first hunk that does not pass in normalized
    mode. *)
Lemma validateAll_succeeds_iff (originalLines : list str) (hunks : list hunk) :
  validateAll originalLines hunks strict = Ret tt
  <-> Forall (passes originalLines strict) hunks
      \/ Forall (passes originalLines normalized) hunks.
Proof.
  rewrite validateAll_Ret. split; [now right|].
  intros [H|H]; [|exact H].
  eapply Forall_impl; [|exact H]. intros h. apply passes_strict_normalized.
Qed.

Lemma validateAll_reported_line (originalLines : list str) (hunks : list hunk)
    (n : Z) :
  validateAll originalLines hunks strict = Throw (HunkValidationFailed n) ->
  exists pre h post,
    hunks = pre ++ h :: post
    /\ Forall (passes originalLines normalized) pre
    /\ validateHunk originalLines h normalized = Ret false
    /\ n = (oldStart h + 1)%Z.
Proof.
  intros H. pose proof (validateAll_cases originalLines hunks) as Hv.
  rewrite H in Hv. destruct Hv as (pre & h & post & -> & Hpre & [[Hh Hn]|Hh]).
  - exists pre, h, post. injection Hn as ->. now repeat split.
  - apply validateHunk_throw in Hh as [Hh _]. discriminate.
Qed.

(** With hunks that are well placed, a failure always reports this line. *)
Lemma validateAll_fails_wellPlaced (originalLines : list str)
    (hunks : list hunk) (e : error) :
  Forall wellPlaced hunks ->
  validateAll originalLines hunks strict = Throw e ->
  exists pre h post,
    hunks = pre ++ h :: post
    /\ Forall (passes originalLines normalized) pre
    /\ validateHunk originalLines h normalized = Ret false
    /\ e = HunkValidationFailed (oldStart h + 1).
Proof.
  intros Hw H. pose proof (validateAll_cases originalLines hunks) as Hv.
  rewrite H in Hv. destruct Hv as (pre & h & post & -> & Hpre & [[Hh Hn]|Hh]).
  - exists pre, h, post. now repeat split.
  - apply validateHunk_throw in Hh as [_ Hh].
    apply Forall_app in Hw as [_ Hw]. inversion Hw; subst. contradiction.
Qed.

(** With hunks that are well placed, the two errors are the only ones. *)
Lemma apply_errors_wellPlaced (o d : str) (hunks : list hunk) (e : error) :
  parseUnifiedDiffHunks (split LF (normalizeLineEndings d)) = Ret hunks ->
  Forall wellPlaced hunks ->
  applyUnifiedDiff o d = Throw e ->
  exists n, e = HunkValidationFailed n.
Proof.
  intros Hp Hw He. unfold applyUnifiedDiff in He. rewrite Hp in He.
  cbn [bind] in He.
  destruct (validateAll (originalLinesOf (normalizeLineEndings o)) hunks strict)
    as [[]|e'] eqn:Ev; cbn [bind] in He; [discriminate|].
  injection He as <-.
  destruct (validateAll_fails_wellPlaced _ _ _ Hw Ev) as (_ & h & _ & _ & _ & _ & ->).
  eauto.
Qed.

(** * Applying hunks *)

Section Cells.

Variable a : list (option str).

Lemma copyCells_length (i n : nat) : length (copyCells a i n) = n.
Proof. revert i; induction n as [|n IH]; intros i; cbn; [|rewrite IH]; reflexivity. Qed.

Lemma copyCells_app (i n m : nat) :
  copyCells a i (n + m) = copyCells a i n ++ copyCells a (i + n) m.
Proof.
  revert i; induction n as [|n IH]; intros i; cbn [copyCells Nat.add app].
  - now rewrite Nat.add_0_r.
  - rewrite IH. now rewrite Nat.add_succ_r.
Qed.

Lemma nth_error_copyCells (i n j : nat) :
  j < n -> nth_error (copyCells a i n) j = Some (cell a (i + j)).
Proof.
  revert i j; induction n as [|n IH]; intros i j Hj; [lia|].
  destruct j as [|j]; cbn [copyCells nth_error].
  - now rewrite Nat.add_0_r.
  - rewrite IH by lia. now rewrite Nat.add_succ_r.
Qed.

Lemma cell_skipn (i : nat) :
  i < length a -> skipn i a = cell a i :: skipn (S i) a.
Proof.
  unfold cell. revert i. induction a as [|x l IH]; intros i Hi; cbn in Hi; [lia|].
  destruct i as [|i]; [reflexivity|].
  cbn [skipn nth_error]. rewrite IH by lia. reflexivity.
Qed.

(** The last loop of [applyHunk] copies what is left of the array. *)
Lemma copyCells_skipn (i : nat) : copyCells a i (length a - i) = skipn i a.
Proof.
  remember (length a - i) as n eqn:En. revert i En.
  induction n as [|n IH]; intros i En; cbn [copyCells].
  - symmetry. apply skipn_all2. lia.
  - rewrite cell_skipn by lia. f_equal. apply IH. lia.
Qed.

Lemma walkHunk_snd (ls : list diffLine) :
  forall i, snd (walkHunk a ls i) = i + consumed ls.
Proof.
  unfold consumed.
  induction ls as [|line rest IH]; intros i; cbn [walkHunk filter].
  - cbn. lia.
  - unfold consumes at 1. destruct (type line).
    + specialize (IH (S i)). destruct (walkHunk a rest (S i)). cbn in *. lia.
    + rewrite IH. cbn. lia.
    + specialize (IH i). destruct (walkHunk a rest i). cbn in *. lia.
Qed.

Lemma walkHunk_length (ls : list diffLine) :
  forall i, length (fst (walkHunk a ls i)) = emitted ls.
Proof.
  unfold emitted.
  induction ls as [|line rest IH]; intros i; cbn [walkHunk filter].
  - reflexivity.
  - unfold emits at 1. destruct (type line).
    + specialize (IH (S i)). destruct (walkHunk a rest (S i)). cbn in *. lia.
    + apply IH.
    + specialize (IH i). destruct (walkHunk a rest i). cbn in *. lia.
Qed.

Lemma edit_length (h : hunk) : length (edit a h) = emitted (lines h).
Proof. apply walkHunk_length. Qed.

(** [applyHunk] in one line: the cells before the hunk, the edit, the cells
    after it. *)
Lemma applyHunk_eq (h : hunk) :
  applyHunk a h = copyCells a 0 (startOf h) ++ edit a h ++ skipn (endOf h) a.
Proof.
  unfold applyHunk, edit, endOf. fold (startOf h).
  pose proof (walkHunk_snd (lines h) (startOf h)) as Hs.
  destruct (walkHunk a (lines h) (startOf h)) as [middle k].
  cbn [fst snd] in *. subst k. now rewrite copyCells_skipn.
Qed.

End Cells.

(** Two arrays that hold the same cells where a loop reads them give the
    same cells. *)
Lemma copyCells_ext (a b : list (option str)) (i n : nat) :
  (forall j, i <= j < i + n -> cell a j = cell b j) ->
  copyCells a i n = copyCells b i n.
Proof.
  revert i; induction n as [|n IH]; intros i H; [reflexivity|].
  cbn [copyCells]. rewrite (H i) by lia. f_equal. apply IH.
  intros j Hj. apply H. lia.
Qed.

Lemma walkHunk_ext (a b : list (option str)) (ls : list diffLine) :
  forall i,
    (forall j, i <= j < i + consumed ls -> cell a j = cell b j) ->
    fst (walkHunk a ls i) = fst (walkHunk b ls i).
Proof.
  unfold consumed.
  induction ls as [|line rest IH]; intros i H; [reflexivity|].
  cbn [walkHunk]. cbn [filter] in H. unfold consumes at 1 in H.
  destruct (type line); cbn [length] in H.
  - rewrite (H i) by lia. specialize (IH (S i)).
    destruct (walkHunk a rest (S i)), (walkHunk b rest (S i)). cbn [fst] in *.
    f_equal. apply IH. intros j Hj. apply H. lia.
  - apply IH. intros j Hj. apply H. lia.
  - specialize (IH i).
    destruct (walkHunk a rest i), (walkHunk b rest i). cbn [fst] in *.
    f_equal. apply IH. intros j Hj. apply H. lia.
Qed.

Lemma applyAll_cons (a : list (option str)) (h : hunk) (hunks : list hunk) :
  applyAll a (h :: hunks) = applyHunk (applyAll a hunks) h.
Proof. unfold applyAll. cbn [rev]. now rewrite fold_left_app. Qed.

Lemma cell_app_copyCells (a x : list (option str)) (n j : nat) :
  j < n -> cell (copyCells a 0 n ++ x) j = cell a j.
Proof.
  intros Hj. unfold cell at 1.
  rewrite nth_error_app1 by now rewrite copyCells_length.
  now rewrite nth_error_copyCells.
Qed.

Lemma skipn_app_copyCells (a x : list (option str)) (from n : nat) :
  from <= n ->
  skipn from (copyCells a 0 n ++ x) = copyCells a from (n - from) ++ x.
Proof.
  intros H. replace n with (from + (n - from)) at 1 by lia.
  rewrite copyCells_app, <- app_assoc, skipn_app, copyCells_length.
  rewrite Nat.sub_diag, skipn_all2 by now rewrite copyCells_length.
  reflexivity.
Qed.

(** Applying a hunk after those that follow it: below its end the array
    still holds the original, so its offset points where it did, and from
    its start on the result is the forward pass. *)
Lemma applyAll_patchedFrom (a : list (option str)) (hunks : list hunk) :
  forall from,
    ordered from hunks ->
    (forall j, j < from -> cell (applyAll a hunks) j = cell a j)
    /\ skipn from (applyAll a hunks) = patchedFrom a from hunks.
Proof.
  induction hunks as [|h rest IH]; intros from Hord.
  - split; reflexivity.
  - destruct Hord as [Hfrom Hrest].
    destruct (IH (endOf h) Hrest) as [Hcells Hskip].
    assert (Heq : applyAll a (h :: rest)
                  = copyCells a 0 (startOf h) ++ edit a h
                      ++ patchedFrom a (endOf h) rest).
    { rewrite applyAll_cons, applyHunk_eq, Hskip. f_equal.
      - apply copyCells_ext. intros j Hj. apply Hcells. unfold endOf. lia.
      - f_equal. apply walkHunk_ext. intros j Hj. apply Hcells.
        unfold endOf. lia. }
    rewrite Heq. split.
    + intros j Hj. apply cell_app_copyCells. lia.
    + cbn [patchedFrom]. now apply skipn_app_copyCells.
Qed.

(** Where the edit of each hunk lies in the forward pass. *)
Lemma patchedFrom_edit (a : list (option str)) (hunks : list hunk) :
  forall from k h,
    ordered from hunks ->
    nth_error hunks k = Some h ->
    exists pre post,
      patchedFrom a from hunks = pre ++ edit a h ++ post
      /\ Z.of_nat (length pre)
         = (Z.of_nat (startOf h) - Z.of_nat from + shiftBefore hunks k)%Z.
Proof.
  induction hunks as [|h0 rest IH]; intros from k h Hord Hk.
  - destruct k; discriminate.
  - destruct Hord as [Hfrom Hrest]. destruct k as [|k]; cbn [nth_error] in Hk.
    + injection Hk as ->.
      exists (copyCells a from (startOf h - from)), (patchedFrom a (endOf h) rest).
      split; [reflexivity|]. rewrite copyCells_length. cbn [shiftBefore]. lia.
    + destruct (IH (endOf h0) k h Hrest Hk) as (pre & post & Heq & Hlen).
      exists (copyCells a from (startOf h0 - from) ++ edit a h0 ++ pre), post.
      split.
      * cbn [patchedFrom]. rewrite Heq. now rewrite <- !app_assoc.
      * rewrite !length_app, copyCells_length, edit_length.
        cbn [shiftBefore]. unfold delta, endOf in *. lia.
Qed.

Lemma firstn_skipn_middle_app {A} (pre mid post : list A) :
  firstn (length mid) (skipn (length pre) (pre ++ mid ++ post)) = mid.
Proof.
  rewrite skipn_app, skipn_all, Nat.sub_diag. cbn [skipn app].
  rewrite firstn_app, firstn_all, Nat.sub_diag. cbn [firstn]. apply app_nil_r.
Qed.

(** The whole call, once the diff is parsed and the hunks pass. *)
Lemma apply_passes (o d : str) (hunks : list hunk) :
  parseUnifiedDiffHunks (split LF (normalizeLineEndings d)) = Ret hunks ->
  Forall (passes (originalLinesOf (normalizeLineEndings o)) normalized) hunks ->
  applyUnifiedDiff o d
  = Ret (join [LF] (applyAll (map Some (originalLinesOf (normalizeLineEndings o)))
                      hunks)).
Proof.
  intros Hp Hall. unfold applyUnifiedDiff. rewrite Hp. cbn [bind].
  apply validateAll_Ret in Hall. now rewrite Hall.
Qed.

Example growThenShrink_result :
  applyAll (map Some fiveLines) growThenShrink
  = map Some [js "one"; js "uno"; js "line2"; js "line3"; js "line4"].
Proof. reflexivity. Qed.

(** * Validation, line by line *)

Lemma consumed_cons (line : diffLine) (ls : list diffLine) :
  consumed (line :: ls) = (if consumes line then 1 else 0) + consumed ls.
Proof. unfold consumed. cbn [filter]. now destruct (consumes line). Qed.

Lemma emitted_cons (line : diffLine) (ls : list diffLine) :
  emitted (line :: ls) = (if emits line then 1 else 0) + emitted ls.
Proof. unfold emitted. cbn [filter]. now destruct (emits line). Qed.

Lemma index_of_nat (l : list str) (c : nat) :
  index l (Z.of_nat c) = nth_error l c.
Proof.
  unfold index. destruct (Z.ltb_spec (Z.of_nat c) 0); [lia|].
  now rewrite Nat2Z.id.
Qed.

(** One step of [validateFrom] in normalized mode on a line it checks. *)
Lemma validateFrom_normalized_step (l : list str) (line : diffLine)
    (rest : list diffLine) (c : nat) :
  consumes line = true ->
  validateFrom l normalized (line :: rest) (Z.of_nat c)
  = match nth_error l c with
    | Some o =>
        if str_eqb (trim o) (trim (content line))
        then validateFrom l normalized rest (Z.of_nat (S c))
        else Ret false
    | None => Ret false
    end.
Proof.
  intros Hc. cbn [validateFrom]. rewrite index_of_nat.
  replace (Z.of_nat c + 1)%Z with (Z.of_nat (S c)) by lia.
  unfold consumes in Hc.
  destruct (type line); try discriminate;
    (destruct (Z.geb_spec (Z.of_nat c) (Z.of_nat (length l))) as [Hge|Hlt];
     [ assert (E : nth_error l c = None) by (apply nth_error_None; lia);
       now rewrite E
     | destruct (nth_error l c) as [o|] eqn:E;
       [ reflexivity | apply nth_error_None in E; lia ] ]).
Qed.

Lemma validateFrom_add_step (l : list str) (mode : validationMode)
    (line : diffLine) (rest : list diffLine) (i : Z) :
  consumes line = false ->
  validateFrom l mode (line :: rest) i = validateFrom l mode rest i.
Proof.
  intros Hc. cbn [validateFrom]. unfold consumes in Hc.
  now destruct (type line).
Qed.

(** From a cursor that is an index, a walk in normalized mode passes when
    every line it checks agrees with the original up to trimming. *)
Lemma validateFrom_normalized_iff (l : list str) (ls : list diffLine) :
  forall c,
    validateFrom l normalized ls (Z.of_nat c) = Ret true
    <-> (forall i line,
            nth_error ls i = Some line ->
            consumes line = true ->
            exists o,
              nth_error l (c + consumed (firstn i ls)) = Some o
              /\ trim o = trim (content line)).
Proof.
  induction ls as [|line rest IH]; intros c.
  - split; [|reflexivity]. intros _ [|i] line H; discriminate.
  - destruct (consumes line) eqn:Ec.
    + rewrite (validateFrom_normalized_step _ _ _ _ Ec). split.
      * intros H [|i] line' Hi Hc'; cbn [nth_error] in Hi.
        -- injection Hi as <-. cbn [firstn]. unfold consumed at 1. cbn [filter length].
           rewrite Nat.add_0_r.
           destruct (nth_error l c) as [o|]; [|discriminate].
           destruct (str_eqb (trim o) (trim (content line))) eqn:E; [|discriminate].
           exists o. split; [reflexivity|now apply str_eqb_eq].
        -- destruct (nth_error l c) as [o|]; [|discriminate].
           destruct (str_eqb (trim o) (trim (content line))); [|discriminate].
           apply IH with (i := i) (line := line') in H; [|assumption|assumption].
           cbn [firstn]. rewrite consumed_cons, Ec.
           now replace (c + (1 + consumed (firstn i rest)))
             with (S c + consumed (firstn i rest)) by lia.
      * intros H. destruct (H 0 line eq_refl Ec) as (o & Ho & Et).
        cbn [firstn] in Ho. unfold consumed in Ho. cbn [filter length] in Ho.
        rewrite Nat.add_0_r in Ho. rewrite Ho.
        apply str_eqb_eq in Et. rewrite Et. apply IH.
        intros i line' Hi Hc'. specialize (H (S i) line' Hi Hc').
        cbn [firstn] in H. rewrite consumed_cons, Ec in H.
        now replace (c + (1 + consumed (firstn i rest)))
          with (S c + consumed (firstn i rest)) in H by lia.
    + rewrite (validateFrom_add_step _ _ _ _ _ Ec), IH. split.
      * intros H [|i] line' Hi Hc'; cbn [nth_error] in Hi.
        -- injection Hi as <-. congruence.
        -- cbn [firstn]. rewrite consumed_cons, Ec. now apply H.
      * intros H i line' Hi Hc'. specialize (H (S i) line' Hi Hc').
        cbn [firstn] in H. now rewrite consumed_cons, Ec in H.
Qed.

(** A hunk passes in normalized mode exactly when its checked lines agree
    with the original up to trimming. *)
Lemma passes_iff_agrees (l : list str) (h : hunk) :
  passes l normalized h <-> agreesUpToTrim l h.
Proof.
  unfold agreesUpToTrim. split.
  - intros Hp. split; [now apply (passes_wellPlaced l)|].
    unfold passes, validateHunk in Hp.
    destruct (Z.ltb_spec (oldStart h) 0) as [Hneg|Hpos].
    + rewrite (validateFrom_negative _ _ _ Hneg) in Hp.
      destruct (forallb (fun l0 => negb (consumes l0)) (lines h)) eqn:Ea;
        [|discriminate].
      intros i line Hi Hc. rewrite forallb_forall in Ea.
      apply nth_error_In in Hi. apply Ea in Hi. rewrite Hc in Hi. discriminate.
    + rewrite <- (Z2Nat.id (oldStart h)) in Hp by assumption.
      now apply validateFrom_normalized_iff.
  - intros [[Hpos|Hadd] H]; unfold passes, validateHunk.
    + rewrite <- (Z2Nat.id (oldStart h)) by assumption.
      now apply validateFrom_normalized_iff.
    + now apply validateFrom_adds.
Qed.

(** * Applying a diff twice *)

(** C3, as stated, does not hold: a diff that adds a line after a context
    line that stays applies again. [a] becomes [a, b] and then [a, b, b]. *)
Lemma second_application_may_succeed :
  ~ (forall o d o',
        applyUnifiedDiff o d = Ret o' ->
        exists n, applyUnifiedDiff o' d = Throw (HunkValidationFailed n)).
Proof.
  intros H.
  destruct (H (js "a") (text ["@@ -1 +1,2 @@"; " a"; "+b"]) (text ["a"; "b"]))
    as [n Hn].
  - vm_compute. reflexivity.
  - vm_compute in Hn. discriminate.
Qed.

Example second_application_succeeds :
  applyUnifiedDiff (text ["a"; "b"]) (text ["@@ -1 +1,2 @@"; " a"; "+b"])
  = Ret (text ["a"; "b"; "b"]).
Proof. vm_compute. reflexivity. Qed.

(** The diff of the first scenario replaces a line: applied to its own
    result it fails. *)
Example second_application_fails :
  applyUnifiedDiff
    (text ["function hello() {"; "  console.log('world');"; "  return true;"; "}"])
    (text ["@@ -1,4 +1,4 @@"; " function hello() {"; "-  console.log('hello');";
           "+  console.log('world');"; "   return true;"; " }"])
  = Throw (HunkValidationFailed 1).
Proof. vm_compute. reflexivity. Qed.

(** C3, as the code has it. When a diff applied to [o] gives [o'], applying
    it to [o'] validates the same hunks against the lines of [o']. The call
    returns when the checked lines of every hunk agree, up to trimming, with
    the lines of [o'] they now stand against; it throws
    [HunkValidationFailed] with the line of the first hunk for which they do
    not; and it throws no other error. *)
Theorem second_application_outcome (o d o' : str) :
  applyUnifiedDiff o d = Ret o' ->
  exists hunks,
    parseUnifiedDiffHunks (split LF (normalizeLineEndings d)) = Ret hunks
    /\ (Forall (agreesUpToTrim (originalLinesOf (normalizeLineEndings o'))) hunks ->
        applyUnifiedDiff o' d
        = Ret (join [LF] (applyAll (map Some (originalLinesOf (normalizeLineEndings o')))
                            hunks)))
    /\ (forall pre h post,
          hunks = pre ++ h :: post ->
          Forall (agreesUpToTrim (originalLinesOf (normalizeLineEndings o'))) pre ->
          ~ agreesUpToTrim (originalLinesOf (normalizeLineEndings o')) h ->
          applyUnifiedDiff o' d = Throw (HunkValidationFailed (oldStart h + 1)))
    /\ ((exists o'', applyUnifiedDiff o' d = Ret o'')
        \/ (exists n, applyUnifiedDiff o' d = Throw (HunkValidationFailed n))).
Proof.
  intros H. apply apply_Ret_inv in H as (hunks & Hp & Hpass & _).
  assert (Hw : Forall wellPlaced hunks).
  { eapply Forall_impl; [|exact Hpass]. intros h. apply passes_wellPlaced. }
  exists hunks. split; [exact Hp|].
  set (lines' := originalLinesOf (normalizeLineEndings o')).
  assert (Happ : applyUnifiedDiff o' d
                 = (_ <- validateAll lines' hunks strict ;;
                    Ret (join [LF] (applyAll (map Some lines') hunks)))).
  { unfold applyUnifiedDiff. now rewrite Hp. }
  assert (Hiff : forall hs,
             Forall (agreesUpToTrim lines') hs
             <-> Forall (passes lines' normalized) hs).
  { intros hs. split; apply Forall_impl; intros h; apply passes_iff_agrees. }
  split; [|split].
  - intros Hall. rewrite Happ. apply Hiff, validateAll_Ret in Hall.
    now rewrite Hall.
  - intros pre h post -> Hpre Hh. rewrite Happ.
    apply Hiff in Hpre. rewrite <- passes_iff_agrees in Hh.
    destruct (validateAll lines' (pre ++ h :: post) strict) as [[]|e] eqn:Ev.
    + apply validateAll_Ret in Ev. apply Forall_app in Ev as [_ Ev].
      inversion Ev; subst. contradiction.
    + cbn [bind].
      destruct (validateAll_fails_wellPlaced _ _ _ Hw Ev)
        as (pre' & h' & post' & Heq & Hpre' & Hh' & ->).
      enough (h' = h) by now subst.
      assert (Ef : firstFailing lines' normalized (pre ++ h :: post)
                   = firstFailing lines' normalized (pre' ++ h' :: post'))
        by now rewrite Heq.
      rewrite !firstFailing_skip in Ef by assumption.
      cbn [firstFailing] in Ef. rewrite Hh' in Ef. cbn [bind] in Ef.
      apply Forall_app in Hw as [_ Hw]. inversion Hw as [|? ? Hwh _]; subst.
      apply (validateHunk_wellPlaced lines') in Hwh as [[|] Hb].
      * contradiction.
      * rewrite Hb in Ef. cbn [bind] in Ef. congruence.
  - rewrite Happ.
    destruct (validateAll lines' hunks strict) as [[]|e] eqn:Ev; cbn [bind].
    + left. eauto.
    + right. destruct (validateAll_fails_wellPlaced _ _ _ Hw Ev)
        as (_ & h & _ & _ & _ & _ & ->). eauto.
Qed.

Lemma second_application_outcome_witness :
  (exists o'',
      applyUnifiedDiff (text ["a"; "b"]) (text ["@@ -1 +1,2 @@"; " a"; "+b"])
      = Ret o'')
  \/ (exists n,
        applyUnifiedDiff (text ["a"; "b"]) (text ["@@ -1 +1,2 @@"; " a"; "+b"])
        = Throw (HunkValidationFailed n)).
Proof.
  destruct (second_application_outcome
              (js "a") (text ["@@ -1 +1,2 @@"; " a"; "+b"]) (text ["a"; "b"]))
    as (hunks & _ & _ & _ & H).
  - vm_compute. reflexivity.
  - exact H.
Defined.

(** * What a context line writes *)

Lemma walkHunk_context (a : list (option str)) (ls : list diffLine) :
  forall c i line,
    nth_error ls i = Some line ->
    type line = context ->
    nth_error (fst (walkHunk a ls c)) (emitted (firstn i ls))
    = Some (cell a (c + consumed (firstn i ls))).
Proof.
  induction ls as [|l0 rest IH]; intros c i line Hi Ht.
  - destruct i; discriminate.
  - destruct i as [|i]; cbn [nth_error] in Hi.
    + injection Hi as ->. cbn [firstn walkHunk]. rewrite Ht.
      destruct (walkHunk a rest (S c)). cbn. now rewrite Nat.add_0_r.
    + cbn [firstn]. rewrite emitted_cons, consumed_cons.
      cbn [walkHunk]. unfold emits, consumes.
      destruct (type l0).
      * specialize (IH (S c) i line Hi Ht).
        destruct (walkHunk a rest (S c)). cbn [fst] in *. cbn [Nat.add nth_error].
        rewrite IH. f_equal. f_equal. lia.
      * cbn [Nat.add]. rewrite (IH (S c) i line Hi Ht). f_equal. f_equal. lia.
      * specialize (IH c i line Hi Ht).
        destruct (walkHunk a rest c). cbn [fst] in *. cbn [Nat.add nth_error].
        exact IH.
Qed.

(** The result of the reverse application around the edit of one hunk. *)
Lemma applyAll_edit_at (a : list (option str)) (hunks : list hunk) (k : nat)
    (h : hunk) :
  ordered 0 hunks ->
  nth_error hunks k = Some h ->
  exists pre post,
    applyAll a hunks = pre ++ edit a h ++ post
    /\ length pre = newOffset hunks k h.
Proof.
  intros Hord Hk.
  destruct (applyAll_patchedFrom a hunks 0 Hord) as [_ Heq]. cbn [skipn] in Heq.
  destruct (patchedFrom_edit a hunks 0 k h Hord Hk) as (pre & post & Hp & Hlen).
  exists pre, post. split; [congruence|]. unfold newOffset. lia.
Qed.

(** C6. Take hunks in order whose checked lines differ from the original
    lines they stand against by leading and trailing white space at most.
    The validation phase, which starts in strict mode, succeeds. When every
    hunk starts within the original (a hunk of add lines only is checked
    against no line and could start anywhere), then, in the result, the line
    that a context line of a hunk writes is the original line, white space
    and all: it stands at the hunk's new offset plus the number of lines the
    hunk wrote before it, and it is the original's text [o], not the hunk's
    [content]; and the whole call returns this result. *)
Theorem context_line_keeps_original_text (originalLines : list str)
    (hunks : list hunk) :
  ordered 0 hunks ->
  Forall (agreesUpToTrim originalLines) hunks ->
  validateAll originalLines hunks strict = Ret tt
  /\ (Forall (fun h => startOf h <= length originalLines) hunks ->
      (forall k h i line,
          nth_error hunks k = Some h ->
          nth_error (lines h) i = Some line ->
          type line = context ->
          exists o,
            nth_error originalLines (startOf h + consumed (firstn i (lines h)))
            = Some o
            /\ trim o = trim (content line)
            /\ nth_error (applyAll (map Some originalLines) hunks)
                 (newOffset hunks k h + emitted (firstn i (lines h)))
               = Some (Some o))
      /\ (forall o d,
            originalLinesOf (normalizeLineEndings o) = originalLines ->
            parseUnifiedDiffHunks (split LF (normalizeLineEndings d)) = Ret hunks ->
            applyUnifiedDiff o d
            = Ret (join [LF] (applyAll (map Some originalLines) hunks)))).
Proof.
  intros Hord Hagree.
  assert (Hpass : Forall (passes originalLines normalized) hunks).
  { eapply Forall_impl; [|exact Hagree]. intros h. apply passes_iff_agrees. }
  split; [now apply validateAll_Ret|]. intros _. split.
  - intros k h i line Hk Hi Ht.
    rewrite Forall_forall in Hagree.
    destruct (Hagree h (nth_error_In _ _ Hk)) as [_ Hlines].
    destruct (Hlines i line Hi) as (o & Ho & Et).
    { unfold consumes. now rewrite Ht. }
    exists o. split; [exact Ho|]. split; [exact Et|].
    destruct (applyAll_edit_at (map Some originalLines) hunks k h Hord Hk)
      as (pre & post & -> & <-).
    rewrite nth_error_app2 by lia.
    replace (length pre + emitted (firstn i (lines h)) - length pre)
      with (emitted (firstn i (lines h))) by lia.
    assert (Hw := walkHunk_context (map Some originalLines) (lines h)
                    (startOf h) i line Hi Ht).
    fold (edit (map Some originalLines) h) in Hw.
    rewrite nth_error_app1 by (apply nth_error_Some; congruence).
    rewrite Hw. unfold cell. rewrite nth_error_map, Ho. reflexivity.
  - intros o d <- Hp. now apply apply_passes.
Qed.

Lemma context_line_keeps_original_text_witness :
  validateAll whitespaceLines [whitespaceHunk] strict = Ret tt
  /\ nth_error (applyAll (map Some whitespaceLines) [whitespaceHunk]) 0
     = Some (Some (js "  function test() {  ")).
Proof.
  destruct (context_line_keeps_original_text whitespaceLines [whitespaceHunk])
    as (Hv & Hwithin).
  - cbv. repeat split; lia.
  - constructor; [|constructor]. apply passes_iff_agrees. vm_compute. reflexivity.
  - destruct Hwithin as (Hline & _); [repeat constructor; cbv; lia|].
    split; [exact Hv|].
    destruct (Hline 0 whitespaceHunk 0
                {| type := context; content := js "  function test() {" |}
                eq_refl eq_refl eq_refl) as (o & Ho & _ & Hout).
    cbn in Ho. injection Ho as <-. exact Hout.
Defined.

Example whitespace_strict_fails :
  validateHunk whitespaceLines whitespaceHunk strict = Ret false.
Proof. reflexivity. Qed.

(** * Where the reverse application puts each line *)

Lemma walkHunk_add (a : list (option str)) (ls : list diffLine) :
  forall c i line,
    nth_error ls i = Some line ->
    type line = add ->
    nth_error (fst (walkHunk a ls c)) (emitted (firstn i ls))
    = Some (Some (content line)).
Proof.
  induction ls as [|l0 rest IH]; intros c i line Hi Ht.
  - destruct i; discriminate.
  - destruct i as [|i]; cbn [nth_error] in Hi.
    + injection Hi as ->. cbn [firstn walkHunk]. rewrite Ht.
      destruct (walkHunk a rest c). reflexivity.
    + cbn [firstn]. rewrite emitted_cons.
      cbn [walkHunk]. unfold emits.
      destruct (type l0).
      * specialize (IH (S c) i line Hi Ht).
        destruct (walkHunk a rest (S c)). cbn [fst] in *. exact IH.
      * cbn [Nat.add]. exact (IH (S c) i line Hi Ht).
      * specialize (IH c i line Hi Ht).
        destruct (walkHunk a rest c). cbn [fst] in *. exact IH.
Qed.

(** A line that is checked comes before the end of what the hunk reads. *)
Lemma consumed_firstn_lt (ls : list diffLine) :
  forall i line,
    nth_error ls i = Some line ->
    consumes line = true ->
    consumed (firstn i ls) < consumed ls.
Proof.
  induction ls as [|l0 rest IH]; intros [|i] line Hi Hc; try discriminate;
    cbn [nth_error] in Hi; cbn [firstn]; rewrite !consumed_cons.
  - injection Hi as ->. rewrite Hc. unfold consumed. cbn [filter length]. lia.
  - specialize (IH i line Hi Hc). lia.
Qed.

Lemma cell_map_Some (l : list str) (j : nat) :
  cell (map Some l) j = nth_error l j.
Proof. unfold cell. rewrite nth_error_map. now destruct (nth_error l j). Qed.

(** In the forward pass, an original line outside the hunks stands where it
    stood, moved by what the hunks before it add and delete. *)
Lemma patchedFrom_between (a : list (option str)) (hunks : list hunk) :
  forall from k j x,
    ordered from hunks ->
    from <= j ->
    betweenHunks hunks k j ->
    nth_error a j = Some x ->
    exists p,
      Z.of_nat p = (Z.of_nat j - Z.of_nat from + shiftBefore hunks k)%Z
      /\ nth_error (patchedFrom a from hunks) p = Some x.
Proof.
  induction hunks as [|h rest IH]; intros from k j x Hord Hfrom [Hbefore Hafter] Hx.
  - exists (j - from). split.
    + destruct k; cbn [shiftBefore]; lia.
    + cbn [patchedFrom]. rewrite nth_error_skipn, <- Hx. f_equal. lia.
  - destruct Hord as [Hs Hord]. destruct k as [|k].
    + cbn [skipn] in Hafter. inversion Hafter as [|? ? Hj _]; subst.
      exists (j - from). split; [cbn [shiftBefore]; lia|].
      cbn [patchedFrom]. rewrite nth_error_app1 by (rewrite copyCells_length; lia).
      rewrite nth_error_copyCells by lia.
      replace (from + (j - from)) with j by lia.
      unfold cell. now rewrite Hx.
    + cbn [firstn skipn] in Hbefore, Hafter.
      inversion Hbefore as [|? ? Hj Hbefore']; subst.
      destruct (IH (endOf h) k j x Hord Hj (conj Hbefore' Hafter) Hx)
        as (p & Hp & Hnth).
      exists ((startOf h - from) + (emitted (lines h) + p)). split.
      * cbn [shiftBefore]. unfold delta, endOf in *. lia.
      * cbn [patchedFrom].
        rewrite nth_error_app2 by (rewrite copyCells_length; lia).
        rewrite copyCells_length.
        rewrite nth_error_app2 by (rewrite edit_length; lia).
        rewrite edit_length. rewrite <- Hnth. f_equal. lia.
Qed.

Lemma patchedFrom_length (a : list (option str)) (hunks : list hunk) :
  Forall (fun h => endOf h <= length a) hunks ->
  forall from,
    from <= length a ->
    ordered from hunks ->
    Z.of_nat (length (patchedFrom a from hunks))
    = (Z.of_nat (length a) - Z.of_nat from
       + shiftBefore hunks (length hunks))%Z.
Proof.
  induction 1 as [|h rest Hh _ IH]; intros from Hfrom Ho.
  - cbn [patchedFrom shiftBefore length]. rewrite length_skipn. lia.
  - destruct Ho as [Hs Ho]. cbn [patchedFrom length shiftBefore].
    rewrite !length_app, copyCells_length, edit_length.
    pose proof (IH (endOf h) Hh Ho) as E. unfold delta, endOf in *. lia.
Qed.

(** C1. Take hunks that do not overlap, are listed by non-decreasing
    [oldStart] and lie within the original. Applying them from the last to
    the first, each to the array the one before left, gives the content in
    which every hunk's edit stands at its own offset moved by what the hunks
    before it add and delete, whatever the hunks after it do: there an add
    line has put its own text and a context line the original line it stands
    against, each after the lines the hunk wrote before it. An original line
    outside the hunks stands where it stood, moved by what the hunks before
    it add and delete, and the number of lines is the original's plus the
    lines added minus the lines deleted. This is the content the whole call
    returns when the hunks pass validation. *)
Theorem reverse_application_places_edits (originalLines : list str)
    (hunks : list hunk) :
  ordered 0 hunks ->
  Forall (fun h => endOf h <= length originalLines) hunks ->
  (forall k h i line,
      nth_error hunks k = Some h ->
      nth_error (lines h) i = Some line ->
      type line = add ->
      nth_error (applyAll (map Some originalLines) hunks)
        (newOffset hunks k h + emitted (firstn i (lines h)))
      = Some (Some (content line)))
  /\ (forall k h i line,
        nth_error hunks k = Some h ->
        nth_error (lines h) i = Some line ->
        type line = context ->
        exists o,
          nth_error originalLines (startOf h + consumed (firstn i (lines h)))
          = Some o
          /\ nth_error (applyAll (map Some originalLines) hunks)
               (newOffset hunks k h + emitted (firstn i (lines h)))
             = Some (Some o))
  /\ (forall k j o,
        betweenHunks hunks k j ->
        nth_error originalLines j = Some o ->
        nth_error (applyAll (map Some originalLines) hunks)
          (Z.to_nat (Z.of_nat j + shiftBefore hunks k))
        = Some (Some o))
  /\ Z.of_nat (length (applyAll (map Some originalLines) hunks))
     = (Z.of_nat (length originalLines) + shiftBefore hunks (length hunks))%Z
  /\ (forall o d,
        originalLinesOf (normalizeLineEndings o) = originalLines ->
        parseUnifiedDiffHunks (split LF (normalizeLineEndings d)) = Ret hunks ->
        Forall (passes originalLines normalized) hunks ->
        applyUnifiedDiff o d
        = Ret (join [LF] (applyAll (map Some originalLines) hunks))).
Proof.
  intros Hord Hin.
  assert (Hline : forall k h i line,
             nth_error hunks k = Some h ->
             nth_error (lines h) i = Some line ->
             forall x,
               nth_error (edit (map Some originalLines) h)
                 (emitted (firstn i (lines h))) = Some x ->
               nth_error (applyAll (map Some originalLines) hunks)
                 (newOffset hunks k h + emitted (firstn i (lines h)))
               = Some x).
  { intros k h i line Hk Hi x Hx.
    destruct (applyAll_edit_at (map Some originalLines) hunks k h Hord Hk)
      as (pre & post & -> & <-).
    rewrite nth_error_app2 by lia.
    replace (length pre + emitted (firstn i (lines h)) - length pre)
      with (emitted (firstn i (lines h))) by lia.
    rewrite nth_error_app1 by (apply nth_error_Some; congruence).
    exact Hx. }
  destruct (applyAll_patchedFrom (map Some originalLines) hunks 0 Hord)
    as [_ Heq].
  cbn [skipn] in Heq.
  split; [|split; [|split; [|split]]].
  - intros k h i line Hk Hi Ht. apply (Hline k h i line Hk Hi).
    now apply walkHunk_add.
  - intros k h i line Hk Hi Ht.
    rewrite Forall_forall in Hin. specialize (Hin h (nth_error_In _ _ Hk)).
    assert (Hc : consumes line = true) by (unfold consumes; now rewrite Ht).
    pose proof (consumed_firstn_lt (lines h) i line Hi Hc) as Hlt.
    destruct (nth_error originalLines
                (startOf h + consumed (firstn i (lines h)))) as [o|] eqn:Eo.
    + exists o. split; [reflexivity|].
      apply (Hline k h i line Hk Hi). unfold edit.
      rewrite (walkHunk_context _ _ _ i line Hi Ht), cell_map_Some.
      now rewrite Eo.
    + apply nth_error_None in Eo. unfold endOf in Hin. lia.
  - intros k j o Hb Ho.
    destruct (patchedFrom_between (map Some originalLines) hunks 0 k j (Some o)
                Hord (Nat.le_0_l j) Hb) as (p & Hp & Hnth).
    { now rewrite nth_error_map, Ho. }
    rewrite Heq. replace (Z.to_nat _) with p by lia. exact Hnth.
  - rewrite Heq.
    rewrite (patchedFrom_length (map Some originalLines) hunks) ;
      rewrite ?length_map; try lia; assumption.
  - intros o d <- Hp Hall. now apply apply_passes.
Qed.

Lemma reverse_application_places_edits_witness :
  nth_error (applyAll (map Some fiveLines) growThenShrink) 1
  = Some (Some (js "uno"))
  /\ nth_error (applyAll (map Some fiveLines) growThenShrink) 3
     = Some (Some (js "line3"))
  /\ length (applyAll (map Some fiveLines) growThenShrink) = 5.
Proof.
  destruct (reverse_application_places_edits fiveLines growThenShrink)
    as (Hadd & _ & Hbetween & Hlen & _).
  - cbv. repeat split; lia.
  - repeat constructor; cbv; lia.
  - split; [|split].
    + exact (Hadd 0 _ 2 _ eq_refl eq_refl eq_refl).
    + apply (Hbetween 1 2 (js "line3")); [|reflexivity].
      split; repeat constructor; cbv; lia.
    + apply Nat2Z.inj. rewrite Hlen. reflexivity.
Defined.

(** * From an empty content and back *)

Lemma apply_unfold (o d : str) :
  applyUnifiedDiff o d
  = applyLines (originalLinesOf (normalizeLineEndings o))
      (split LF (normalizeLineEndings d)).
Proof. reflexivity. Qed.

Lemma plain_cons (c : char) (s : str) :
  plain (c :: s) = true -> c <> CR /\ c <> LF /\ plain s = true.
Proof.
  unfold plain. cbn [forallb]. intros H.
  apply andb_true_iff in H as [Hc Hs]. apply andb_true_iff in Hc as [H1 H2].
  apply negb_true_iff in H1, H2. apply N.eqb_neq in H1, H2. auto.
Qed.

(** Without a CR in the first text, the only CR LF pairs of [x ++ y] are
    those of [y]. *)
Lemma normalize_plain_app (x y : str) :
  plain x = true ->
  (forall r, y <> CR :: r) ->
  normalizeLineEndings (x ++ y) = x ++ normalizeLineEndings y.
Proof.
  intros Hx Hy. induction x as [|c x IH]; [reflexivity|].
  apply plain_cons in Hx as (Hc & _ & Hx). cbn [app].
  rewrite normalize_cons by (intros ->; contradiction).
  now rewrite IH.
Qed.

Lemma normalize_plain (x : str) : plain x = true -> normalizeLineEndings x = x.
Proof.
  intros Hx. rewrite <- (app_nil_r x) at 1.
  rewrite normalize_plain_app; [now rewrite app_nil_r|assumption|discriminate].
Qed.

Lemma split_plain (x : str) : plain x = true -> split LF x = [x].
Proof.
  induction x as [|c x IH]; [reflexivity|]. intros Hx.
  apply plain_cons in Hx as (_ & Hc & Hx). cbn [split].
  apply N.eqb_neq in Hc. rewrite Hc, (IH Hx). reflexivity.
Qed.

Lemma split_plain_app (x y : str) :
  plain x = true -> split LF (x ++ LF :: y) = x :: split LF y.
Proof.
  induction x as [|c x IH]; intros Hx.
  - cbn [app split]. now rewrite N.eqb_refl.
  - apply plain_cons in Hx as (_ & Hc & Hx). cbn [app split].
    apply N.eqb_neq in Hc. rewrite Hc, (IH Hx). reflexivity.
Qed.

Lemma plain_app (x y : str) :
  plain x = true -> plain y = true -> plain (x ++ y) = true.
Proof.
  unfold plain. intros Hx Hy. rewrite forallb_app.
  apply andb_true_iff. now split.
Qed.

(** The lines of the diff that adds three lines. *)
Lemma addThree_lines (a b c : str) :
  plain a = true -> plain b = true -> plain c = true ->
  split LF (normalizeLineEndings (addThree a b c))
  = [js "@@ -0,0 +1,3 @@"; js "+" ++ a; js "+" ++ b; js "+" ++ c].
Proof.
  intros Ha Hb Hc. unfold addThree.
  assert (Pa : plain (js "+" ++ a) = true) by now apply plain_app.
  assert (Pb : plain (js "+" ++ b) = true) by now apply plain_app.
  assert (Pc : plain (js "+" ++ c) = true) by now apply plain_app.
  change (js "@@ -0,0 +1,3 @@" ++ LF :: js "+" ++ a ++ LF :: js "+" ++ b
            ++ LF :: js "+" ++ c)
    with (js "@@ -0,0 +1,3 @@" ++ LF :: (js "+" ++ a) ++ LF :: (js "+" ++ b)
            ++ LF :: (js "+" ++ c)).
  rewrite normalize_plain_app by (reflexivity || discriminate).
  rewrite normalize_cons by discriminate.
  rewrite normalize_plain_app by (assumption || discriminate).
  rewrite normalize_cons by discriminate.
  rewrite normalize_plain_app by (assumption || discriminate).
  rewrite normalize_cons by discriminate.
  rewrite normalize_plain by assumption.
  rewrite !split_plain_app by (assumption || reflexivity).
  now rewrite split_plain.
Qed.

(** A hunk of delete lines checks one original line after the other and
    writes nothing. *)
Lemma validateFrom_deletes (pre post contents : list str) :
  Forall2 (fun o t => trim o = trim t) post contents ->
  validateFrom (pre ++ post) normalized (map deleteLine contents)
    (Z.of_nat (length pre))
  = Ret true.
Proof.
  intros H. revert pre. induction H as [|o t post contents Ht _ IH]; intros pre.
  - reflexivity.
  - cbn [map]. rewrite validateFrom_normalized_step by reflexivity.
    rewrite nth_error_app2, Nat.sub_diag by lia. cbn [nth_error].
    cbn [deleteLine content]. rewrite Ht, str_eqb_refl.
    specialize (IH (pre ++ [o])).
    rewrite <- app_assoc, length_app in IH. cbn [app length] in IH.
    now replace (length pre + 1) with (S (length pre)) in IH by lia.
Qed.

Lemma walkHunk_deletes (a : list (option str)) (contents : list str) :
  forall i, walkHunk a (map deleteLine contents) i = ([], i + length contents).
Proof.
  induction contents as [|t contents IH]; intros i; cbn [map walkHunk].
  - cbn. f_equal. lia.
  - cbn [deleteLine type]. rewrite IH. cbn. f_equal. lia.
Qed.

Lemma delete_all (originalLines contents : list str) (h : hunk) :
  oldStart h = 0%Z ->
  lines h = map deleteLine contents ->
  Forall2 (fun o t => trim o = trim t) originalLines contents ->
  validateAll originalLines [h] strict = Ret tt
  /\ applyAll (map Some originalLines) [h] = [].
Proof.
  intros Hs Hl Hall. split.
  - apply validateAll_Ret. constructor; [|constructor].
    unfold passes, validateHunk. rewrite Hs, Hl.
    exact (validateFrom_deletes [] originalLines contents Hall).
  - unfold applyAll. cbn [rev app fold_left]. unfold applyHunk.
    rewrite Hs, Hl, walkHunk_deletes. cbn [Z.to_nat copyCells app Nat.add].
    rewrite length_map, (Forall2_length Hall), Nat.sub_diag. reflexivity.
Qed.

(** C8. The empty content has no line. Applied to it, the hunk
    [@@ -0,0 +1,3 @@] with three add lines gives the three lines joined by
    LF. A diff whose one hunk starts at line 1 and deletes every line of the
    original, adding none, gives the empty string. *)
Theorem empty_content_roundtrip :
  originalLinesOf [] = []
  /\ (forall a b c,
        plain a = true -> plain b = true -> plain c = true ->
        applyUnifiedDiff [] (addThree a b c) = Ret (a ++ LF :: b ++ LF :: c))
  /\ (forall o d h contents,
        parseUnifiedDiffHunks (split LF (normalizeLineEndings d)) = Ret [h] ->
        oldStart h = 0%Z ->
        lines h = map deleteLine contents ->
        Forall2 (fun x t => trim x = trim t)
          (originalLinesOf (normalizeLineEndings o)) contents ->
        applyUnifiedDiff o d = Ret []).
Proof.
  split; [reflexivity|]. split.
  - intros a b c Ha Hb Hc.
    rewrite apply_unfold, (addThree_lines a b c Ha Hb Hc). reflexivity.
  - intros o d h contents Hp Hs Hl Hall.
    rewrite apply_unfold. unfold applyLines. rewrite Hp. cbn [bind].
    destruct (delete_all _ _ h Hs Hl Hall) as [-> ->]. reflexivity.
Qed.

Lemma empty_content_roundtrip_witness :
  applyUnifiedDiff (text []) (text ["@@ -0,0 +1,3 @@"; "+line1"; "+line2"; "+line3"])
  = Ret (text ["line1"; "line2"; "line3"])
  /\ applyUnifiedDiff (text ["line1"; "line2"; "line3"])
       (text ["@@ -1,3 +0,0 @@"; "-line1"; "-line2"; "-line3"])
     = Ret (text []).
Proof.
  destruct empty_content_roundtrip as (_ & Hadd & Hdel). split.
  - apply (Hadd (js "line1") (js "line2") (js "line3")); reflexivity.
  - apply (Hdel _ _
             {| oldStart := 0; oldCount := 3; newStart := -1; newCount := 0;
                lines := map deleteLine [js "line1"; js "line2"; js "line3"] |}
             [js "line1"; js "line2"; js "line3"]).
    + vm_compute. reflexivity.
    + reflexivity.
    + reflexivity.
    + vm_compute. repeat constructor.
Defined.

Example test_preserve_indentation :
  applyUnifiedDiff
    (text [String.append tab "function test() {";
           String.append tab (String.append tab "return true;");
           String.append tab "}"])
    (text ["@@ -1,3 +1,3 @@";
           String.append " " (String.append tab "function test() {");
           String.append "-" (String.append tab (String.append tab "return true;"));
           String.append "+" (String.append tab (String.append tab "return false;"));
           String.append " " (String.append tab "}")])
  = Ret (text [String.append tab "function test() {";
               String.append tab (String.append tab "return false;");
               String.append tab "}"]).
Proof. vm_compute. reflexivity. Qed.

(** * Beyond the claims: the diff engine *)

(** ** What validation guarantees *)

(** One step of [validateFrom] in strict mode on a line it checks. *)
Lemma validateFrom_strict_step (l : list str) (line : diffLine)
    (rest : list diffLine) (c : nat) :
  consumes line = true ->
  validateFrom l strict (line :: rest) (Z.of_nat c)
  = match nth_error l c with
    | Some o =>
        if str_eqb o (content line)
        then validateFrom l strict rest (Z.of_nat (S c))
        else Ret false
    | None => Ret false
    end.
Proof.
  intros Hc. cbn [validateFrom]. rewrite index_of_nat.
  replace (Z.of_nat c + 1)%Z with (Z.of_nat (S c)) by lia.
  unfold consumes in Hc.
  destruct (type line); try discriminate;
    (destruct (Z.geb_spec (Z.of_nat c) (Z.of_nat (length l))) as [Hge|Hlt];
     [ assert (E : nth_error l c = None) by (apply nth_error_None; lia);
       now rewrite E
     | destruct (nth_error l c) as [o|] eqn:E;
       [ reflexivity | apply nth_error_None in E; lia ] ]).
Qed.

Lemma skipn_nth_error {A} (l : list A) (c : nat) (o : A) :
  nth_error l c = Some o -> skipn c l = o :: skipn (S c) l.
Proof.
  revert c; induction l as [|x l IH]; intros [|c] H; try discriminate.
  - injection H as ->. reflexivity.
  - cbn [nth_error] in H. cbn [skipn]. now rewrite (IH c H).
Qed.

Lemma oldTexts_cons (line : diffLine) (ls : list diffLine) :
  oldTexts (line :: ls)
  = if consumes line then content line :: oldTexts ls else oldTexts ls.
Proof. unfold oldTexts. cbn [filter]. now destruct (consumes line). Qed.

Lemma newTexts_cons (line : diffLine) (ls : list diffLine) :
  newTexts (line :: ls)
  = if emits line then content line :: newTexts ls else newTexts ls.
Proof. unfold newTexts. cbn [filter]. now destruct (emits line). Qed.

Lemma oldTexts_length (ls : list diffLine) : length (oldTexts ls) = consumed ls.
Proof. unfold oldTexts, consumed. apply length_map. Qed.

Lemma newTexts_length (ls : list diffLine) : length (newTexts ls) = emitted ls.
Proof. unfold newTexts, emitted. apply length_map. Qed.

(** In strict mode a walk passes exactly when the original holds, from the
    cursor on, the texts the hunk expects. *)
Lemma validateFrom_strict_iff (l : list str) (ls : list diffLine) :
  forall c,
    validateFrom l strict ls (Z.of_nat c) = Ret true
    <-> firstn (consumed ls) (skipn c l) = oldTexts ls.
Proof.
  induction ls as [|line rest IH]; intros c.
  - split; reflexivity.
  - rewrite consumed_cons, oldTexts_cons. destruct (consumes line) eqn:Ec.
    + rewrite (validateFrom_strict_step _ _ _ _ Ec). cbn [Nat.add].
      destruct (nth_error l c) as [o|] eqn:En.
      * rewrite (skipn_nth_error _ _ _ En). cbn [firstn].
        destruct (str_eqb o (content line)) eqn:E.
        -- apply str_eqb_eq in E. subst o. rewrite IH. split.
           ++ now intros ->.
           ++ intros H. now injection H.
        -- split; [discriminate|]. intros H. injection H as H _.
           subst o. now rewrite str_eqb_refl in E.
      * apply nth_error_None in En. rewrite skipn_all2 by assumption.
        cbn [firstn]. split; discriminate.
    + rewrite (validateFrom_add_step _ _ _ _ _ Ec). apply IH.
Qed.

(** A walk that passes has read lines that exist. *)
Lemma validateFrom_in_bounds (l : list str) (mode : validationMode)
    (ls : list diffLine) :
  forall c,
    validateFrom l mode ls (Z.of_nat c) = Ret true ->
    consumed ls = 0 \/ c + consumed ls <= length l.
Proof.
  assert (G : forall c,
             validateFrom l normalized ls (Z.of_nat c) = Ret true ->
             consumed ls = 0 \/ c + consumed ls <= length l).
  { induction ls as [|line rest IH]; intros c H; [now left|].
    rewrite consumed_cons. destruct (consumes line) eqn:Ec.
    - rewrite (validateFrom_normalized_step _ _ _ _ Ec) in H.
      destruct (nth_error l c) as [o|] eqn:En; [|discriminate].
      destruct (str_eqb (trim o) (trim (content line))); [|discriminate].
      assert (c < length l) by (apply nth_error_Some; congruence).
      right. destruct (IH (S c) H); lia.
    - rewrite (validateFrom_add_step _ _ _ _ _ Ec) in H. now apply IH. }
  intros c H. apply G. destruct mode; [|exact H].
  now apply validateFrom_strict_normalized.
Qed.

(** X1. A hunk passes validation, in either mode, only if it checks no line
    or starts at an index that is not negative and ends within the
    original. A hunk that starts at such an index, checks some line and
    reaches past the end of the original fails with [false] in either mode:
    it does not throw. *)
Theorem validated_hunk_in_bounds (originalLines : list str) (h : hunk)
    (mode : validationMode) :
  (validateHunk originalLines h mode = Ret true ->
   consumed (lines h) = 0
   \/ ((0 <= oldStart h)%Z /\ endOf h <= length originalLines))
  /\ ((0 <= oldStart h)%Z ->
      0 < consumed (lines h) ->
      length originalLines < endOf h ->
      validateHunk originalLines h mode = Ret false).
Proof.
  assert (Hpass : validateHunk originalLines h mode = Ret true ->
                  consumed (lines h) = 0
                  \/ ((0 <= oldStart h)%Z /\ endOf h <= length originalLines)).
  { intros H. destruct (Z.ltb_spec (oldStart h) 0) as [Hneg|Hpos].
    - left. assert (Hn : validateHunk originalLines h normalized = Ret true).
      { destruct mode; [now apply validateFrom_strict_normalized|exact H]. }
      unfold validateHunk in Hn.
      rewrite (validateFrom_negative _ _ _ Hneg) in Hn.
      destruct (forallb (fun l0 => negb (consumes l0)) (lines h)) eqn:Ea;
        [|discriminate].
      unfold consumed. rewrite forallb_forall in Ea.
      destruct (filter consumes (lines h)) as [|x xs] eqn:Ef; [reflexivity|].
      assert (Hx : In x (filter consumes (lines h))) by (rewrite Ef; now left).
      apply filter_In in Hx as [Hin Hc]. apply Ea in Hin.
      rewrite Hc in Hin. discriminate.
    - unfold validateHunk in H.
      rewrite <- (Z2Nat.id (oldStart h)) in H by assumption.
      apply validateFrom_in_bounds in H. unfold endOf, startOf.
      destruct H as [H|H]; [now left|right; now split]. }
  split; [exact Hpass|].
  intros Hpos Hsome Hlen.
  destruct (validateFrom_nonneg originalLines mode (lines h) (oldStart h) Hpos)
    as [[|] Hb]; [|exact Hb].
  destruct (Hpass Hb) as [H0|[_ Hend]]; unfold endOf in *; lia.
Qed.

(** ** Strict validation and the texts of the diff *)

Lemma copyCells_firstn_skipn (a : list (option str)) (n : nat) :
  forall i, i + n <= length a -> copyCells a i n = firstn n (skipn i a).
Proof.
  induction n as [|n IH]; intros i H; [reflexivity|].
  cbn [copyCells]. rewrite (cell_skipn a i) by lia. cbn [firstn].
  f_equal. apply IH. lia.
Qed.

Lemma copyCells_firstn (a : list (option str)) (n : nat) :
  n <= length a -> copyCells a 0 n = firstn n a.
Proof. intros H. now rewrite copyCells_firstn_skipn by lia. Qed.

(** What the lines of a hunk write when the original holds the texts the
    hunk expects: the texts of its context and add lines. *)
Lemma walkHunk_strict (l : list str) (ls : list diffLine) :
  forall c,
    firstn (consumed ls) (skipn c l) = oldTexts ls ->
    fst (walkHunk (map Some l) ls c) = map Some (newTexts ls).
Proof.
  induction ls as [|line rest IH]; intros c H; [reflexivity|].
  rewrite consumed_cons, oldTexts_cons in H. rewrite newTexts_cons.
  cbn [walkHunk]. unfold consumes, emits in *.
  destruct (type line) eqn:Et; cbn [Nat.add] in H.
  - destruct (nth_error l c) as [o|] eqn:En.
    + rewrite (skipn_nth_error _ _ _ En) in H. cbn [firstn] in H.
      injection H as Ho H. specialize (IH (S c) H).
      destruct (walkHunk (map Some l) rest (S c)). cbn [fst] in *.
      unfold cell. rewrite nth_error_map, En. cbn. now rewrite IH, Ho.
    + apply nth_error_None in En. rewrite skipn_all2 in H by assumption.
      discriminate.
  - destruct (nth_error l c) as [o|] eqn:En.
    + rewrite (skipn_nth_error _ _ _ En) in H. cbn [firstn] in H.
      injection H as _ H. now apply IH.
    + apply nth_error_None in En. rewrite skipn_all2 in H by assumption.
      discriminate.
  - specialize (IH c H). destruct (walkHunk (map Some l) rest c).
    cbn [fst] in *. cbn. now rewrite IH.
Qed.

(** A hunk that passes in strict mode, seen from the cursor [applyHunk]
    uses. *)
Lemma passes_strict_texts (l : list str) (h : hunk) :
  passes l strict h ->
  firstn (consumed (lines h)) (skipn (startOf h) l) = oldTexts (lines h).
Proof.
  intros H. unfold passes, validateHunk in H.
  destruct (Z.ltb_spec (oldStart h) 0) as [Hneg|Hpos].
  - apply validateFrom_strict_normalized in H.
    rewrite (validateFrom_negative _ _ _ Hneg) in H.
    destruct (forallb (fun l0 => negb (consumes l0)) (lines h)) eqn:Ea;
      [|discriminate].
    assert (Hf : filter consumes (lines h) = []).
    { rewrite forallb_forall in Ea.
      destruct (filter consumes (lines h)) as [|x xs] eqn:Ef; [reflexivity|].
      assert (Hx : In x (filter consumes (lines h))) by (rewrite Ef; now left).
      apply filter_In in Hx as [Hin Hc]. apply Ea in Hin.
      rewrite Hc in Hin. discriminate. }
    unfold consumed, oldTexts. now rewrite Hf.
  - rewrite <- (Z2Nat.id (oldStart h)) in H by assumption.
    now apply validateFrom_strict_iff.
Qed.

Lemma applyHunk_texts (l : list str) (h : hunk) :
  firstn (consumed (lines h)) (skipn (startOf h) l) = oldTexts (lines h) ->
  startOf h <= length l ->
  applyHunk (map Some l) h
  = map Some (firstn (startOf h) l ++ newTexts (lines h) ++ skipn (endOf h) l).
Proof.
  intros Ht Hs. rewrite applyHunk_eq. unfold edit.
  rewrite (walkHunk_strict _ _ _ Ht).
  rewrite copyCells_firstn by now rewrite length_map.
  now rewrite !map_app, firstn_map, skipn_map.
Qed.

(** The original around a hunk that passes in strict mode, and the result
    of the hunk. *)
Lemma strict_hunk_split (originalLines : list str) (h : hunk) :
  passes originalLines strict h ->
  startOf h <= length originalLines ->
  originalLines
  = firstn (startOf h) originalLines ++ oldTexts (lines h)
      ++ skipn (endOf h) originalLines
  /\ applyHunk (map Some originalLines) h
     = map Some (firstn (startOf h) originalLines ++ newTexts (lines h)
                   ++ skipn (endOf h) originalLines).
Proof.
  intros Hp Hs. apply passes_strict_texts in Hp. split.
  - rewrite <- Hp. unfold endOf.
    rewrite <- (firstn_skipn (startOf h) originalLines) at 1. f_equal.
    rewrite <- (firstn_skipn (consumed (lines h)) (skipn (startOf h) originalLines)) at 1.
    f_equal. rewrite skipn_skipn. f_equal. lia.
  - now apply applyHunk_texts.
Qed.

(** X2. A hunk that passes strict validation and starts within the original
    replaces the texts it expects by the texts of its context and add lines:
    the original is [pre ++ oldTexts ++ post] with [pre] as long as the
    hunk's start, and the result is [pre ++ newTexts ++ post]. Nothing but
    the diff's own text goes into the hunk's region. *)
Theorem strict_hunk_replaces_texts (originalLines : list str) (h : hunk) :
  passes originalLines strict h ->
  startOf h <= length originalLines ->
  exists pre post,
    length pre = startOf h
    /\ originalLines = pre ++ oldTexts (lines h) ++ post
    /\ applyHunk (map Some originalLines) h
       = map Some (pre ++ newTexts (lines h) ++ post).
Proof.
  intros Hp Hs. destruct (strict_hunk_split originalLines h Hp Hs) as [H1 H2].
  exists (firstn (startOf h) originalLines), (skipn (endOf h) originalLines).
  split; [now apply firstn_length_le|]. now split.
Qed.

Lemma strict_hunk_replaces_texts_witness :
  exists pre post,
    length pre = startOf growHunk
    /\ fiveLines = pre ++ oldTexts (lines growHunk) ++ post
    /\ applyHunk (map Some fiveLines) growHunk
       = map Some (pre ++ newTexts (lines growHunk) ++ post).
Proof.
  apply (strict_hunk_replaces_texts fiveLines growHunk).
  - vm_compute. reflexivity.
  - cbv. lia.
Defined.

Lemma consumed_flip (ls : list diffLine) :
  consumed (map flipLine ls) = emitted ls.
Proof.
  induction ls as [|line rest IH]; [reflexivity|].
  cbn [map]. rewrite consumed_cons, emitted_cons, IH.
  unfold consumes, emits, flipLine. cbn [type]. now destruct (type line).
Qed.

Lemma oldTexts_flip (ls : list diffLine) :
  oldTexts (map flipLine ls) = newTexts ls.
Proof.
  induction ls as [|line rest IH]; [reflexivity|].
  cbn [map]. rewrite oldTexts_cons, newTexts_cons, IH.
  unfold consumes, emits, flipLine. cbn [type content]. now destruct (type line).
Qed.

Lemma newTexts_flip (ls : list diffLine) :
  newTexts (map flipLine ls) = oldTexts ls.
Proof.
  induction ls as [|line rest IH]; [reflexivity|].
  cbn [map]. rewrite oldTexts_cons, newTexts_cons, IH.
  unfold consumes, emits, flipLine. cbn [type content]. now destruct (type line).
Qed.

Lemma firstn_app_exact {A} (x y : list A) : firstn (length x) (x ++ y) = x.
Proof.
  rewrite firstn_app, firstn_all, Nat.sub_diag. cbn [firstn]. apply app_nil_r.
Qed.

Lemma skipn_app_exact {A} (x y : list A) : skipn (length x) (x ++ y) = y.
Proof. rewrite skipn_app, skipn_all, Nat.sub_diag. reflexivity. Qed.

(** X3. Undoing a hunk. When [h] passes strict validation and starts within
    the original, the hunk with deletes and adds exchanged, placed where [h]
    wrote, passes strict validation against the result of [h], and applying
    it gives the original lines back. *)
Theorem inverse_hunk_restores (originalLines : list str) (h : hunk) :
  passes originalLines strict h ->
  startOf h <= length originalLines ->
  exists patchedLines,
    applyHunk (map Some originalLines) h = map Some patchedLines
    /\ passes patchedLines strict (inverseHunk h)
    /\ applyHunk (map Some patchedLines) (inverseHunk h)
       = map Some originalLines.
Proof.
  intros Hp Hs.
  destruct (strict_hunk_split originalLines h Hp Hs) as [Hsplit Happ].
  set (pre := firstn (startOf h) originalLines) in *.
  set (post := skipn (endOf h) originalLines) in *.
  assert (Hpre : length pre = startOf h) by (apply firstn_length_le; exact Hs).
  exists (pre ++ newTexts (lines h) ++ post). split; [exact Happ|].
  assert (Hstart : startOf (inverseHunk h) = startOf h).
  { unfold startOf, inverseHunk. cbn [oldStart]. apply Nat2Z.id. }
  assert (Htexts : firstn (consumed (lines (inverseHunk h)))
                     (skipn (startOf (inverseHunk h))
                        (pre ++ newTexts (lines h) ++ post))
                   = oldTexts (lines (inverseHunk h))).
  { rewrite Hstart. cbn [inverseHunk lines].
    rewrite consumed_flip, oldTexts_flip, <- Hpre, skipn_app_exact.
    rewrite <- newTexts_length. apply firstn_app_exact. }
  split.
  - unfold passes, validateHunk. cbn [inverseHunk oldStart lines].
    apply validateFrom_strict_iff. rewrite <- Hstart. exact Htexts.
  - rewrite (applyHunk_texts _ _ Htexts).
    + rewrite Hstart. unfold endOf. rewrite Hstart. cbn [inverseHunk lines].
      rewrite consumed_flip, newTexts_flip, <- Hpre, firstn_app_exact.
      rewrite <- newTexts_length.
      replace (length pre + length (newTexts (lines h)))
        with (length (pre ++ newTexts (lines h))) by apply length_app.
      rewrite (app_assoc pre (newTexts (lines h)) post), skipn_app_exact.
      now rewrite <- Hsplit.
    + rewrite Hstart, length_app. lia.
Qed.

Lemma inverse_hunk_restores_witness :
  exists patchedLines,
    applyHunk (map Some fiveLines) growHunk
    = map Some patchedLines
    /\ passes patchedLines strict
         (inverseHunk growHunk)
    /\ applyHunk (map Some patchedLines)
         (inverseHunk growHunk)
       = map Some fiveLines.
Proof.
  apply (inverse_hunk_restores fiveLines growHunk).
  - vm_compute. reflexivity.
  - cbv. lia.
Defined.

(** ** Line counts, context lines and the end of the content *)

(** X4. A hunk that ends within the array changes its length by the lines
    it adds minus the lines it deletes; so do hunks in order, together. *)
Theorem line_count_after_patch (a : list (option str)) (hunks : list hunk) :
  ordered 0 hunks ->
  Forall (fun h => endOf h <= length a) hunks ->
  Z.of_nat (length (applyAll a hunks))
  = (Z.of_nat (length a) + shiftBefore hunks (length hunks))%Z.
Proof.
  intros Hord Hin.
  destruct (applyAll_patchedFrom a hunks 0 Hord) as [_ Heq].
  cbn [skipn] in Heq. rewrite Heq.
  rewrite (patchedFrom_length a hunks Hin 0) by (lia || assumption). lia.
Qed.

Lemma line_count_after_patch_witness :
  Z.of_nat (length (applyAll (map Some fiveLines) growThenShrink))
  = (Z.of_nat (length (map Some fiveLines))
     + shiftBefore growThenShrink (length growThenShrink))%Z.
Proof.
  apply (line_count_after_patch (map Some fiveLines) growThenShrink).
  - cbv. repeat split; lia.
  - repeat constructor; cbv; lia.
Defined.

Lemma walkHunk_contexts (a : list (option str)) (ls : list diffLine) :
  Forall (fun line => type line = context) ls ->
  forall c, walkHunk a ls c = (copyCells a c (length ls), c + length ls).
Proof.
  induction 1 as [|line rest Hl _ IH]; intros c; cbn [walkHunk length copyCells].
  - f_equal. lia.
  - rewrite Hl, IH. f_equal. lia.
Qed.

Lemma consumed_contexts (ls : list diffLine) :
  Forall (fun line => type line = context) ls -> consumed ls = length ls.
Proof.
  induction 1 as [|line rest Hl _ IH]; [reflexivity|].
  rewrite consumed_cons. unfold consumes. rewrite Hl, IH. reflexivity.
Qed.

Lemma applyHunk_contexts (a : list (option str)) (h : hunk) :
  Forall (fun line => type line = context) (lines h) ->
  endOf h <= length a ->
  applyHunk a h = a.
Proof.
  intros Hc He. unfold endOf in He. rewrite (consumed_contexts _ Hc) in He.
  unfold applyHunk. fold (startOf h). rewrite (walkHunk_contexts a _ Hc).
  rewrite copyCells_skipn, app_assoc, <- copyCells_app.
  rewrite copyCells_firstn by assumption. apply firstn_skipn.
Qed.

(** X5. Hunks made of context lines only, each ending within the array,
    leave the array as it is, in whatever order they come and whether or not
    they overlap: [applyHunk] copies for a context line the line that is
    there, not the text of the diff. *)
Theorem context_only_hunks_change_nothing (a : list (option str))
    (hunks : list hunk) :
  Forall (fun h => Forall (fun line => type line = context) (lines h)
                   /\ endOf h <= length a) hunks ->
  applyAll a hunks = a.
Proof.
  induction 1 as [|h rest [Hc He] _ IH]; [reflexivity|].
  rewrite applyAll_cons, IH. now apply applyHunk_contexts.
Qed.

Lemma context_only_hunks_change_nothing_witness :
  applyAll (map Some fiveLines) [contextHunk; contextHunk]
  = map Some fiveLines.
Proof.
  apply (context_only_hunks_change_nothing (map Some fiveLines)
           [contextHunk; contextHunk]).
  repeat constructor; cbv; lia.
Defined.

Lemma walkHunk_adds (a : list (option str)) (ts : list str) (c : nat) :
  walkHunk a (map addLine ts) c = (map Some ts, c).
Proof.
  induction ts as [|t ts IH]; [reflexivity|].
  cbn [map walkHunk addLine type content]. now rewrite IH.
Qed.

Lemma copyCells_past_end (a : list (option str)) (k : nat) :
  forall i, length a <= i -> copyCells a i k = repeat None k.
Proof.
  induction k as [|k IH]; intros i Hi; [reflexivity|].
  cbn [copyCells repeat]. unfold cell.
  assert (E : nth_error a i = None) by now apply nth_error_None.
  rewrite E, IH by lia. reflexivity.
Qed.

(** X6. A hunk of add lines only passes validation in either mode wherever
    it starts, whatever its [oldStart]. When it starts [k] lines past the end
    of the array, and the original lines, the gap and the added lines are no
    more cells than an array holds, it is applied all the same: the gap is
    filled with [k] [undefined] cells, which [join] writes as empty lines,
    and the added lines follow. *)
Theorem add_only_hunk_past_the_end (originalLines ts : list str) (h : hunk)
    (mode : validationMode) :
  lines h = map addLine ts ->
  validateHunk originalLines h mode = Ret true
  /\ (forall k,
        startOf h = length originalLines + k ->
        (Z.of_nat (length originalLines + k + length ts) <= maxArrayLength)%Z ->
        applyHunk (map Some originalLines) h
        = map Some originalLines ++ repeat None k ++ map Some ts).
Proof.
  intros Hl. split.
  - unfold validateHunk. apply validateFrom_adds. rewrite Hl.
    clear. induction ts as [|t ts IH]; [reflexivity|]. exact IH.
  - intros k Hs _.
    unfold applyHunk. fold (startOf h). rewrite Hl, walkHunk_adds, Hs.
    rewrite copyCells_app, copyCells_firstn, length_map, firstn_all2
      by (rewrite ?length_map; lia).
    rewrite copyCells_past_end by (rewrite length_map; lia).
    replace (length originalLines - (length originalLines + k)) with 0 by lia.
    cbn [copyCells Nat.add]. now rewrite app_nil_r, <- app_assoc.
Qed.

Lemma add_only_hunk_past_the_end_witness :
  validateHunk fiveLines farHunk strict = Ret true
  /\ applyHunk (map Some fiveLines) farHunk
     = map Some fiveLines ++ repeat None 3 ++ map Some [js "far"].
Proof.
  destruct (add_only_hunk_past_the_end fiveLines [js "far"] farHunk strict)
    as [Hv Ha]; [reflexivity|].
  split; [exact Hv|].
  apply (Ha 3); [reflexivity|]. vm_compute. discriminate.
Defined.

(** ** The shape of what the parser returns *)

Lemma flush_app (pre hunks : list hunk) (cur : option hunk) :
  flush (pre ++ hunks) cur = pre ++ flush hunks cur.
Proof. destruct cur; cbn [flush]; [now rewrite app_assoc|reflexivity]. Qed.

(** Hunks that are already pushed stay in front. *)
Lemma parseFrom_acc (diffLines : list str) :
  forall pre hunks cur,
    parseFrom diffLines (pre ++ hunks) cur
    = (hs <- parseFrom diffLines hunks cur ;; Ret (pre ++ hs)).
Proof.
  induction diffLines as [|line rest IH]; intros pre hunks cur; cbn [parseFrom].
  - cbn [bind]. now rewrite flush_app.
  - destruct (startsWith line (js "@@")).
    + destruct (matchHeader line) as [m|]; [|reflexivity].
      rewrite flush_app. apply IH.
    + destruct cur as [h|]; [|apply IH].
      destruct (startsWith line (js " ") || startsWith line (js "-")
                || startsWith line (js "+")); apply IH.
Qed.

(** A header line starts afresh: what comes before it only matters through
    the hunks it gave. *)
Lemma parseFrom_at_marker (d1 : list str) (header : str) (d2 : list str) :
  isMarker header = true ->
  forall hunks cur,
    parseFrom (d1 ++ header :: d2) hunks cur
    = (hs <- parseFrom d1 hunks cur ;; parseFrom (header :: d2) hs None).
Proof.
  intros Hm. unfold isMarker in Hm.
  induction d1 as [|line rest IH]; intros hunks cur.
  - cbn [app parseFrom bind]. rewrite Hm.
    destruct (matchHeader header); reflexivity.
  - cbn [app parseFrom]. destruct (startsWith line (js "@@")).
    + destruct (matchHeader line) as [m|]; [|reflexivity]. apply IH.
    + destruct cur as [h|]; [|apply IH].
      destruct (startsWith line (js " ") || startsWith line (js "-")
                || startsWith line (js "+")); apply IH.
Qed.

(** X7. Parsing composes at header lines: when the second part of a diff is
    empty or begins with a line that begins with the hunk marker, the hunks
    of the whole are the hunks of the first part followed by those of the
    second, and the whole throws what the first part throws, or else what
    the second does. *)
Theorem parse_composes_at_headers (d1 d2 : list str) :
  match d2 with
  | [] => True
  | header :: _ => isMarker header = true
  end ->
  parseUnifiedDiffHunks (d1 ++ d2)
  = (hs1 <- parseUnifiedDiffHunks d1 ;;
     hs2 <- parseUnifiedDiffHunks d2 ;;
     Ret (hs1 ++ hs2)).
Proof.
  unfold parseUnifiedDiffHunks. destruct d2 as [|header d2]; intros Hm.
  - rewrite app_nil_r. cbn [parseFrom flush].
    destruct (parseFrom d1 [] None); cbn [bind]; [now rewrite app_nil_r|reflexivity].
  - rewrite (parseFrom_at_marker d1 header d2 Hm).
    destruct (parseFrom d1 [] None) as [hs1|e]; cbn [bind]; [|reflexivity].
    rewrite <- (app_nil_r hs1) at 1. apply parseFrom_acc.
Qed.

Lemma parse_composes_at_headers_witness :
  parseUnifiedDiffHunks
    ([js "@@ -1,2 +1,2 @@"; js "-line1"; js "+modified1"; js " line2"]
       ++ [js "@@ -4,2 +4,2 @@"; js " line4"; js "-line5"; js "+modified5"])
  = (hs1 <- parseUnifiedDiffHunks
              [js "@@ -1,2 +1,2 @@"; js "-line1"; js "+modified1"; js " line2"] ;;
     hs2 <- parseUnifiedDiffHunks
              [js "@@ -4,2 +4,2 @@"; js " line4"; js "-line5"; js "+modified5"] ;;
     Ret (hs1 ++ hs2)).
Proof.
  apply (parse_composes_at_headers
           [js "@@ -1,2 +1,2 @@"; js "-line1"; js "+modified1"; js " line2"]
           [js "@@ -4,2 +4,2 @@"; js " line4"; js "-line5"; js "+modified5"]).
  reflexivity.
Defined.

Lemma pushLines_nil (h : hunk) : pushLines h [] = h.
Proof. destruct h. unfold pushLines. cbn. now rewrite app_nil_r. Qed.

Lemma pushLines_pushLine (h : hunk) (l : diffLine) (ls : list diffLine) :
  pushLines (pushLine h l) ls = pushLines h (l :: ls).
Proof. unfold pushLines, pushLine. cbn. now rewrite <- app_assoc. Qed.

(** The body of a hunk: the lines that begin with a space, [-] or [+] go
    into the hunk in order; every other line is dropped and does not end
    the hunk. *)
Lemma parseFrom_body (body : list str) :
  noMarker body ->
  forall hunks h,
    parseFrom body hunks (Some h)
    = Ret (hunks ++ [pushLines h (map contentLine (filter isContentLine body))]).
Proof.
  induction 1 as [|line rest Hl _ IH]; intros hunks h.
  - cbn [parseFrom flush filter map]. now rewrite pushLines_nil.
  - cbn [parseFrom filter]. rewrite Hl. unfold isContentLine at 1.
    destruct (startsWith line (js " ") || startsWith line (js "-")
              || startsWith line (js "+")).
    + rewrite IH. cbn [map]. now rewrite pushLines_pushLine.
    + apply IH.
Qed.

(** X8. A header line that the pattern matches, followed by lines none of
    which begins with the hunk marker, parses to one hunk: its numbers are
    the header's, and its lines are the lines that begin with a space, [-]
    or [+], in order, marker stripped. A line that begins with anything
    else, the empty line too, is dropped and does not end the hunk. *)
Theorem parse_one_hunk (header : str) (body : list str) (m : headerMatch) :
  isMarker header = true ->
  matchHeader header = Some m ->
  noMarker body ->
  parseUnifiedDiffHunks (header :: body)
  = Ret [pushLines (openHunk m) (map contentLine (filter isContentLine body))].
Proof.
  intros Hm Hh Hb. unfold parseUnifiedDiffHunks, isMarker in *.
  cbn [parseFrom]. rewrite Hm, Hh. cbn [flush].
  now rewrite (parseFrom_body body Hb).
Qed.

Lemma parse_one_hunk_witness :
  parseUnifiedDiffHunks
    [js "@@ -1,2 +1,2 @@"; js " line1"; js ""; js "\ No newline at end of file";
     js "-line2"; js "+changed"]
  = Ret [pushLines
           (openHunk {| group1 := js "1"; group2 := Some (js "2");
                        group3 := js "1"; group4 := Some (js "2") |})
           [ {| type := context; content := js "line1" |};
             {| type := delete; content := js "line2" |};
             {| type := add; content := js "changed" |} ]].
Proof.
  apply (parse_one_hunk (js "@@ -1,2 +1,2 @@")
           [js " line1"; js ""; js "\ No newline at end of file";
            js "-line2"; js "+changed"]).
  - reflexivity.
  - reflexivity.
  - vm_compute. repeat constructor.
Defined.

Lemma parseFrom_count (diffLines : list str) :
  forall hunks cur hs,
    parseFrom diffLines hunks cur = Ret hs ->
    length hs = length (flush hunks cur) + length (filter isMarker diffLines).
Proof.
  induction diffLines as [|line rest IH]; intros hunks cur hs;
    cbn [parseFrom filter].
  - intros H; injection H as <-. cbn [length]. lia.
  - unfold isMarker at 1. destruct (startsWith line (js "@@")).
    + destruct (matchHeader line) as [m|]; [|discriminate].
      intros H. apply IH in H. cbn [flush length] in *.
      rewrite length_app in H. cbn [length] in H. lia.
    + destruct cur as [h|]; [|apply IH].
      destruct (startsWith line (js " ") || startsWith line (js "-")
                || startsWith line (js "+")); [|apply IH].
      intros H. apply IH in H. cbn [flush] in *. rewrite length_app in *.
      exact H.
Qed.

(** X9. When parsing succeeds there are as many hunks as lines that begin
    with the hunk marker: every header opens one hunk, a header without
    body lines too, and nothing else does. *)
Theorem hunk_count_is_header_count (diffLines : list str) (hs : list hunk) :
  parseUnifiedDiffHunks diffLines = Ret hs ->
  length hs = length (filter isMarker diffLines).
Proof. intros H. now apply parseFrom_count in H. Qed.

Lemma hunk_count_is_header_count_witness :
  length [pushLines (openHunk {| group1 := js "3"; group2 := None;
                                 group3 := js "4"; group4 := None |}) [];
          pushLines (openHunk {| group1 := js "9"; group2 := None;
                                 group3 := js "9"; group4 := None |}) []]
  = length (filter isMarker [js "@@ -3 +4 @@"; js "@@ -9 +9 @@"]).
Proof.
  apply (hunk_count_is_header_count [js "@@ -3 +4 @@"; js "@@ -9 +9 @@"]).
  reflexivity.
Defined.

(** ** The numbers of a parsed hunk, and the third error *)

Lemma parseInt_acc_nonneg (d : str) :
  forallb isDigit d = true ->
  forall acc, (0 <= acc)%Z ->
    (0 <= fold_left (fun acc c => acc * 10 + (Z.of_N c - 48)) d acc)%Z.
Proof.
  induction d as [|c d IH]; intros Hd acc Hacc; [exact Hacc|].
  cbn [forallb] in Hd. apply andb_true_iff in Hd as [Hc Hd].
  cbn [fold_left]. apply IH; [exact Hd|].
  unfold isDigit in Hc. apply andb_true_iff in Hc as [H1 H2].
  apply N.leb_le in H1, H2. lia.
Qed.

Lemma parseInt_nonneg (d : str) : digitString d -> (0 <= parseInt d)%Z.
Proof. intros [_ Hd]. unfold parseInt. apply parseInt_acc_nonneg; [exact Hd|lia]. Qed.

Lemma openHunk_headerNumbers (line : str) (m : headerMatch) :
  matchHeader line = Some m -> headerNumbers (openHunk m).
Proof.
  intros H. apply matchHeader_sound in H as (pre & s & _ & D1 & C2 & D3 & C4 & _).
  unfold headerNumbers, openHunk. cbn [oldStart oldCount newStart newCount].
  apply parseInt_nonneg in D1, D3.
  assert (H2 : (0 <= parseInt (match group2 m with Some d => d | None => js "1" end))%Z).
  { destruct (group2 m); [now apply parseInt_nonneg|]. cbv. discriminate. }
  assert (H4 : (0 <= parseInt (match group4 m with Some d => d | None => js "1" end))%Z).
  { destruct (group4 m); [now apply parseInt_nonneg|]. cbv. discriminate. }
  lia.
Qed.

Lemma parseFrom_headerNumbers (diffLines : list str) :
  forall hunks cur hs,
    Forall headerNumbers (flush hunks cur) ->
    parseFrom diffLines hunks cur = Ret hs ->
    Forall headerNumbers hs.
Proof.
  induction diffLines as [|line rest IH]; intros hunks cur hs Hinv;
    cbn [parseFrom].
  - intros H; injection H as <-. exact Hinv.
  - destruct (startsWith line (js "@@")).
    + destruct (matchHeader line) as [m|] eqn:Em; [|discriminate].
      apply IH. cbn [flush]. apply Forall_app. split; [exact Hinv|].
      constructor; [|constructor]. now apply (openHunk_headerNumbers line).
    + destruct cur as [h|]; [|now apply IH].
      destruct (startsWith line (js " ") || startsWith line (js "-")
                || startsWith line (js "+")); [|now apply IH].
      apply IH. cbn [flush] in *. apply Forall_app in Hinv as [H1 H2].
      apply Forall_app. split; [exact H1|].
      inversion H2; subst. constructor; [|constructor]. assumption.
Qed.

(** X10. Every hunk the parser returns has the numbers of a header: its
    starts are at least [-1] (the header's numbers minus one) and its counts
    are not negative. *)
Theorem parsed_hunks_have_header_numbers (diffLines : list str)
    (hs : list hunk) :
  parseUnifiedDiffHunks diffLines = Ret hs -> Forall headerNumbers hs.
Proof. apply parseFrom_headerNumbers. constructor. Qed.

Lemma parsed_hunks_have_header_numbers_witness :
  Forall headerNumbers [hunkAtLineZero].
Proof.
  apply (parsed_hunks_have_header_numbers [js "@@ -0,1 +1 @@"; js " a"]).
  reflexivity.
Defined.

(** The first hunk that does not pass decides what the loop throws. *)
Lemma validateAll_first_not_passing (originalLines : list str)
    (pre : list hunk) (h : hunk) (post : list hunk) :
  Forall (passes originalLines normalized) pre ->
  validateHunk originalLines h normalized <> Ret true ->
  validateAll originalLines (pre ++ h :: post) strict
  = match validateHunk originalLines h normalized with
    | Throw e => Throw e
    | Ret _ => Throw (HunkValidationFailed (oldStart h + 1))
    end.
Proof.
  intros Hpre Hh. rewrite validateAll_refines_spec. unfold validateBatchSpec.
  pose proof (firstFailing_cases originalLines strict (pre ++ h :: post)) as Hs.
  destruct (firstFailing originalLines strict (pre ++ h :: post)) as [[h0|]|e];
    cbn [bind].
  - rewrite (firstFailing_skip originalLines normalized _ _ Hpre).
    cbn [firstFailing].
    destruct (validateHunk originalLines h normalized) as [[|]|e]; cbn [bind];
      congruence.
  - apply Forall_app in Hs as [_ Hs]. inversion Hs as [|? ? Hp _]; subst.
    apply passes_strict_normalized in Hp. contradiction.
  - destruct Hs as (_ & h' & _ & _ & _ & Hh').
    destruct (validateHunk_strict_total originalLines h') as [b Hb]. congruence.
Qed.

(** X11. The call throws a [TypeError] exactly when the diff parses and the
    first hunk that does not pass in normalized mode comes from a header
    that says old line [0] (so [oldStart = -1]) and has a context or a delete
    line. *)
Theorem TypeError_iff_line_zero (originalContent unifiedDiff : str) :
  applyUnifiedDiff originalContent unifiedDiff = Throw TypeError
  <-> exists pre h post,
        parseUnifiedDiffHunks (split LF (normalizeLineEndings unifiedDiff))
        = Ret (pre ++ h :: post)
        /\ Forall (passes (originalLinesOf (normalizeLineEndings originalContent))
                     normalized) pre
        /\ oldStart h = (-1)%Z
        /\ 0 < consumed (lines h).
Proof.
  set (l := originalLinesOf (normalizeLineEndings originalContent)).
  assert (Hcons : forall h : hunk,
             forallb (fun l0 => negb (consumes l0)) (lines h) = false
             <-> 0 < consumed (lines h)).
  { intros h. unfold consumed.
    induction (lines h) as [|x xs IH]; cbn [forallb filter length].
    - split; [discriminate|lia].
    - destruct (consumes x); cbn [negb andb length]; [split; [lia|reflexivity]|exact IH]. }
  unfold applyUnifiedDiff. fold l. split.
  - destruct (parseUnifiedDiffHunks (split LF (normalizeLineEndings unifiedDiff)))
      as [hunks|e] eqn:Ep; cbn [bind].
    + pose proof (validateAll_cases l hunks) as Hv.
      destruct (validateAll l hunks strict) as [[]|e]; cbn [bind]; [discriminate|].
      intros He; injection He as ->.
      destruct Hv as (pre & h & post & -> & Hpre & [[_ Hn]|Hh]); [discriminate|].
      exists pre, h, post. split; [reflexivity|]. split; [exact Hpre|].
      apply (parseFrom_headerNumbers _ [] None) in Ep; [|constructor].
      apply Forall_app in Ep as [_ Ep]. inversion Ep as [|? ? [Hlo _] _]; subst.
      destruct (Z.ltb_spec (oldStart h) 0) as [Hneg|Hpos].
      * split; [lia|]. unfold validateHunk in Hh.
        rewrite (validateFrom_negative _ _ _ Hneg) in Hh.
        destruct (forallb (fun l0 => negb (consumes l0)) (lines h)) eqn:Ea;
          [discriminate|]. now apply Hcons.
      * destruct (validateFrom_nonneg l normalized (lines h) (oldStart h) Hpos)
          as [b Hb]. unfold validateHunk in Hh. congruence.
    + pose proof (parseFrom_outcome (split LF (normalizeLineEndings unifiedDiff))
                    [] None) as Hp.
      fold (parseUnifiedDiffHunks (split LF (normalizeLineEndings unifiedDiff))) in Hp.
      rewrite Ep in Hp. destruct Hp as (_ & line & _ & _ & _ & _ & ->).
      discriminate.
  - intros (pre & h & post & -> & Hpre & Hs & Hc). cbn [bind].
    assert (Hh : validateHunk l h normalized = Throw TypeError).
    { unfold validateHunk. rewrite validateFrom_negative by lia.
      apply Hcons in Hc. now rewrite Hc. }
    rewrite (validateAll_first_not_passing l pre h post Hpre) by congruence.
    now rewrite Hh.
Qed.

(** ** Lines and line endings *)

Lemma noLF_cons (c : char) (s : str) :
  noLF (c :: s) = true -> c <> LF /\ noLF s = true.
Proof.
  unfold noLF. cbn [forallb]. intros H.
  apply andb_true_iff in H as [Hc Hs]. apply negb_true_iff in Hc.
  apply N.eqb_neq in Hc. auto.
Qed.

Lemma split_noLF (x : str) : noLF x = true -> split LF x = [x].
Proof.
  induction x as [|c x IH]; [reflexivity|]. intros Hx.
  apply noLF_cons in Hx as (Hc & Hx). cbn [split].
  apply N.eqb_neq in Hc. rewrite Hc, (IH Hx). reflexivity.
Qed.

Lemma split_noLF_app (x y : str) :
  noLF x = true -> split LF (x ++ LF :: y) = x :: split LF y.
Proof.
  induction x as [|c x IH]; intros Hx.
  - cbn [app split]. now rewrite N.eqb_refl.
  - apply noLF_cons in Hx as (Hc & Hx). cbn [app split].
    apply N.eqb_neq in Hc. rewrite Hc, (IH Hx). reflexivity.
Qed.

Lemma split_join (l : list str) :
  Forall (fun x => noLF x = true) l -> l <> [] ->
  split LF (join [LF] (map Some l)) = l.
Proof.
  induction 1 as [|x l Hx Hl IH]; intros Hne; [contradiction|].
  destruct l as [|y l].
  - cbn [map join cellText]. now apply split_noLF.
  - change (join [LF] (map Some (x :: y :: l)))
      with (x ++ LF :: join [LF] (map Some (y :: l))).
    rewrite split_noLF_app by assumption. f_equal. apply IH. discriminate.
Qed.

Lemma split_lines_noLF (s : str) : Forall (fun x => noLF x = true) (split LF s).
Proof.
  induction s as [|c s IH]; [repeat constructor|].
  cbn [split]. destruct (N.eqb c LF) eqn:E.
  - constructor; [reflexivity|exact IH].
  - destruct (split LF s) as [|l ls]; [repeat constructor; cbn; now rewrite E|].
    inversion IH; subst. constructor; [|assumption].
    unfold noLF in *. cbn [forallb]. now rewrite E.
Qed.

(** X12. The lines of a content hold no LF. Lines without LF, joined by LF
    and read again as a content, are the same lines; the one exception is
    the single empty line, which is written as the empty string and read
    back as no line at all. *)
Theorem lines_round_trip :
  (forall s, Forall (fun x => noLF x = true) (originalLinesOf s))
  /\ (forall l,
        Forall (fun x => noLF x = true) l ->
        l <> [[]] ->
        originalLinesOf (join [LF] (map Some l)) = l)
  /\ originalLinesOf (join [LF] (map Some [[]])) = [].
Proof.
  split; [|split].
  - intros s. unfold originalLinesOf. destruct (str_eqb s []); [constructor|].
    apply split_lines_noLF.
  - intros l Hl Hne. unfold originalLinesOf.
    destruct (str_eqb (join [LF] (map Some l)) []) eqn:E.
    + apply str_eqb_eq in E. destruct l as [|x [|y l]].
      * reflexivity.
      * cbn in E. subst x. contradiction.
      * change (join [LF] (map Some (x :: y :: l)))
          with (x ++ LF :: join [LF] (map Some (y :: l))) in E.
        destruct x; discriminate.
    + apply split_join; [exact Hl|]. intros ->. discriminate.
  - reflexivity.
Qed.

Lemma normalize_step (c d : char) (r : str) :
  normalizeLineEndings (c :: d :: r)
  = if N.eqb c CR && N.eqb d LF then LF :: normalizeLineEndings r
    else c :: normalizeLineEndings (d :: r).
Proof. reflexivity. Qed.

Lemma lfOnly_step (c d : char) (r : str) :
  lfOnly (c :: d :: r) = negb (N.eqb c CR && N.eqb d LF) && lfOnly (d :: r).
Proof. reflexivity. Qed.

Lemma normalize_length (s : str) :
  forall n, length s <= n -> length (normalizeLineEndings s) <= length s.
Proof.
  intros n; revert s; induction n as [|n IH]; intros s Hn.
  - destruct s; [cbn; lia|cbn in Hn; lia].
  - destruct s as [|c [|d r]]; [cbn; lia|cbn; lia|].
    rewrite normalize_step. cbn [length] in Hn.
    destruct (N.eqb c CR && N.eqb d LF).
    + specialize (IH r ltac:(lia)). cbn [length]. lia.
    + specialize (IH (d :: r) ltac:(cbn [length]; lia)). cbn [length] in *. lia.
Qed.

(** X13. Normalizing the line endings leaves a text as it is exactly when no
    CR of the text is followed by LF, and it never makes a text longer. *)
Theorem normalize_fixed_points (s : str) :
  (normalizeLineEndings s = s <-> lfOnly s = true)
  /\ length (normalizeLineEndings s) <= length s.
Proof.
  split; [|now apply (normalize_length s (length s))].
  split; [|apply normalize_lfOnly].
  induction s as [|c rest IH]; [reflexivity|].
  destruct rest as [|d r]; [reflexivity|].
  rewrite normalize_step, lfOnly_step.
  destruct (N.eqb c CR && N.eqb d LF) eqn:E; cbn [negb andb].
  - apply andb_true_iff in E as [Ec _]. apply N.eqb_eq in Ec. subst c.
    intros H. discriminate.
  - intros H. injection H as H. now apply IH.
Qed.

Lemma startsWith_app (s r p : str) :
  startsWith s p = true -> startsWith (s ++ r) p = true.
Proof.
  revert s; induction p as [|y p IH]; intros s H; [reflexivity|].
  destruct s as [|x s]; [discriminate|]. cbn [app startsWith] in *.
  apply andb_true_iff in H as [Hx Hs]. now rewrite Hx, (IH s Hs).
Qed.

Lemma split_first_prefix (s l : str) (ls : list str) :
  split LF s = l :: ls -> exists r, s = l ++ r.
Proof.
  revert l ls; induction s as [|c s IH]; intros l ls; cbn [split].
  - intros H; injection H as <- <-. now exists [].
  - destruct (N.eqb c LF).
    + intros H; injection H as <- <-. now exists (c :: s).
    + destruct (split LF s) as [|l' ls'] eqn:Es.
      * intros H; injection H as <- <-. exists s. reflexivity.
      * intros H; injection H as <- <-.
        destruct (IH l' ls' eq_refl) as [r ->]. now exists r.
Qed.

Lemma includes_tail (c : char) (s p : str) :
  includes s p = true -> includes (c :: s) p = true.
Proof. intros H. cbn [includes]. rewrite H. apply orb_true_r. Qed.

Lemma includes_starts (s p : str) : startsWith s p = true -> includes s p = true.
Proof. intros H. destruct s; cbn [includes]; now rewrite H. Qed.

(** A line that begins with [p] shows that the text includes [p]. *)
Lemma includes_of_line (p : str) (s : str) :
  forall line, In line (split LF s) -> startsWith line p = true ->
    includes s p = true.
Proof.
  induction s as [|c s IH]; intros line Hin Hp.
  - cbn in Hin. destruct Hin as [<-|[]]. now apply includes_starts.
  - cbn [split] in Hin. destruct (N.eqb c LF).
    + destruct Hin as [<-|Hin].
      * apply includes_starts. destruct p; [reflexivity|discriminate].
      * apply includes_tail. now apply (IH line).
    + destruct (split LF s) as [|l ls] eqn:Es.
      * destruct Hin as [<-|[]].
        destruct (split_not_nil LF s Es).
      * destruct Hin as [<-|Hin].
        -- destruct (split_first_prefix s l ls Es) as [r ->].
           apply includes_starts.
           change (c :: l ++ r) with ((c :: l) ++ r). now apply startsWith_app.
        -- apply includes_tail. apply (IH line); [now right|exact Hp].
Qed.

(** Taking out a CR before an LF brings no two [@] together. *)
Lemma includes_normalize (s : str) :
  forall n, length s <= n ->
    includes (normalizeLineEndings s) (js "@@") = true ->
    includes s (js "@@") = true.
Proof.
  intros n; revert s; induction n as [|n IH]; intros s Hn.
  - destruct s; [trivial|cbn in Hn; lia].
  - destruct s as [|c [|d r]]; [trivial|trivial|].
    rewrite normalize_step. cbn [length] in Hn.
    destruct (N.eqb c CR && N.eqb d LF) eqn:E.
    + intros H. cbn [includes] in H.
      change (startsWith (LF :: normalizeLineEndings r) (js "@@")) with false in H.
      cbn [orb] in H. do 2 apply includes_tail. apply (IH r); [lia|exact H].
    + intros H. cbn [includes] in H. apply orb_true_iff in H as [H|H].
      * apply includes_starts.
        destruct r as [|e r'].
        -- exact H.
        -- rewrite normalize_step in H.
           destruct (N.eqb d CR && N.eqb e LF) eqn:E2.
           ++ apply andb_true_iff in E2 as [Ed _]. apply N.eqb_eq in Ed. subst d.
              cbn [startsWith js] in H. cbn in H.
              apply andb_true_iff in H as [_ H]. discriminate.
           ++ cbn [startsWith] in *. cbn in *.
              apply andb_true_iff in H as [H1 H2].
              apply andb_true_iff in H2 as [H2 _]. now rewrite H1, H2.
      * apply includes_tail. apply (IH (d :: r)); [cbn [length]; lia|exact H].
Qed.

(** X14. The check the test suite names as the guard before the call: a
    diff text that does not include [@@] has no hunk, and applying it gives
    the original content back. *)
Theorem diff_without_marker_text_is_noop (originalContent unifiedDiff : str) :
  includes unifiedDiff (js "@@") = false ->
  parseUnifiedDiffHunks (split LF (normalizeLineEndings unifiedDiff)) = Ret []
  /\ applyUnifiedDiff originalContent unifiedDiff
     = Ret (normalizeLineEndings originalContent).
Proof.
  intros H.
  assert (Hno : noMarker (split LF (normalizeLineEndings unifiedDiff))).
  { apply Forall_forall. intros line Hin.
    destruct (startsWith line (js "@@")) eqn:E; [|reflexivity].
    apply (includes_of_line _ _ line Hin) in E.
    apply (includes_normalize _ (length unifiedDiff)) in E; [congruence|lia]. }
  split; [now apply parse_noMarker|now apply apply_noMarker].
Qed.

Lemma diff_without_marker_text_is_noop_witness :
  applyUnifiedDiff (js "some content") (text ["-old line"; "+new line"])
  = Ret (normalizeLineEndings (js "some content")).
Proof.
  apply (diff_without_marker_text_is_noop (js "some content")
           (text ["-old line"; "+new line"])).
  vm_compute. reflexivity.
Defined.

(** * Beyond the claims: the agent state machine *)

Section AgentStateFacts.

Import AgentState.

Context {Number JsError JsDate PlanInfo StepInfo : Type}.

Local Abbreviation Store := (AgentStateStore Number JsError JsDate PlanInfo StepInfo).
Local Abbreviation Event := (StateTransitionEvent Number JsError PlanInfo StepInfo).

Lemma AgentState_eqb_eq (a b : AgentState) : AgentState_eqb a b = true <-> a = b.
Proof. destruct a, b; cbn; split; congruence. Qed.

(** The two ways [processEvent] ends. *)
Lemma processEvent_cases (now : JsDate) (ev : Event) (s : Store) :
  settings (processEvent now ev s) = settings s
  /\ ((currentState (processEvent now ev s) = currentState s
       /\ previousState (processEvent now ev s) = previousState s
       /\ stateHistory (processEvent now ev s) = stateHistory s)
      \/ (currentState (processEvent now ev s) <> currentState s
          /\ canTransition (currentState s) (currentState (processEvent now ev s))
             = true
          /\ previousState (processEvent now ev s) = Some (currentState s)
          /\ stateHistory (processEvent now ev s)
             = stateHistory s
                 ++ [{| state := currentState (processEvent now ev s);
                        timestamp := now; event := Some ev |}])).
Proof.
  unfold processEvent.
  destruct (eventEffect ev s) as [[newState updates]|]; [|now split; [|left]].
  destruct (AgentState_eqb newState (currentState s)) eqn:E; cbn [negb].
  - destruct (hasKeys updates); split; try reflexivity; left; now repeat split.
  - destruct (canTransition (currentState s) newState) eqn:Ec.
    + split; [reflexivity|]. right. cbn. repeat split; try assumption.
      intros ->. destruct (currentState s); discriminate.
    + split; [reflexivity|]. left. now repeat split.
Qed.

(** X15. Whatever the event, [processEvent] changes the state only along
    the table of [canTransition]; it then records the state it left as
    [previousState] and appends one history entry, for the new state, with
    the event and the time. When the state stays, [previousState] and the
    history stay too. The settings always stay. *)
Theorem state_changes_follow_the_table (now : JsDate) (ev : Event) (s : Store) :
  settings (processEvent now ev s) = settings s
  /\ ((currentState (processEvent now ev s) = currentState s
       /\ previousState (processEvent now ev s) = previousState s
       /\ stateHistory (processEvent now ev s) = stateHistory s)
      \/ (currentState (processEvent now ev s) <> currentState s
          /\ canTransition (currentState s) (currentState (processEvent now ev s))
             = true
          /\ previousState (processEvent now ev s) = Some (currentState s)
          /\ stateHistory (processEvent now ev s)
             = stateHistory s
                 ++ [{| state := currentState (processEvent now ev s);
                        timestamp := now; event := Some ev |}])).
Proof. apply processEvent_cases. Qed.

(** X16. A [COMPLEXITY_ANALYZED] event that arrives while the machine is
    [IDLE] changes nothing: the branch that handles it asks for [PLANNING]
    or [EXECUTING], [canTransition] allows neither from [IDLE], and the
    complexity is not stored either. *)
Theorem complexity_analyzed_while_idle_is_dropped (now : JsDate)
    (complexity : Number) (requiresPlanning : bool) (s : Store) :
  currentState s = IDLE ->
  processEvent now (COMPLEXITY_ANALYZED complexity requiresPlanning) s = s.
Proof.
  intros H. unfold processEvent, eventEffect. rewrite H.
  destruct (requiresPlanning && autoPlanning (settings s)); reflexivity.
Qed.

(** X17. [RESET] always ends in [IDLE] with no plan, no complexity, no
    error and the default progress, and keeps the settings. From [IDLE] it
    leaves the history as it is; from any other state it is a transition. *)
Theorem reset_reaches_idle (now : JsDate) (s : Store) :
  currentState (processEvent now RESET s) = IDLE
  /\ currentPlan (processEvent now RESET s) = None
  /\ messageComplexity (processEvent now RESET s) = None
  /\ error (processEvent now RESET s) = None
  /\ executionProgress (processEvent now RESET s) = defaultProgress
  /\ settings (processEvent now RESET s) = settings s
  /\ (currentState s = IDLE ->
      stateHistory (processEvent now RESET s) = stateHistory s)
  /\ (currentState s <> IDLE ->
      stateHistory (processEvent now RESET s)
      = stateHistory s
          ++ [{| state := IDLE; timestamp := now; event := Some RESET |}]).
Proof.
  unfold processEvent, eventEffect.
  destruct (currentState s) eqn:E; cbn; rewrite ?E; repeat split;
    try reflexivity; try congruence.
Qed.

(** X18. [COMPLETED] and [DEBUGGING] are left by [RESET] only: in either
    state every other event, a new user message too, leaves the store as it
    is. (The table allows [DEBUGGING] to go to [PLANNING] or [EXECUTING], but
    no event asks for it.) *)
Theorem completed_and_debugging_wait_for_reset (now : JsDate) (ev : Event)
    (s : Store) :
  currentState s = COMPLETED \/ currentState s = DEBUGGING ->
  ev <> RESET ->
  processEvent now ev s = s.
Proof.
  intros Hs Hev. unfold processEvent, eventEffect.
  destruct ev; try contradiction; destruct Hs as [H|H]; rewrite H; cbn;
    reflexivity.
Qed.

Lemma processEvent_planWhenAwaiting (now : JsDate) (ev : Event) (s : Store) :
  planWhenAwaiting s -> planWhenAwaiting (processEvent now ev s).
Proof.
  unfold planWhenAwaiting, processEvent, eventEffect. intros H.
  destruct ev; destruct (currentState s) eqn:E; cbn; rewrite ?E; cbn;
    try (intros; congruence); try exact H;
    try (destruct (requiresPlanning && autoPlanning (settings s)); cbn;
         rewrite ?E; intros; congruence).
Qed.

Lemma processEvent_historyEndsHere (now : JsDate) (ev : Event) (s : Store) :
  historyEndsHere s -> historyEndsHere (processEvent now ev s).
Proof.
  unfold historyEndsHere. intros H.
  destruct (processEvent_cases now ev s) as [_ [(Hc & Hp & Hh)|(_ & _ & _ & Hh)]].
  - now rewrite Hh, Hc, Hp.
  - rewrite Hh, rev_app_distr. reflexivity.
Qed.

Lemma run_invariants (op : Operation Number JsError JsDate PlanInfo StepInfo)
    (s : Store) :
  planWhenAwaiting s /\ historyEndsHere s ->
  planWhenAwaiting (run op s) /\ historyEndsHere (run op s).
Proof.
  intros [Hp Hh]. destruct op as [now ev|roundPercent stepId u|u]; cbn [run].
  - split; [now apply processEvent_planWhenAwaiting
           |now apply processEvent_historyEndsHere].
  - unfold updatePlanStep. destruct (currentPlan s) as [plan|] eqn:Ep; [|now split].
    destruct (findIndex stepId (steps plan)) as [i|]; [|now split].
    destruct (nth_error (steps plan) i); [|now split].
    split; [intros _; discriminate|exact Hh].
  - split; [exact Hp|exact Hh].
Qed.

Lemma runAll_invariants
    (ops : list (Operation Number JsError JsDate PlanInfo StepInfo)) :
  forall s : Store,
    planWhenAwaiting s /\ historyEndsHere s ->
    planWhenAwaiting (runAll ops s) /\ historyEndsHere (runAll ops s).
Proof.
  induction ops as [|op ops IH]; intros s H; [exact H|].
  apply IH. now apply run_invariants.
Qed.

(** X19. In every store a session reaches from [DEFAULT_STATE] by
    [processEvent], [updatePlanStep] and [updateSettings], the machine
    awaits approval only with a plan at hand: [needsPlanApproval] is true
    exactly when the state is [AWAITING_APPROVAL]. *)
Theorem awaiting_approval_has_a_plan (five : Number)
    (ops : list (Operation Number JsError JsDate PlanInfo StepInfo)) :
  needsPlanApproval (runAll ops (DEFAULT_STATE five : Store))
  = AgentState_eqb (currentState (runAll ops (DEFAULT_STATE five : Store)))
      AWAITING_APPROVAL.
Proof.
  destruct (runAll_invariants ops (DEFAULT_STATE five)) as [Hp _].
  { split; [intros H; discriminate|now split]. }
  unfold needsPlanApproval.
  destruct (AgentState_eqb _ AWAITING_APPROVAL) eqn:E; [|reflexivity].
  apply AgentState_eqb_eq in E. apply Hp in E.
  destruct (currentPlan _); [reflexivity|contradiction].
Qed.

(** X20. In every such store the last entry of the history names the
    current state; while the history is empty the machine is [IDLE] and has
    no previous state. *)
Theorem history_ends_at_the_current_state (five : Number)
    (ops : list (Operation Number JsError JsDate PlanInfo StepInfo)) :
  historyEndsHere (runAll ops (DEFAULT_STATE five : Store)).
Proof.
  apply runAll_invariants. split; [intros H; discriminate|now split].
Qed.

Lemma findIndex_spec (stepId : str) (l : list (PlanStep StepInfo)) (i : nat) :
  findIndex stepId l = Some i ->
  exists old,
    nth_error l i = Some old
    /\ id old = stepId
    /\ forall j st, j < i -> nth_error l j = Some st -> id st <> stepId.
Proof.
  revert i; induction l as [|x l IH]; intros i; cbn [findIndex]; [discriminate|].
  destruct (str_eqb (id x) stepId) eqn:E.
  - intros H; injection H as <-. exists x. apply str_eqb_eq in E.
    split; [reflexivity|]. split; [exact E|]. intros j st Hj. lia.
  - destruct (findIndex stepId l) as [k|]; [|discriminate].
    intros H; injection H as <-. destruct (IH k eq_refl) as (old & Hn & Hid & Hbefore).
    exists old. split; [exact Hn|]. split; [exact Hid|].
    intros [|j] st Hj Hst; cbn [nth_error] in Hst.
    + injection Hst as <-. intros Hx. apply str_eqb_eq in Hx. congruence.
    + apply (Hbefore j st); [lia|exact Hst].
Qed.

Lemma findIndex_None (stepId : str) (l : list (PlanStep StepInfo)) :
  findIndex stepId l = None <-> Forall (fun st => id st <> stepId) l.
Proof.
  induction l as [|x l IH]; cbn [findIndex]; [split; [constructor|reflexivity]|].
  destruct (str_eqb (id x) stepId) eqn:E.
  - apply str_eqb_eq in E. split; [discriminate|].
    intros H. inversion H; subst. contradiction.
  - destruct (findIndex stepId l) as [k|].
    + split; [discriminate|]. intros H. inversion H; subst.
      now apply IH in H3.
    + split; [|reflexivity]. intros _. constructor; [|now apply IH].
      intros Hx. apply str_eqb_eq in Hx. congruence.
Qed.

Lemma setAt_spec {A} (l : list A) (i : nat) (v old : A) :
  nth_error l i = Some old ->
  setAt l i v = firstn i l ++ v :: skipn (S i) l.
Proof.
  revert i; induction l as [|x l IH]; intros [|i] H; try discriminate.
  - reflexivity.
  - cbn [nth_error] in H. cbn [setAt firstn skipn app]. now rewrite (IH i H).
Qed.

Lemma setAt_length {A} (l : list A) (i : nat) (v : A) :
  length (setAt l i v) = length l.
Proof.
  revert i; induction l as [|x l IH]; intros [|i]; cbn [setAt length];
    try reflexivity. now rewrite IH.
Qed.

(** X21. [updatePlanStep] changes nothing without a plan or when no step
    has the id. Otherwise it rewrites the first step with this id and no
    other, keeps the number of steps, the state and the history, and sets
    [completedSteps] to the number of steps of the new plan whose status is
    [completed] and [currentStepIndex] to the position of the step. *)
Theorem updatePlanStep_rewrites_one_step (roundPercent : nat -> nat -> Z)
    (stepId : str) (u : StepUpdates StepInfo) (s : Store) :
  match currentPlan s with
  | None => updatePlanStep roundPercent stepId u s = s
  | Some plan =>
      (Forall (fun st => id st <> stepId) (steps plan) ->
       updatePlanStep roundPercent stepId u s = s)
      /\ (forall i old,
            nth_error (steps plan) i = Some old ->
            id old = stepId ->
            (forall j st, j < i -> nth_error (steps plan) j = Some st ->
                          id st <> stepId) ->
            exists newSteps,
              newSteps
              = firstn i (steps plan) ++ withStepUpdates old u
                  :: skipn (S i) (steps plan)
              /\ length newSteps = length (steps plan)
              /\ currentPlan (updatePlanStep roundPercent stepId u s)
                 = Some {| steps := newSteps; planInfo := planInfo plan |}
              /\ completedSteps
                   (executionProgress (updatePlanStep roundPercent stepId u s))
                 = Z.of_nat
                     (length (filter (fun st => isCompleted (status st)) newSteps))
              /\ currentStepIndex
                   (executionProgress (updatePlanStep roundPercent stepId u s))
                 = Z.of_nat i
              /\ currentState (updatePlanStep roundPercent stepId u s)
                 = currentState s
              /\ stateHistory (updatePlanStep roundPercent stepId u s)
                 = stateHistory s)
  end.
Proof.
  unfold updatePlanStep. destruct (currentPlan s) as [plan|]; [|reflexivity].
  split.
  - intros H. apply findIndex_None in H. now rewrite H.
  - intros i old Hn Hid Hbefore.
    destruct (findIndex stepId (steps plan)) as [k|] eqn:Ef.
    + destruct (findIndex_spec _ _ _ Ef) as (old' & Hn' & Hid' & Hbefore').
      assert (k = i).
      { destruct (Nat.lt_trichotomy k i) as [Hlt|[Heq|Hgt]]; [|exact Heq|].
        - destruct (Hbefore k old' Hlt Hn' Hid').
        - destruct (Hbefore' i old Hgt Hn Hid). }
      subst k. rewrite Hn. cbn.
      pose proof (setAt_length (steps plan) i (withStepUpdates old u)) as Hlen.
      rewrite (setAt_spec _ _ _ _ Hn) in *.
      eexists. split; [reflexivity|]. split; [exact Hlen|]. repeat split.
    + apply findIndex_None in Ef. rewrite Forall_forall in Ef.
      destruct (Ef old (nth_error_In _ _ Hn) Hid).
Qed.

End AgentStateFacts.

Lemma complexity_analyzed_while_idle_is_dropped_witness :
  AgentState.processEvent tt (AgentState.COMPLEXITY_ANALYZED tt true)
    (AgentState.DEFAULT_STATE tt
     : AgentState.AgentStateStore unit unit unit unit unit)
  = AgentState.DEFAULT_STATE tt.
Proof.
  apply (complexity_analyzed_while_idle_is_dropped tt tt true
           (AgentState.DEFAULT_STATE tt)).
  reflexivity.
Defined.

Lemma completed_and_debugging_wait_for_reset_witness :
  AgentState.processEvent tt (AgentState.USER_MESSAGE None) completedStore
  = completedStore.
Proof.
  apply (completed_and_debugging_wait_for_reset tt
           (AgentState.USER_MESSAGE None) completedStore).
  - left. reflexivity.
  - discriminate.
Defined.

(** * Beyond the claims: the onboarding store *)

Section OnboardingFacts.

Import Onboarding.

Context {Number JsDate : Type}.
Variable stepProgress : Z -> Z -> Number.

Local Abbreviation State := (OnboardingState Number JsDate).
Local Abbreviation Response := (OnboardingResponse JsDate).

(** X22. Once the step is between 1 and [totalSteps], [nextStep] and
    [previousStep] keep it there: at the last step [nextStep] changes
    nothing, at step 1 [previousStep] changes nothing, in between each moves
    by one step and [previousStep] undoes [nextStep]. Neither touches the
    responses. *)
Theorem steps_stay_in_range (state : State) :
  (1 <= currentStep state <= totalSteps state)%Z ->
  (1 <= currentStep (nextStep stepProgress state) <= totalSteps state)%Z
  /\ (1 <= currentStep (previousStep stepProgress state) <= totalSteps state)%Z
  /\ (currentStep state = totalSteps state -> nextStep stepProgress state = state)
  /\ (currentStep state = 1%Z -> previousStep stepProgress state = state)
  /\ ((currentStep state < totalSteps state)%Z ->
      currentStep (nextStep stepProgress state) = (currentStep state + 1)%Z
      /\ currentStep (previousStep stepProgress (nextStep stepProgress state))
         = currentStep state)
  /\ responses (nextStep stepProgress state) = responses state
  /\ responses (previousStep stepProgress state) = responses state.
Proof.
  intros H. unfold nextStep, previousStep.
  destruct (Z.ltb_spec (currentStep state) (totalSteps state));
    destruct (Z.gtb_spec (currentStep state) 1); cbn;
    repeat split; intros; try lia; try reflexivity;
    try (destruct (Z.gtb_spec (currentStep state + 1) 1); cbn; lia).
Qed.

Lemma findIndex_Some (id : str) (l : list Response) (i : nat) :
  findIndex id l = Some i ->
  exists old,
    nth_error l i = Some old /\ stepId old = id
    /\ findResponse id (firstn i l) = None.
Proof.
  revert i; induction l as [|x l IH]; intros i; cbn [findIndex]; [discriminate|].
  destruct (str_eqb (stepId x) id) eqn:E.
  - intros H; injection H as <-. exists x. apply str_eqb_eq in E. now repeat split.
  - destruct (findIndex id l) as [k|]; [|discriminate].
    intros H; injection H as <-. destruct (IH k eq_refl) as (old & Hn & Hid & Hf).
    exists old. split; [exact Hn|]. split; [exact Hid|].
    cbn [firstn]. unfold findResponse in *. cbn [find]. now rewrite E.
Qed.

Lemma findIndex_None_find (id : str) (l : list Response) :
  findIndex id l = None -> findResponse id l = None.
Proof.
  induction l as [|x l IH]; cbn [findIndex]; [reflexivity|].
  unfold findResponse in *. cbn [find].
  destruct (str_eqb (stepId x) id); [discriminate|].
  destruct (findIndex id l); [discriminate|]. exact IH.
Qed.

Lemma find_app_None (id : str) (l1 l2 : list Response) :
  findResponse id l1 = None ->
  findResponse id (l1 ++ l2) = findResponse id l2.
Proof.
  unfold findResponse. induction l1 as [|x l1 IH]; [reflexivity|].
  cbn [find app]. destruct (str_eqb (stepId x) id); [discriminate|exact IH].
Qed.

Lemma find_app_other (id : str) (l1 l2 : list Response) :
  findResponse id (l1 ++ l2)
  = match findResponse id l1 with
    | Some r => Some r
    | None => findResponse id l2
    end.
Proof.
  unfold findResponse. induction l1 as [|x l1 IH]; [reflexivity|].
  cbn [find app]. destruct (str_eqb (stepId x) id); [reflexivity|exact IH].
Qed.

Lemma onboarding_setAt_spec {A} (l : list A) (i : nat) (v old : A) :
  nth_error l i = Some old ->
  setAt l i v = firstn i l ++ v :: skipn (S i) l.
Proof.
  revert i; induction l as [|x l IH]; intros [|i] H; try discriminate.
  - reflexivity.
  - cbn [nth_error] in H. cbn [setAt firstn skipn app]. now rewrite (IH i H).
Qed.

Lemma onboarding_setAt_length {A} (l : list A) (i : nat) (v : A) :
  length (setAt l i v) = length l.
Proof.
  revert i; induction l as [|x l IH]; intros [|i]; cbn [setAt length];
    try reflexivity. now rewrite IH.
Qed.

(** The responses after [saveResponse]: the first response of the step is
    replaced where it stood, or the new one is put at the end. *)
Lemma saveResponse_responses (now : JsDate) (id q a : str) (state : State) :
  exists pre post,
    responses (saveResponse now id q a state)
    = pre ++ {| stepId := id; question := q; answer := a; timestamp := now |}
        :: post
    /\ findResponse id pre = None
    /\ ((responses state = pre ++ post /\ post = []
         /\ findResponse id (responses state) = None)
        \/ exists old,
             responses state = pre ++ old :: post /\ stepId old = id).
Proof.
  unfold saveResponse. cbn [responses].
  destruct (findIndex id (responses state)) as [i|] eqn:Ef.
  - destruct (findIndex_Some _ _ _ Ef) as (old & Hn & Hid & Hf).
    exists (firstn i (responses state)), (skipn (S i) (responses state)).
    split; [now apply (onboarding_setAt_spec _ _ _ old)|]. split; [exact Hf|].
    right. exists old. split; [|exact Hid].
    rewrite <- (firstn_skipn i (responses state)) at 1. f_equal.
    now apply skipn_nth_error.
  - exists (responses state), []. apply findIndex_None_find in Ef.
    split; [reflexivity|]. split; [exact Ef|]. left.
    now rewrite app_nil_r.
Qed.

(** X23. After [saveResponse] the first response of the step is the one
    just saved; the first response of every other step is the one it was;
    the number of responses grows by one when the step had none and stays
    otherwise; and nothing else in the store changes. *)
Theorem saveResponse_then_find (now : JsDate) (id q a : str) (state : State) :
  findResponse id (responses (saveResponse now id q a state))
  = Some {| stepId := id; question := q; answer := a; timestamp := now |}
  /\ (forall other,
        other <> id ->
        findResponse other (responses (saveResponse now id q a state))
        = findResponse other (responses state))
  /\ length (responses (saveResponse now id q a state))
     = match findResponse id (responses state) with
       | Some _ => length (responses state)
       | None => S (length (responses state))
       end
  /\ currentStep (saveResponse now id q a state) = currentStep state
  /\ totalSteps (saveResponse now id q a state) = totalSteps state
  /\ progress (saveResponse now id q a state) = progress state
  /\ isActive (saveResponse now id q a state) = isActive state
  /\ isComplete (saveResponse now id q a state) = isComplete state.
Proof.
  destruct (saveResponse_responses now id q a state)
    as (pre & post & Hr & Hpre & Hold).
  split; [|split; [|split; [|now repeat split]]].
  - rewrite Hr, find_app_None by exact Hpre.
    unfold findResponse. cbn [find stepId]. now rewrite str_eqb_refl.
  - intros other Hne. rewrite Hr, find_app_other.
    assert (Hio : str_eqb id other = false).
    { destruct (str_eqb id other) eqn:E; [|reflexivity].
      apply str_eqb_eq in E. congruence. }
    destruct Hold as [(Hs & -> & _)|(old & Hs & Hid)].
    + rewrite Hs, app_nil_r. destruct (findResponse other pre); [reflexivity|].
      unfold findResponse. cbn [find stepId]. now rewrite Hio.
    + rewrite Hs, find_app_other. destruct (findResponse other pre); [reflexivity|].
      unfold findResponse. cbn [find stepId]. now rewrite Hid, Hio.
  - rewrite Hr. destruct Hold as [(Hs & -> & Hnone)|(old & Hs & Hid)].
    + rewrite Hnone, Hs, !length_app. cbn [length]. lia.
    + rewrite Hs at 1. rewrite find_app_None by exact Hpre.
      unfold findResponse at 1. cbn [find]. rewrite Hid, str_eqb_refl.
      rewrite Hs, !length_app. reflexivity.
Qed.

Lemma startsWith_refl (s : str) : startsWith s s = true.
Proof. induction s as [|c s IH]; [reflexivity|]. cbn. now rewrite N.eqb_refl. Qed.

Lemma includes_app_r (x y p : str) :
  includes y p = true -> includes (x ++ y) p = true.
Proof.
  intros H. induction x as [|c x IH]; [exact H|]. cbn [app].
  now apply includes_tail.
Qed.

Lemma includes_app_l (x y p : str) :
  includes x p = true -> includes (x ++ y) p = true.
Proof.
  induction x as [|c x IH]; intros H.
  - cbn [includes] in H. rewrite orb_false_r in H.
    apply includes_starts. now apply (startsWith_app [] y p).
  - cbn [includes] in H. apply orb_true_iff in H as [H|H].
    + apply includes_starts. now apply startsWith_app.
    + cbn [app]. apply includes_tail. now apply IH.
Qed.

Lemma includes_refl (s : str) : includes s s = true.
Proof. apply includes_starts, startsWith_refl. Qed.

Lemma join_includes (sep x p : str) (l : list str) :
  In x l -> includes x p = true ->
  includes (join sep (map Some l)) p = true.
Proof.
  intros Hin Hp. induction l as [|y l IH]; [destruct Hin|].
  destruct l as [|z l].
  - destruct Hin as [->|[]]. exact Hp.
  - change (join sep (map Some (y :: z :: l)))
      with (y ++ sep ++ join sep (map Some (z :: l))).
    destruct Hin as [->|Hin].
    + now apply includes_app_l.
    + do 2 apply includes_app_r. now apply IH.
Qed.

(** X24. The project context is the empty string exactly when there is no
    response. After [saveResponse] it is not empty, and it includes the
    question and the answer just saved. *)
Theorem saved_answer_is_in_the_context (now : JsDate) (id q a : str)
    (state : State) :
  (generateProjectContext state = [] <-> responses state = [])
  /\ generateProjectContext (saveResponse now id q a state) <> []
  /\ includes (generateProjectContext (saveResponse now id q a state)) q = true
  /\ includes (generateProjectContext (saveResponse now id q a state)) a = true.
Proof.
  split.
  - unfold generateProjectContext. destruct (responses state).
    + split; reflexivity.
    + split; discriminate.
  - destruct (saveResponse_responses now id q a state) as (pre & post & Hr & _).
    set (r := {| stepId := id; question := q; answer := a; timestamp := now |}) in *.
    assert (Hin : In (responseText r)
                    (map (@responseText JsDate)
                       (responses (saveResponse now id q a state)))).
    { rewrite Hr. apply in_map, in_elt. }
    unfold generateProjectContext.
    destruct (responses (saveResponse now id q a state)) as [|r0 rs] eqn:E.
    + destruct Hin.
    + split; [discriminate|].
      rewrite <- (map_map (@responseText JsDate) Some).
      split; do 2 apply includes_app_r; apply (join_includes _ _ _ _ Hin);
        unfold responseText; cbn [question answer r].
      * apply includes_app_l, includes_refl.
      * do 2 apply includes_app_r. apply includes_refl.
Qed.

End OnboardingFacts.

Lemma steps_stay_in_range_witness :
  (1 <= Onboarding.currentStep
          (Onboarding.nextStep (fun _ _ => tt)
             (Onboarding.startOnboarding tt
                (Onboarding.initialState tt
                 : Onboarding.OnboardingState unit unit)))
   <= 8)%Z.
Proof.
  apply (steps_stay_in_range (fun _ _ => tt)
           (Onboarding.startOnboarding tt (Onboarding.initialState tt))).
  cbn. lia.
Defined.

(** * Beyond the claims: the message interceptor *)

Section InterceptorFacts.

Import Interceptor.

Variable toLowerCase : str -> str.

(** X25. [intercept] never lets a disabled rule answer: its result is the
    one it gives on the enabled rules alone. The first enabled rule that
    matches the trimmed message gives the answer, and when no enabled rule
    matches, or the message is empty, the message is not intercepted. *)
Theorem intercept_uses_enabled_rules_in_order (rules : list InterceptRule)
    (message : str) :
  intercept toLowerCase rules message
  = intercept toLowerCase (getEnabledRules rules) message
  /\ ((message = []
       \/ Forall (fun rule =>
                    enabled rule = true ->
                    snd (matchRule toLowerCase rule (trim message)) = false)
            rules) ->
      intercept toLowerCase rules message = notIntercepted)
  /\ (forall pre rule post,
        rules = pre ++ rule :: post ->
        message <> [] ->
        Forall (fun r =>
                  enabled r = true ->
                  snd (matchRule toLowerCase r (trim message)) = false) pre ->
        enabled rule = true ->
        snd (matchRule toLowerCase rule (trim message)) = true ->
        intercept toLowerCase rules message
        = answer rule (trim message)
            (fst (matchRule toLowerCase rule (trim message)))).
Proof.
  assert (Hskip : forall pre rest t,
             Forall (fun r =>
                       enabled r = true ->
                       snd (matchRule toLowerCase r t) = false) pre ->
             interceptLoop toLowerCase (pre ++ rest) t
             = interceptLoop toLowerCase rest t).
  { intros pre rest t H. induction H as [|r pre Hr _ IH]; [reflexivity|].
    cbn [app interceptLoop]. destruct (enabled r); cbn [negb]; [|exact IH].
    destruct (matchRule toLowerCase r t) as [m b]. cbn [snd] in Hr.
    now rewrite (Hr eq_refl). }
  split; [|split].
  - unfold intercept. destruct message as [|c m]; [reflexivity|].
    generalize (trim (c :: m)) as t. intros t. unfold getEnabledRules.
    induction rules as [|r rules IH]; [reflexivity|].
    cbn [interceptLoop filter]. destruct (enabled r) eqn:E; cbn [negb].
    + cbn [interceptLoop]. rewrite E. cbn [negb].
      destruct (matchRule toLowerCase r t) as [mt b]. now destruct b.
    + exact IH.
  - intros [->|H]; [reflexivity|]. unfold intercept.
    destruct message; [reflexivity|].
    rewrite <- (app_nil_r rules). now rewrite Hskip.
  - intros pre rule post -> Hne Hpre He Hm. unfold intercept.
    destruct message; [contradiction|]. rewrite Hskip by exact Hpre.
    cbn [interceptLoop]. rewrite He. cbn [negb].
    destruct (matchRule toLowerCase rule (trim (c :: message))) as [mt b].
    cbn [fst snd] in *. now rewrite Hm.
Qed.

Lemma toggleRule_ids (ruleId : str) (e : option bool) (rules : list InterceptRule) :
  map id (fst (toggleRule ruleId e rules)) = map id rules
  /\ (snd (toggleRule ruleId e rules) = true <-> In ruleId (map id rules))
  /\ (snd (toggleRule ruleId e rules) = false ->
      fst (toggleRule ruleId e rules) = rules).
Proof.
  induction rules as [|r rules (IH1 & IH2 & IH3)].
  - cbn. repeat split; try discriminate; intros [].
  - cbn [toggleRule]. destruct (str_eqb (id r) ruleId) eqn:E.
    + cbn. apply str_eqb_eq in E. repeat split; try discriminate; auto.
    + destruct (toggleRule ruleId e rules) as [rest found]. cbn [fst snd] in *.
      cbn [map]. split; [now rewrite IH1|]. split.
      * rewrite IH2. split; [now right|]. intros [H|H]; [|exact H].
        apply str_eqb_eq in H. congruence.
      * intros H. now rewrite (IH3 H).
Qed.

Lemma updateRule_ids (ruleId : str) (u : RuleUpdates) (rules : list InterceptRule) :
  map id (fst (updateRule ruleId u rules)) = map id rules
  /\ (snd (updateRule ruleId u rules) = true <-> In ruleId (map id rules))
  /\ (snd (updateRule ruleId u rules) = false ->
      fst (updateRule ruleId u rules) = rules).
Proof.
  induction rules as [|r rules (IH1 & IH2 & IH3)].
  - cbn. repeat split; try discriminate; intros [].
  - cbn [updateRule]. destruct (str_eqb (id r) ruleId) eqn:E.
    + cbn. apply str_eqb_eq in E. repeat split; try discriminate; auto.
      now rewrite E.
    + destruct (updateRule ruleId u rules) as [rest found]. cbn [fst snd] in *.
      cbn [map]. split; [now rewrite IH1|]. split.
      * rewrite IH2. split; [now right|]. intros [H|H]; [|exact H].
        apply str_eqb_eq in H. congruence.
      * intros H. now rewrite (IH3 H).
Qed.

(** X26. The ids of the table. [toggleRule] and [updateRule] keep the ids
    of all rules, in order, even when the updates carry another id; each
    reports [true] exactly when a rule has the id, and leaves the table as it
    is when it reports [false]. [removeRule] reports [true] exactly when a
    rule has the id, leaves no rule with it, and keeps every other rule in
    order. *)
Theorem rule_ids_are_kept (ruleId : str) (rules : list InterceptRule) :
  (forall e,
      map id (fst (toggleRule ruleId e rules)) = map id rules
      /\ (snd (toggleRule ruleId e rules) = true <-> In ruleId (map id rules))
      /\ (snd (toggleRule ruleId e rules) = false ->
          fst (toggleRule ruleId e rules) = rules))
  /\ (forall u,
        map id (fst (updateRule ruleId u rules)) = map id rules
        /\ (snd (updateRule ruleId u rules) = true <-> In ruleId (map id rules))
        /\ (snd (updateRule ruleId u rules) = false ->
            fst (updateRule ruleId u rules) = rules))
  /\ (snd (removeRule ruleId rules) = true <-> In ruleId (map id rules))
  /\ ~ In ruleId (map id (fst (removeRule ruleId rules)))
  /\ (forall other,
        other <> ruleId ->
        filter (fun r => str_eqb (id r) other) (fst (removeRule ruleId rules))
        = filter (fun r => str_eqb (id r) other) rules).
Proof.
  split; [intros e; apply toggleRule_ids|].
  split; [intros u; apply updateRule_ids|].
  unfold removeRule. cbn [fst snd]. split; [|split].
  - induction rules as [|r rules IH].
    + cbn. split; [discriminate|intros []].
    + cbn [filter map length]. destruct (str_eqb (id r) ruleId) eqn:E; cbn [negb].
      * apply str_eqb_eq in E. split; [now left|]. intros _.
        apply Nat.ltb_lt.
        pose proof (filter_length_le (fun rule => negb (str_eqb (id rule) ruleId)) rules).
        lia.
      * cbn [length]. change (Nat.ltb (S ?a) (S ?b)) with (Nat.ltb a b). rewrite IH.
        split; [now right|]. intros [H|H]; [|exact H].
        apply str_eqb_eq in H. congruence.
  - intros H. apply in_map_iff in H as (r & Hid & Hin).
    apply filter_In in Hin as [_ Hf]. apply negb_true_iff in Hf.
    apply str_eqb_eq in Hid. congruence.
  - intros other Hne. induction rules as [|r rules IH]; [reflexivity|].
    cbn [filter]. destruct (str_eqb (id r) ruleId) eqn:E; cbn [negb].
    + apply str_eqb_eq in E.
      destruct (str_eqb (id r) other) eqn:E2; [|exact IH].
      apply str_eqb_eq in E2. congruence.
    + cbn [filter]. destruct (str_eqb (id r) other); [now rewrite IH|exact IH].
Qed.

(** X27. [clearCustomRules] removes what [addRule] adds, whatever the stamp
    of the id: on the table after [addRule] it gives what it gives on the
    table before. It leaves the default rules as they are, and doing it
    twice is doing it once. *)
Theorem clearCustomRules_undoes_addRule (stamp statusText : str)
    (rule : InterceptRule) (rules : list InterceptRule) :
  clearCustomRules (fst (addRule stamp rule rules)) = clearCustomRules rules
  /\ startsWith (snd (addRule stamp rule rules)) (js "custom-") = true
  /\ clearCustomRules (defaultRules statusText) = defaultRules statusText
  /\ clearCustomRules (clearCustomRules rules) = clearCustomRules rules.
Proof.
  assert (Hc : startsWith (js "custom-" ++ stamp) (js "custom-") = true)
    by (apply startsWith_app; reflexivity).
  split; [|split; [exact Hc|split; [reflexivity|]]].
  - unfold clearCustomRules, addRule. cbn [fst].
    rewrite filter_app. cbn [filter withId id]. rewrite Hc. cbn [negb].
    apply app_nil_r.
  - unfold clearCustomRules. induction rules as [|r rules IH]; [reflexivity|].
    cbn [filter]. destruct (negb (startsWith (id r) (js "custom-"))) eqn:E.
    + cbn [filter]. now rewrite E, IH.
    + exact IH.
Qed.

(** X28. With the default rules, a message is intercepted exactly when,
    trimmed, it is [/help], [/status], [/clear] or [/version] up to the case
    of its ASCII letters; every interception then bypasses the AI and carries
    a response. *)
Theorem default_rules_intercept_the_four_commands (statusText message : str) :
  (intercepted (intercept toLowerCase (defaultRules statusText) message) = true
   <-> sameCommand (trim message) (js "/help") = true
       \/ sameCommand (trim message) (js "/status") = true
       \/ sameCommand (trim message) (js "/clear") = true
       \/ sameCommand (trim message) (js "/version") = true)
  /\ (intercepted (intercept toLowerCase (defaultRules statusText) message) = true ->
      shouldBypassAI (intercept toLowerCase (defaultRules statusText) message)
      = Some true
      /\ response (intercept toLowerCase (defaultRules statusText) message)
         <> None).
Proof.
  unfold intercept. destruct message as [|c m].
  - split; [|discriminate]. split; [discriminate|].
    intros [H|[H|[H|H]]]; discriminate.
  - generalize (trim (c :: m)) as t. intros t.
    unfold defaultRules, interceptLoop, matchRule, commandPattern, answer.
    cbn [enabled negb pattern reMatch handler action fst snd].
    destruct (sameCommand t (js "/help")) eqn:E1;
      [cbn; split; [split; auto|split; [reflexivity|discriminate]]|].
    destruct (sameCommand t (js "/status")) eqn:E2;
      [cbn; split; [split; auto|split; [reflexivity|discriminate]]|].
    destruct (sameCommand t (js "/clear")) eqn:E3;
      [cbn; split; [split; auto|split; [reflexivity|discriminate]]|].
    destruct (sameCommand t (js "/version")) eqn:E4;
      [cbn; split; [split; auto 6|split; [reflexivity|discriminate]]|].
    cbn. split; [|discriminate]. split; [discriminate|].
    intros [H|[H|[H|H]]]; discriminate.
Qed.

End InterceptorFacts.
